(** * sm_cubit.visuals.improver: the pixel-grid improver

    A shallow embedding of [src/sm_cubit/visuals/improver.py] and the
    properties of its five passes ([clean_pixel_grid], [smoothen_edges],
    [pad_edges], [remove_small_grains], [merge_grains]).

    Python lists are [list]s read with stdpp's lookup and written with
    stdpp's insert behind an explicit bounds check (Python raises
    [IndexError] where stdpp's insert would do nothing).  The caller's
    [pixel_grid] object, the random generator behind [randint] and the
    console behind [print] form the [world] that every pass threads.
    The rows of a grid are taken to be distinct list objects. *)

From Stdlib Require Import ZArith Lia.
From stdpp Require Import base list sorting strings pretty.

Local Open Scope Z_scope.

(** ** Data model *)

(** A pixel grid is a list of rows of integer ids; [pixel_grid[row][col]]. *)
Abbreviation grid := (list (list Z)).

(** A coordinate is the two-element list [[x, y]] of the source:
    [n[0]] is the column, [n[1]] the row. *)
Abbreviation coord := (nat * nat)%type.

(** The exceptions the passes can raise. *)
Inductive exn := IndexError | KeyError | ValueError.

Inductive res (A : Type) :=
  | Ok (a : A)
  | Raise (e : exn).
Arguments Ok {A} a.
Arguments Raise {A} e.

(** The world of a call: the list object the caller passed as
    [pixel_grid] (an in-place pass writes to it), the pending draws of
    the random generator, and the lines printed so far. *)
Record world := World {
  store : grid;
  rng : list nat;
  stdout : list string;
}.

Definition set_store (g : grid) (w : world) : world :=
  World g (rng w) (stdout w).
Definition set_rng (t : list nat) (w : world) : world :=
  World (store w) t (stdout w).
Definition set_stdout (o : list string) (w : world) : world :=
  World (store w) (rng w) o.

(** ** The state-and-exception monad

    A raised exception keeps the world as it was when it was raised:
    writes made before it are not rolled back. *)
Definition M (A : Type) : Type := world -> res A * world.

Definition ret {A} (a : A) : M A := fun w => (Ok a, w).

Definition bind {A B} (m : M A) (k : A -> M B) : M B :=
  fun w =>
    match m w with
    | (Ok a, w') => k a w'
    | (Raise e, w') => (Raise e, w')
    end.

Definition raise {A} (e : exn) : M A := fun w => (Raise e, w).

Definition lift {A} (r : res A) : M A := fun w => (r, w).

Declare Scope py_scope.
Delimit Scope py_scope with py.
Notation "x <- m ;; k" := (bind m (fun x => k))
  (at level 100, m at next level, right associativity) : py_scope.
Notation "m ;;; k" := (bind m (fun _ => k))
  (at level 100, right associativity) : py_scope.
Local Open Scope py_scope.

(** [for x in l: body x] *)
Fixpoint for_each {A} (l : list A) (body : A -> M unit) : M unit :=
  match l with
  | [] => ret tt
  | x :: l' => body x ;;; for_each l' body
  end.

(** [for x in l: acc = body acc x], for a loop that rebinds or updates
    a local object [acc]. *)
Fixpoint for_acc {A B} (l : list A) (body : B -> A -> M B) (acc : B) : M B :=
  match l with
  | [] => ret acc
  | x :: l' => acc' <- body acc x ;; for_acc l' body acc'
  end.

(** [[x for x in l if p x]] where [p] reads the world. *)
Fixpoint filterM {A} (p : A -> M bool) (l : list A) : M (list A) :=
  match l with
  | [] => ret []
  | x :: l' =>
      b <- p x ;;
      r <- filterM p l' ;;
      ret (if b then x :: r else r)
  end.

(** [[f x for x in l]] where [f] reads the world. *)
Fixpoint mapM {A B} (f : A -> M B) (l : list A) : M (list B) :=
  match l with
  | [] => ret []
  | x :: l' =>
      y <- f x ;;
      r <- mapM f l' ;;
      ret (y :: r)
  end.

(** ** Python primitives *)

(** [range(n)] *)
Definition range (n : nat) : list nat := seq 0 n.

(** [range(a, b)] *)
Definition range2 (a b : nat) : list nat := seq a (b - a).

(** [l[i]] for an index [i >= 0]. *)
Definition getitem {A} (l : list A) (i : nat) : res A :=
  match l !! i with
  | Some x => Ok x
  | None => Raise IndexError
  end.

(** [l[i]] for an integer index: a negative index counts from the end. *)
Definition getitem_int {A} (l : list A) (i : Z) : res A :=
  if (i <? 0)%Z then
    if (i + Z.of_nat (length l) <? 0)%Z then Raise IndexError
    else getitem l (Z.to_nat (i + Z.of_nat (length l)))
  else getitem l (Z.to_nat i).

(** [g[r][c]] *)
Definition grid_get (g : grid) (r c : nat) : res Z :=
  match getitem g r with
  | Ok row => getitem row c
  | Raise e => Raise e
  end.

(** [g[r][c] = v]: the row object is updated in place. *)
Definition grid_set (g : grid) (r c : nat) (v : Z) : res grid :=
  match getitem g r with
  | Ok row =>
      if decide (c < length row)%nat then Ok (<[r := <[c := v]> row]> g)
      else Raise IndexError
  | Raise e => Raise e
  end.

(** [l.count(x)] *)
Definition py_count (l : list Z) (x : Z) : nat :=
  length (filter (fun y => y = x) l).

(** [x in l] *)
Definition py_in (x : Z) (l : list Z) : bool := bool_decide (x ∈ l).

(** [l.remove(x)]: deletes the first occurrence; the source calls it
    under [if x in l] only. *)
Fixpoint py_remove (x : Z) (l : list Z) : list Z :=
  match l with
  | [] => []
  | y :: l' => if decide (y = x) then l' else y :: py_remove x l'
  end.

(** [max(l, key=key)]: the first element, in iteration order, whose key
    is maximal; [ValueError] on an empty iterable. *)
Fixpoint max_from (key : Z -> nat) (best : Z) (l : list Z) : Z :=
  match l with
  | [] => best
  | x :: l' => max_from key (if decide (key best < key x)%nat then x else best) l'
  end.

Definition py_max (l : list Z) (key : Z -> nat) : res Z :=
  match l with
  | [] => Raise ValueError
  | x :: l' => Ok (max_from key x l')
  end.

(** [l.sort()] on integers. *)
Definition py_sort (l : list Z) : list Z := merge_sort Z.le l.

(** [randint(a, b)]: [ValueError] on an empty range, otherwise the next
    draw of the generator reduced into [a..b].  An exhausted tape keeps
    drawing [a]. *)
Definition randint (a b : Z) : M Z :=
  fun w =>
    if (b <? a)%Z then (Raise ValueError, w)
    else match rng w with
         | [] => (Ok a, w)
         | v :: t => (Ok (a + Z.of_nat v mod (b - a + 1))%Z, set_rng t w)
         end.

(** [print(s)] *)
Definition print (s : string) : M unit :=
  fun w => (Ok tt, set_stdout (stdout w ++ [s]) w).

(** Reads and writes of the caller's [pixel_grid]. *)
Definition load (r c : nat) : M Z := fun w => (grid_get (store w) r c, w).

Definition save (r c : nat) (v : Z) : M unit :=
  fun w =>
    match grid_set (store w) r c v with
    | Ok g => (Ok tt, set_store g w)
    | Raise e => (Raise e, w)
    end.

(** [len(pixel_grid)] and [len(pixel_grid[0])] *)
Definition len_grid : M nat := fun w => (Ok (length (store w)), w).

Definition len_row0 : M nat :=
  fun w =>
    match getitem (store w) 0 with
    | Ok row => (Ok (length row), w)
    | Raise e => (Raise e, w)
    end.

(** The object bound to [pixel_grid]. *)
Definition the_grid : M grid := fun w => (Ok (store w), w).

(** ** The collaborators of the module

    [sm_cubit.maths.pixel_maths] is imported by the source but is not
    part of it, and the iteration order of a Python [set] is fixed by
    the interpreter, not by the program.  Both are taken as interfaces;
    the laws are the sentences of the specification about them. *)

Class Collaborators := {
  VOID_PIXEL_ID : Z;
  UNORIENTED_PIXEL_ID : Z;
  (** [get_neighbours(x, y, x_size, y_size)] *)
  get_neighbours : nat -> nat -> nat -> nat -> list coord;
  (** [get_all_neighbours(x_list, y_list, x_size, y_size)] *)
  get_all_neighbours : list nat -> list nat -> nat -> nat -> list coord;
  (** [list(set(l))]: the distinct elements in the set's iteration order *)
  set_iter : list Z -> list Z;
}.

Class CollaboratorsLaws (C : Collaborators) : Prop := {
  (** the two sentinels are distinguishable *)
  void_not_unoriented : VOID_PIXEL_ID ≠ UNORIENTED_PIXEL_ID;
  (** neighbours are clipped at the grid edges *)
  get_neighbours_bounded : forall x y x_size y_size p,
    p ∈ get_neighbours x y x_size y_size ->
    (p.1 < x_size)%nat /\ (p.2 < y_size)%nat;
  (** the halo is clipped at the grid edges *)
  get_all_neighbours_bounded : forall x_list y_list x_size y_size p,
    p ∈ get_all_neighbours x_list y_list x_size y_size ->
    (p.1 < x_size)%nat /\ (p.2 < y_size)%nat;
  (** the halo holds no member of the coordinate set itself *)
  get_all_neighbours_outside : forall x_list y_list x_size y_size p,
    p ∈ get_all_neighbours x_list y_list x_size y_size ->
    p ∉ zip x_list y_list;
  (** a set holds each element of the list once *)
  set_iter_NoDup : forall l, NoDup (set_iter l);
  set_iter_elem : forall l x, x ∈ set_iter l <-> x ∈ l;
}.

(** Modelled from the spec: [pixel_maths.get_void_pixel_grid] is missing
    from the source; the specification has the padder's output grid
    "initialized entirely to VOID_ID", [x_size] columns by [y_size] rows. *)
Definition get_void_pixel_grid `{Collaborators} (x_size y_size : nat) : grid :=
  replicate y_size (replicate x_size VOID_PIXEL_ID).

(** Orientation components are Python numbers (floats in practice).
    The merger only subtracts, takes absolute values, adds and compares
    them, so the number type is an interface too. *)
Class PyNum (T : Type) := {
  num_zero : T;
  num_add : T -> T -> T;
  num_sub : T -> T -> T;
  num_abs : T -> T;
  num_lt : T -> T -> bool;
}.

(** ** The passes *)

Section Improver.
Context `{C : Collaborators}.

(** *** [clean_pixel_grid] (lines 13-52)

    [num_void <= len(neighbours) / 2] compares an integer with the
    float quotient; for list lengths it is [2 * num_void <= len]. *)
Definition clean_pixel (x_size y_size row col : nat) : M unit :=
  p <- load row col ;;
  if decide (p = UNORIENTED_PIXEL_ID) then ret tt else
  let neighbours := get_neighbours col row x_size y_size in
  void_neighbours <-
    filterM (fun n => v <- load n.2 n.1 ;; ret (bool_decide (v = VOID_PIXEL_ID)))
            neighbours ;;
  let num_void := length void_neighbours in
  p <- load row col ;;
  skip <-
    (if bool_decide (p = VOID_PIXEL_ID)
        && bool_decide (2 * num_void <= length neighbours)%nat
     then
       k <- randint 0 (Z.of_nat (length neighbours) - 1) ;;
       copy <- lift (getitem_int neighbours k) ;;
       v <- load copy.2 copy.1 ;;
       if decide (v = UNORIENTED_PIXEL_ID) then ret true else
       v <- load copy.2 copy.1 ;;
       save row col v ;;;
       ret false
     else ret false) ;;
  if skip : bool then ret tt else
  p <- load row col ;;
  if bool_decide (p ≠ VOID_PIXEL_ID)
     && bool_decide (length neighbours < 2 * num_void)%nat
  then save row col VOID_PIXEL_ID
  else ret tt.

Definition clean_pixel_grid : M grid :=
  x_size <- len_row0 ;;
  y_size <- len_grid ;;
  for_each (range y_size) (fun row =>
    for_each (range x_size) (fun col =>
      clean_pixel x_size y_size row col)) ;;;
  the_grid.

(** *** [smoothen_edges] (lines 54-88) *)
Definition smoothen_pixel (x_size y_size row col : nat) : M unit :=
  p <- load row col ;;
  if decide (p = UNORIENTED_PIXEL_ID) then ret tt else
  let neighbours := get_neighbours col row x_size y_size in
  foreign_neighbours <-
    filterM (fun n => v <- load n.2 n.1 ;;
                      p <- load row col ;;
                      ret (bool_decide (v ≠ p)))
            neighbours ;;
  if decide (2 < length foreign_neighbours)%nat then
    k <- randint 0 (Z.of_nat (length foreign_neighbours) - 1) ;;
    foreign <- lift (getitem_int foreign_neighbours k) ;;
    v <- load foreign.2 foreign.1 ;;
    if decide (v = UNORIENTED_PIXEL_ID) then ret tt else
    v <- load foreign.2 foreign.1 ;;
    save row col v
  else ret tt.

Definition smoothen_edges : M grid :=
  x_size <- len_row0 ;;
  y_size <- len_grid ;;
  for_each (range y_size) (fun row =>
    for_each (range x_size) (fun col =>
      smoothen_pixel x_size y_size row col)) ;;;
  the_grid.

(** *** [pad_edges] (lines 90-126)

    [padded_pixel_grid] is a fresh local object: it is the accumulator
    of the loops, and the caller's grid is only read. *)
Definition pad_pixel (x_size y_size row : nat) (padded : grid) (col : nat)
  : M grid :=
  p <- load row col ;;
  if decide (p ≠ VOID_PIXEL_ID) then
    p <- load row col ;;
    lift (grid_set padded row col p)
  else
  let neighbours := get_neighbours col row x_size y_size in
  live_neighbours <-
    filterM (fun n => v <- load n.2 n.1 ;; ret (bool_decide (v ≠ VOID_PIXEL_ID)))
            neighbours ;;
  if decide (0 < length live_neighbours)%nat then
    k <- randint 0 (Z.of_nat (length live_neighbours) - 1) ;;
    copy <- lift (getitem_int live_neighbours k) ;;
    v <- load copy.2 copy.1 ;;
    lift (grid_set padded row col v)
  else ret padded.

Definition pad_edges : M grid :=
  x_size <- len_row0 ;;
  y_size <- len_grid ;;
  let padded_pixel_grid := get_void_pixel_grid x_size y_size in
  for_acc (range y_size) (fun padded row =>
    for_acc (range x_size) (pad_pixel x_size y_size row) padded)
    padded_pixel_grid.

(** *** [get_sorted_grain_id_list] (lines 128-142)

    It only reads its argument, so it is a function of the grid's
    contents at the time of the call. *)
Definition get_sorted_grain_id_list (pixel_grid : grid) : list Z * list Z :=
  let flattened := concat pixel_grid in
  let id_list := set_iter flattened in
  let id_list :=
    if py_in VOID_PIXEL_ID id_list then py_remove VOID_PIXEL_ID id_list
    else id_list in
  (py_sort id_list, flattened).

(** *** [remove_small_grains] (lines 144-186) *)

(** Lines 168-174: the coordinates of the pixels that hold [id] now. *)
Definition gather_pixels (x_size y_size : nat) (id : Z)
  : M (list nat * list nat) :=
  for_acc (range y_size) (fun acc row =>
    for_acc (range x_size) (fun acc col =>
      p <- load row col ;;
      if decide (p ≠ id) then ret acc
      else ret (acc.1 ++ [col], acc.2 ++ [row])) acc)
    ([], []).

(** Lines 182-183. *)
Definition replace_pixels (x_list y_list : list nat) (v : Z) : M unit :=
  for_each (range (length x_list)) (fun i =>
    y <- lift (getitem y_list i) ;;
    x <- lift (getitem x_list i) ;;
    save y x v).

(** Lines 177-179. *)
Definition most_neighbouring_of (neighbour_ids : list Z) : res Z :=
  py_max (set_iter neighbour_ids) (py_count neighbour_ids).

(** One iteration of the loop of line 161. *)
Definition remove_grain (flattened : list Z) (threshold : Z)
    (x_size y_size : nat) (id : Z) : M unit :=
  if decide (threshold <= Z.of_nat (py_count flattened id)) then ret tt else
  xy <- gather_pixels x_size y_size id ;;
  let '(x_list, y_list) := xy in
  let neighbours := get_all_neighbours x_list y_list x_size y_size in
  neighbour_ids <- mapM (fun neighbour => load neighbour.2 neighbour.1) neighbours ;;
  most_neighbouring <- lift (most_neighbouring_of neighbour_ids) ;;
  replace_pixels x_list y_list most_neighbouring.

Definition remove_small_grains (threshold : Z) : M grid :=
  pixel_grid <- the_grid ;;
  let '(id_list, flattened) := get_sorted_grain_id_list pixel_grid in
  x_size <- len_row0 ;;
  y_size <- len_grid ;;
  for_each id_list (remove_grain flattened threshold x_size y_size) ;;;
  the_grid.

(** *** [merge_grains] (lines 188-229) *)
Section Merge.
Context {T : Type} `{PyNum T}.

(** [grain_map[id].get_orientation()]: the grain map is only read; a
    missing key raises [KeyError]. *)
Definition orientation_of (grain_map : Z -> option (list T)) (id : Z)
  : res (list T) :=
  match grain_map id with
  | Some o => Ok o
  | None => Raise KeyError
  end.

(** Line 210: [sum([abs(o1[k] - o2[k]) for k in range(3)])]; [sum]
    starts from 0 and adds from the left. *)
Fixpoint abs_differences (o1 o2 : list T) (ks : list nat) : res (list T) :=
  match ks with
  | [] => Ok []
  | k :: ks' =>
      match getitem o1 k, getitem o2 k with
      | Ok a, Ok b =>
          match abs_differences o1 o2 ks' with
          | Ok r => Ok (num_abs (num_sub a b) :: r)
          | Raise e => Raise e
          end
      | Raise e, _ => Raise e
      | _, Raise e => Raise e
      end
  end.

Definition py_sum (l : list T) : T := foldl num_add num_zero l.

Definition orientation_error (o1 o2 : list T) : res T :=
  match abs_differences o1 o2 (range 3) with
  | Ok ds => Ok (py_sum ds)
  | Raise e => Raise e
  end.

(** The merge map is a [dict]: keys iterate in the order in which they
    were first inserted. *)
Abbreviation merge_map_t := (list (Z * list Z)).

(** [k in d.keys()] *)
Definition dict_has (d : merge_map_t) (k : Z) : bool :=
  bool_decide (k ∈ d.*1).

(** [d[k]] *)
Fixpoint dict_get (d : merge_map_t) (k : Z) : res (list Z) :=
  match d with
  | [] => Raise KeyError
  | (k', v) :: d' => if decide (k' = k) then Ok v else dict_get d' k
  end.

(** [d[k] = v]: an existing key keeps its place, a new key goes last. *)
Fixpoint dict_set (d : merge_map_t) (k : Z) (v : list Z) : merge_map_t :=
  match d with
  | [] => [(k, v)]
  | (k', v') :: d' =>
      if decide (k' = k) then (k, v) :: d' else (k', v') :: dict_set d' k v
  end.

(** Lines 211-215. *)
Definition record_merge (merge_map : merge_map_t) (id_i id_j : Z)
  : res merge_map_t :=
  if dict_has merge_map id_i then
    match dict_get merge_map id_i with
    | Ok l => Ok (dict_set merge_map id_i (l ++ [id_j]))
    | Raise e => Raise e
    end
  else Ok (dict_set merge_map id_i [id_j]).

(** Lines 206-215. *)
Definition identify_merges (grain_map : Z -> option (list T)) (threshold : T)
    (id_list : list Z) : M merge_map_t :=
  for_acc (range (length id_list)) (fun merge_map i =>
    id_i <- lift (getitem id_list i) ;;
    orientation_1 <- lift (orientation_of grain_map id_i) ;;
    for_acc (range2 (i + 1) (length id_list)) (fun merge_map j =>
      id_j <- lift (getitem id_list j) ;;
      orientation_2 <- lift (orientation_of grain_map id_j) ;;
      error <- lift (orientation_error orientation_1 orientation_2) ;;
      if num_lt error threshold then
        id_i <- lift (getitem id_list i) ;;
        id_j <- lift (getitem id_list j) ;;
        lift (record_merge merge_map id_i id_j)
      else ret merge_map) merge_map)
    [].

(** Lines 218-222: [new_pixel_grid] is the local deep copy; the bounds
    of the scan are read from the caller's grid. *)
Definition apply_merges (merge_map : merge_map_t) (new_pixel_grid : grid)
  : M grid :=
  for_acc merge_map.*1 (fun new_pixel_grid id =>
    y_size <- len_grid ;;
    for_acc (range y_size) (fun new_pixel_grid i =>
      x_size <- len_row0 ;;
      for_acc (range x_size) (fun new_pixel_grid j =>
        p <- lift (grid_get new_pixel_grid i j) ;;
        members <- lift (dict_get merge_map id) ;;
        if py_in p members then lift (grid_set new_pixel_grid i j id)
        else ret new_pixel_grid) new_pixel_grid) new_pixel_grid)
    new_pixel_grid.

Definition rule : string := "=========================".

Definition summary (before after : nat) : string :=
  "Merged from " +:+ pretty before +:+ " grains to " +:+ pretty after +:+ " grains".

(** [deepcopy(pixel_grid)] is the value of the caller's grid at the time
    of the call, held in a local object. *)
Definition merge_grains (grain_map : Z -> option (list T)) (threshold : T)
  : M grid :=
  pixel_grid <- the_grid ;;
  let '(id_list, _) := get_sorted_grain_id_list pixel_grid in
  let new_pixel_grid := pixel_grid in
  merge_map <- identify_merges grain_map threshold id_list ;;
  new_pixel_grid <- apply_merges merge_map new_pixel_grid ;;
  let '(new_id_list, _) := get_sorted_grain_id_list new_pixel_grid in
  print rule ;;;
  print (summary (length id_list) (length new_id_list)) ;;;
  print rule ;;;
  ret new_pixel_grid.

End Merge.
End Improver.

(** ** A reference implementation of the collaborators *)

Module Reference.

(** Modelled from the spec: [pixel_maths.get_neighbours] is missing from
    the source; the specification has it return "the grid-bounded
    8-adjacent cells (3 at a corner, 5 on an edge, 8 interior); no
    toroidal wraparound". *)
Definition neighbours (x y x_size y_size : nat) : list coord :=
  let offsets : list (Z * Z) :=
    [(-1, -1); (0, -1); (1, -1); (-1, 0); (1, 0); (-1, 1); (0, 1); (1, 1)] in
  omap (fun d : Z * Z =>
          let x' := Z.of_nat x + d.1 in
          let y' := Z.of_nat y + d.2 in
          if bool_decide (0 <= x' < Z.of_nat x_size)
             && bool_decide (0 <= y' < Z.of_nat y_size)
          then Some (Z.to_nat x', Z.to_nat y') else None)
       offsets.

(** Modelled from the spec: [pixel_maths.get_all_neighbours] is missing
    from the source; the specification has it return "the deduplicated
    set of all bounded neighbours of any coordinate in the set that are
    not themselves members of the set". *)
Definition halo (x_list y_list : list nat) (x_size y_size : nat)
  : list coord :=
  let group := zip x_list y_list in
  let all_neighbours :=
    concat (map (fun p : coord => neighbours p.1 p.2 x_size y_size) group) in
  filter (fun p => p ∉ group) (remove_dups all_neighbours).

(** The distinct elements in ascending order.  It is one order that
    satisfies the laws, and the order in which CPython iterates a set of
    non-negative integers below the size of the set's table, each of
    which hashes to itself. *)
Definition ascending (l : list Z) : list Z := merge_sort Z.le (remove_dups l).

(** Sentinels as in the scenarios of the specification (0 is void); the
    unoriented sentinel is any other reserved value. *)
#[export] Instance collaborators : Collaborators := {|
  VOID_PIXEL_ID := 0;
  UNORIENTED_PIXEL_ID := -1;
  get_neighbours := neighbours;
  get_all_neighbours := halo;
  set_iter := ascending;
|}.

(** Orientation components as integers. *)
#[export] Instance num_Z : PyNum Z := {|
  num_zero := 0;
  num_add := Z.add;
  num_sub := Z.sub;
  num_abs := Z.abs;
  num_lt := Z.ltb;
|}.

(** The worlds of the examples. *)

(** A gridful of grain 5 with one unoriented pixel in a corner. *)
Definition corner_world : world := World [[5; 5]; [5; -1]] [] [].

(** A one-pixel grain 5 between the grains 2 and 1. *)
Definition tie_world : world := World [[2; 2; 5; 1; 1]] [] [].

(** Four grains, and a grain map that spreads them along a line. *)
Definition merge_world : world := World [[1; 2]; [4; 7]] [] [].

Definition line_map (id : Z) : option (list Z) := Some [id; 0; 0].

(** A grain map for [merge_world] in which grain 4 is within 3 of the
    grains 1 and 2, and the grains 1 and 2 are exactly 3 apart. *)
Definition spread_map (id : Z) : option (list Z) :=
  if decide (id = 1) then Some [0; 0; 0]
  else if decide (id = 2) then Some [1; 1; 1]
  else if decide (id = 4) then Some [0; 0; 1]
  else Some [10; 10; 10].

(** Two void pixels in a gridful of grain 5; the first draw is 7. *)
Definition pitted_world : world :=
  World [[5; 5; 5]; [5; 0; 5]; [5; 5; 0]] [7%nat] [].

End Reference.

(** ** The vocabulary of the properties *)

Section Vocabulary.
Context `{C : Collaborators}.

(** [wp m Q w]: running [m] from [w] ends in a result and a world that
    satisfy [Q], whether it returns or raises. *)
Definition wp {A} (m : M A) (Q : res A -> world -> Prop) (w : world) : Prop :=
  Q (m w).1 (m w).2.

(** The postcondition of the first half of a [bind]. *)
Definition and_then {A B} (k : A -> M B) (Q : res B -> world -> Prop)
  : res A -> world -> Prop :=
  fun r w =>
    match r with
    | Ok a => wp (k a) Q w
    | Raise e => Q (Raise e) w
    end.

(** A computation that never changes the world. *)
Definition readonly {A} (m : M A) : Prop := forall w, (m w).2 = w.

(** Every row is as long as the first one. *)
Definition rectangular (g : grid) : Prop :=
  Forall (fun row => length row = length (default [] (head g))) g.

(** The shape of a grid: the lengths of its rows. *)
Definition shape (g : grid) : list nat := length <$> g.

(** Every unoriented pixel of [g] is an unoriented pixel of [g'], in the
    same cell. *)
Definition keeps_unoriented (g g' : grid) : Prop :=
  forall r c, grid_get g r c = Ok UNORIENTED_PIXEL_ID ->
              grid_get g' r c = Ok UNORIENTED_PIXEL_ID.

(** The value of a cell that is known to be in range. *)
Definition pixel_at (g : grid) (r c : nat) : Z :=
  match grid_get g r c with
  | Ok v => v
  | Raise _ => 0
  end.

(** [g] has [y_size] rows of [x_size] pixels. *)
Definition in_shape (x_size y_size : nat) (g : grid) : Prop :=
  shape g = replicate y_size x_size.

(** [padded] agrees with the input [g] on the live cells of [g] that
    satisfy [visited]. *)
Definition live_copied (g padded : grid) (visited : nat -> nat -> Prop) : Prop :=
  forall r c v, visited r c -> grid_get g r c = Ok v -> v <> VOID_PIXEL_ID ->
                grid_get padded r c = Ok v.

(** The cells of an [x_size] by [y_size] grid in scan order. *)
Definition row_major (x_size y_size : nat) : list coord :=
  concat ((fun row => (fun col => (col, row)) <$> range x_size) <$> range y_size).

(** The pixels that hold [id], in scan order. *)
Definition grain_pixels (g : grid) (id : Z) (x_size y_size : nat) : list coord :=
  filter (fun p => pixel_at g p.2 p.1 = id) (row_major x_size y_size).

(** The grid with every [id] replaced by [m]. *)
Definition relabel (id m : Z) (g : grid) : grid :=
  (fun row : list Z => (fun v => if decide (v = id) then m else v) <$> row) <$> g.

(** Lines 168-174 compute the pixels of the grain in scan order. *)
Definition gather_step (g : grid) (id : Z) (row : nat)
    (acc : list nat * list nat) (col : nat) : list nat * list nat :=
  if decide (pixel_at g row col ≠ id) then acc
  else (acc.1 ++ [col], acc.2 ++ [row]).

(** The ids read around a grain: the values of its halo, in the halo's
    enumeration order. *)
Definition halo_ids (g : grid) (id : Z) (x_size y_size : nat) : list Z :=
  let cells := grain_pixels g id x_size y_size in
  (fun n : coord => pixel_at g n.2 n.1)
    <$> get_all_neighbours cells.*1 cells.*2 x_size y_size.

(** What one iteration of the loop of line 161 does to the grid when the
    grain is under the threshold. *)
Definition absorb (x_size y_size : nat) (id : Z) (g : grid) : res grid :=
  match most_neighbouring_of (halo_ids g id x_size y_size) with
  | Ok m => Ok (relabel id m g)
  | Raise e => Raise e
  end.

(** The loop of line 161 as a function of the grid: the result and the
    grid it leaves (the last grid reached when an iteration raises). *)
Fixpoint remove_loop (flattened : list Z) (threshold : Z) (x_size y_size : nat)
    (id_list : list Z) (g : grid) : res unit * grid :=
  match id_list with
  | [] => (Ok tt, g)
  | id :: rest =>
      if decide (threshold <= Z.of_nat (py_count flattened id))
      then remove_loop flattened threshold x_size y_size rest g
      else match absorb x_size y_size id g with
           | Ok g' => remove_loop flattened threshold x_size y_size rest g'
           | Raise e => (Raise e, g)
           end
  end.

(** [m] is the first element of [order] whose key is maximal. *)
Definition first_max (key : Z -> nat) (order : list Z) (m : Z) : Prop :=
  exists pre post, order = pre ++ m :: post /\
    (forall v, v ∈ pre -> (key v < key m)%nat) /\
    (forall v, v ∈ post -> (key v <= key m)%nat).

(** [m] is a most frequent element of [ids]. *)
Definition is_mode (ids : list Z) (m : Z) : Prop :=
  m ∈ ids /\ forall v, (py_count ids v <= py_count ids m)%nat.

(** [g'] differs from [g] at most at the cell [(row, col)]. *)
Definition only_at (row col : nat) (g g' : grid) : Prop :=
  forall r c, (r, c) ≠ (row, col) -> grid_get g' r c = grid_get g r c.

(** The void neighbours of a cell in the grid [g]. *)
Definition void_neighbours_of (g : grid) (neighbours : list coord) : list coord :=
  filter (fun n : coord => bool_decide (pixel_at g n.2 n.1 = VOID_PIXEL_ID)) neighbours.

(** What one visit of the denoiser does to the visited cell: [p] is the
    pixel, [drawn] the value of the neighbour drawn when a draw is made. *)
Definition cleaned (p : Z) (num_void len : nat) (drawn : Z) : Z :=
  if decide (p = UNORIENTED_PIXEL_ID) then p
  else if decide (p = VOID_PIXEL_ID) then
    if decide (2 * num_void <= len)%nat then
      if decide (drawn = UNORIENTED_PIXEL_ID) then p else drawn
    else p
  else if decide (len < 2 * num_void)%nat then VOID_PIXEL_ID
  else p.

(** The part of the scan that runs before the cell [(row, col)]: the
    rows above it, then the cells to its left. *)
Definition scan_before (x_size y_size row col : nat) : M unit :=
  for_each (range row) (fun r =>
    for_each (range x_size) (fun c => clean_pixel x_size y_size r c)) ;;;
  for_each (range col) (fun c => clean_pixel x_size y_size row c).

(** The number of pixels of a grid that are not void. *)
Definition count_live (g : grid) : nat :=
  length (filter (fun v => v ≠ VOID_PIXEL_ID) (concat g)).

(** The number of pixels of a grid that hold the unoriented sentinel. *)
Definition count_unoriented (g : grid) : nat :=
  py_count (concat g) UNORIENTED_PIXEL_ID.

(** [v'] is [v] unless [v] is void. *)
Definition fills (v v' : Z) : Prop := v ≠ VOID_PIXEL_ID -> v' = v.

Section MergeVocabulary.
Context {T : Type} `{N : PyNum T}.

(** The three lines the merger prints. *)
Definition report (before after : nat) : list string :=
  [rule; summary before after; rule].

(** Whether the orientations of two ids are within the threshold:
    the sum over the three components of the absolute differences is
    strictly below it. *)
Definition within (gm : Z -> option (list T)) (thr : T) (id_i id_j : Z) : bool :=
  match orientation_of gm id_i, orientation_of gm id_j with
  | Ok o1, Ok o2 =>
      match orientation_error o1 o2 with
      | Ok error => num_lt error thr
      | Raise _ => false
      end
  | _, _ => false
  end.

(** For each id in turn, the later ids within the threshold of it; an
    id with none has no entry. *)
Fixpoint merge_map_of (gm : Z -> option (list T)) (thr : T) (ids : list Z)
  : list (Z * list Z) :=
  match ids with
  | [] => []
  | id_i :: rest =>
      match filter (fun id_j => within gm thr id_i id_j) rest with
      | [] => merge_map_of gm thr rest
      | bucket => (id_i, bucket) :: merge_map_of gm thr rest
      end
  end.

(** Lines 211-215 for one representative [id_i] against the ids [rest]. *)
Definition merge_step (gm : Z -> option (list T)) (thr : T) (id_i : Z)
    (mm : list (Z * list Z)) (id_j : Z) : list (Z * list Z) :=
  if within gm thr id_i id_j then
    match record_merge mm id_i id_j with
    | Ok mm' => mm'
    | Raise _ => mm
    end
  else mm.

(** The loops of lines 206-215 over the ids themselves. *)
Fixpoint merge_loop gm thr (mm : list (Z * list Z)) (ids : list Z)
  : list (Z * list Z) :=
  match ids with
  | [] => mm
  | id_i :: rest => merge_loop gm thr (foldl (merge_step gm thr id_i) mm rest) rest
  end.

(** Every id of the list has an orientation of three components. *)
Definition oriented (gm : Z -> option (list T)) (ids : list Z) : Prop :=
  forall id, id ∈ ids -> exists o, gm id = Some o /\ (3 <= length o)%nat.

(** Every cell whose value is one of [members] is set to [key]. *)
Definition fold_into (key : Z) (members : list Z) (g : grid) : grid :=
  (fun row : list Z => (fun v => if py_in v members then key else v) <$> row) <$> g.

(** The merges of the map applied key after key, each to the grid the
    earlier keys left. *)
Definition merged (mm : list (Z * list Z)) (g : grid) : grid :=
  foldl (fun g entry => fold_into entry.1 entry.2 g) g mm.

(** The orientation distance in the words of the specification: the sum
    over the three orientation components of the absolute differences
    [|o1[k] - o2[k]|], taken from 0 in the order of the components.  It
    is defined when both orientations have the three components. *)
Definition spec_distance (o1 o2 : list T) : option T :=
  match o1, o2 with
  | a0 :: a1 :: a2 :: _, b0 :: b1 :: b2 :: _ =>
      Some (num_add (num_add (num_add num_zero (num_abs (num_sub a0 b0)))
                             (num_abs (num_sub a1 b1)))
                    (num_abs (num_sub a2 b2)))
  | _, _ => None
  end.

End MergeVocabulary.
End Vocabulary.

(** ** The vocabulary of the further properties *)

Section FurtherVocabulary.
Context `{C : Collaborators}.

(** Every value of [g] other than void is a value of [g0]. *)
Definition drawn_from (g0 g : grid) : Prop :=
  forall v, v ∈ concat g -> v ≠ VOID_PIXEL_ID -> v ∈ concat g0.

(** [g] has the row lengths [s] and no id that [g0] does not have. *)
Definition tame (s : list nat) (g0 g : grid) : Prop :=
  shape g = s /\ drawn_from g0 g.

(** The neighbours of a cell that hold another value than [p]. *)
Definition foreign_neighbours_of (g : grid) (p : Z) (neighbours : list coord)
  : list coord :=
  filter (fun n : coord => bool_decide (pixel_at g n.2 n.1 ≠ p)) neighbours.

(** The live neighbours of a cell in the grid [g]. *)
Definition live_neighbours_of (g : grid) (neighbours : list coord) : list coord :=
  filter (fun n : coord => bool_decide (pixel_at g n.2 n.1 ≠ VOID_PIXEL_ID)) neighbours.

(** The denoiser has nothing to do at a cell: the cell is unoriented, or
    void with more than half of its neighbours void, or live with at most
    half of its neighbours void. *)
Definition settled (g : grid) (x_size y_size row col : nat) : Prop :=
  let p := pixel_at g row col in
  let neighbours := get_neighbours col row x_size y_size in
  let num_void := length (void_neighbours_of g neighbours) in
  p = UNORIENTED_PIXEL_ID \/
  (p = VOID_PIXEL_ID /\ (length neighbours < 2 * num_void)%nat) \/
  (p ≠ VOID_PIXEL_ID /\ (2 * num_void <= length neighbours)%nat).

(** The smoother has nothing to do at a cell: the cell is unoriented or
    has at most two foreign neighbours. *)
Definition smooth (g : grid) (x_size y_size row col : nat) : Prop :=
  let p := pixel_at g row col in
  p = UNORIENTED_PIXEL_ID \/
  (length (foreign_neighbours_of g p (get_neighbours col row x_size y_size)) <= 2)%nat.

(** The padder has nothing to do: no void cell has a live neighbour. *)
Definition nothing_to_pad (g : grid) (x_size y_size : nat) : Prop :=
  forall r c, (r < y_size)%nat -> (c < x_size)%nat ->
    pixel_at g r c = VOID_PIXEL_ID ->
    live_neighbours_of g (get_neighbours c r x_size y_size) = [].

(** What the padder leaves in the cell [(r, c)] of its output: the
    pixel of the input when it is live, the value of one of its live
    neighbours when it is void and has one, void otherwise. *)
Definition padded_cell (g : grid) (x_size y_size r c : nat) (v : Z) : Prop :=
  if decide (pixel_at g r c ≠ VOID_PIXEL_ID) then v = pixel_at g r c
  else match live_neighbours_of g (get_neighbours c r x_size y_size) with
       | [] => v = VOID_PIXEL_ID
       | live => exists n, n ∈ live /\ v = pixel_at g n.2 n.1
       end.

(** The output grid of the padder during its scan: the visited cells
    are padded, the others are still void. *)
Definition pad_state (g : grid) (x_size y_size : nat)
    (visited : nat -> nat -> Prop) (padded : grid) : Prop :=
  forall r c, (r < y_size)%nat -> (c < x_size)%nat ->
    (visited r c ->
     exists v, grid_get padded r c = Ok v /\ padded_cell g x_size y_size r c v) /\
    (~ visited r c -> grid_get padded r c = Ok VOID_PIXEL_ID).

(** The part of a scan that runs before the cell [(row, col)]: the rows
    above it, then the cells to its left. *)
Definition scan_up_to (visit : nat -> nat -> nat -> nat -> M unit)
    (x_size y_size row col : nat) : M unit :=
  for_each (range row) (fun r =>
    for_each (range x_size) (fun c => visit x_size y_size r c)) ;;;
  for_each (range col) (fun c => visit x_size y_size row c).

(** What one visit of the smoother leaves in the visited cell when it
    draws: [p] is the pixel, [drawn] the value of the foreign neighbour
    drawn. *)
Definition smoothed (p drawn : Z) : Z :=
  if decide (drawn = UNORIENTED_PIXEL_ID) then p else drawn.

End FurtherVocabulary.

(** ** The reference collaborators keep the laws *)

Module ReferenceFacts.
Import Reference.

Lemma neighbours_bounded x y x_size y_size (p : coord) :
  p ∈ neighbours x y x_size y_size ->
  (p.1 < x_size)%nat /\ (p.2 < y_size)%nat.
Proof.
  unfold neighbours. rewrite list_elem_of_omap.
  intros (d & _ & Hd). simpl in Hd.
  destruct (bool_decide _ && bool_decide _) eqn:E; [|discriminate].
  apply andb_prop in E as [E1 E2].
  apply bool_decide_eq_true in E1, E2.
  injection Hd as <-. simpl. lia.
Qed.

Lemma halo_elem x_list y_list x_size y_size (p : coord) :
  p ∈ halo x_list y_list x_size y_size ->
  (p ∉ zip x_list y_list) /\
  exists q, q ∈ zip x_list y_list /\ p ∈ neighbours q.1 q.2 x_size y_size.
Proof.
  unfold halo. rewrite list_elem_of_filter, elem_of_remove_dups.
  intros [Hout Hin]. split; [exact Hout|].
  apply list_elem_of_In, in_concat in Hin as (l & Hl & Hp).
  apply in_map_iff in Hl as (q & <- & Hq).
  exists q. split; by apply list_elem_of_In.
Qed.

#[export] Instance laws : CollaboratorsLaws collaborators.
Proof.
  split.
  - discriminate.
  - apply neighbours_bounded.
  - intros x_list y_list x_size y_size p Hp.
    apply halo_elem in Hp as (_ & q & _ & Hq).
    by apply neighbours_bounded in Hq.
  - intros x_list y_list x_size y_size p Hp.
    by apply halo_elem in Hp as [? _].
  - intros l. simpl. unfold ascending.
    rewrite merge_sort_Permutation. apply NoDup_remove_dups.
  - intros l x. simpl. unfold ascending.
    rewrite merge_sort_Permutation. apply elem_of_remove_dups.
Qed.

End ReferenceFacts.


(** ** Reasoning about the monad *)

Lemma wp_ret {A} (a : A) Q w : Q (Ok a) w -> wp (ret a) Q w.
Proof. done. Qed.

Lemma wp_lift {A} (r : res A) Q w : Q r w -> wp (lift r) Q w.
Proof. done. Qed.

Lemma wp_bind {A B} (m : M A) (k : A -> M B) Q w :
  wp m (and_then k Q) w -> wp (bind m k) Q w.
Proof.
  unfold wp, and_then, bind. destruct (m w) as [[a|e] w']; simpl; auto.
Qed.

Lemma wp_mono {A} (m : M A) (Q Q' : res A -> world -> Prop) w :
  (forall r w', Q r w' -> Q' r w') -> wp m Q w -> wp m Q' w.
Proof. unfold wp. auto. Qed.

Lemma wp_load r c Q w : Q (grid_get (store w) r c) w -> wp (load r c) Q w.
Proof. done. Qed.

Lemma wp_save r c v Q w :
  match grid_set (store w) r c v with
  | Ok g => Q (Ok tt) (set_store g w)
  | Raise e => Q (Raise e) w
  end -> wp (save r c v) Q w.
Proof. unfold wp, save. by destruct (grid_set _ _ _ _). Qed.

Lemma wp_len_grid Q w : Q (Ok (length (store w))) w -> wp len_grid Q w.
Proof. done. Qed.

Lemma wp_len_row0 Q w :
  match getitem (store w) 0 with
  | Ok row => Q (Ok (length row)) w
  | Raise e => Q (Raise e) w
  end -> wp len_row0 Q w.
Proof. unfold wp, len_row0. by destruct (getitem _ _). Qed.

Lemma wp_the_grid Q w : Q (Ok (store w)) w -> wp the_grid Q w.
Proof. done. Qed.

Lemma wp_print s Q w :
  Q (Ok tt) (set_stdout (stdout w ++ [s]) w) -> wp (print s) Q w.
Proof. done. Qed.

(** A draw changes nothing but the generator and lands in the range. *)
Lemma wp_randint a b Q w :
  (b < a -> Q (Raise ValueError) w) ->
  (a <= b -> forall k t, a <= k <= b -> Q (Ok k) (set_rng t w)) ->
  wp (randint a b) Q w.
Proof.
  intros Herr Hok. unfold wp, randint.
  destruct (Z.ltb_spec b a) as [Hlt|Hle]; simpl; [auto|].
  destruct (rng w) as [|v t] eqn:Hrng; simpl.
  - assert (Hw : set_rng [] w = w) by (destruct w; simpl in *; by subst).
    rewrite <- Hw. apply Hok; [done|lia].
  - apply Hok; [done|].
    pose proof (Z.mod_pos_bound (Z.of_nat v) (b - a + 1)). lia.
Qed.

(** A loop keeps an invariant [I] of the world; an exception leaves the
    loop at once. *)
Lemma wp_for_each {A} (l : list A) (body : A -> M unit)
    (I : world -> Prop) (Q : res unit -> world -> Prop) w :
  I w ->
  (forall x w, x ∈ l -> I w ->
     wp (body x) (fun r w' => match r with
                              | Ok _ => I w'
                              | Raise e => Q (Raise e) w'
                              end) w) ->
  (forall w, I w -> Q (Ok tt) w) ->
  wp (for_each l body) Q w.
Proof.
  intros HI Hbody HQ. revert w HI.
  induction l as [|x l IH]; intros w HI; simpl.
  - by apply wp_ret, HQ.
  - apply wp_bind.
    eapply wp_mono; [|apply (Hbody x w); [left|done]].
    intros [[]|e] w'; simpl; [|done].
    intros HI'. apply IH; [|done].
    intros y w'' Hy. apply Hbody. by right.
Qed.

(** The same for a loop with an accumulator; the invariant also sees
    the elements already visited. *)
Lemma wp_for_acc {A B} (l : list A) (body : B -> A -> M B)
    (I : list A -> B -> world -> Prop) (Q : res B -> world -> Prop) acc w :
  I [] acc w ->
  (forall done x todo acc w, l = done ++ x :: todo -> I done acc w ->
     wp (body acc x) (fun r w' => match r with
                                  | Ok acc' => I (done ++ [x]) acc' w'
                                  | Raise e => Q (Raise e) w'
                                  end) w) ->
  (forall acc w, I l acc w -> Q (Ok acc) w) ->
  wp (for_acc l body acc) Q w.
Proof.
  intros HI Hbody HQ.
  assert (Hgen : forall todo done acc w,
    l = done ++ todo -> I done acc w -> wp (for_acc todo body acc) Q w).
  { induction todo as [|x todo IH]; intros done acc' w' Hl HI'; simpl.
    - apply wp_ret, HQ. by rewrite Hl, app_nil_r.
    - apply wp_bind.
      eapply wp_mono; [|by apply (Hbody done x todo)].
      intros [acc''|e] w''; simpl; [|done].
      intros HI''. apply (IH (done ++ [x])); [|done].
      by rewrite <- app_assoc. }
  by apply (Hgen l []).
Qed.

Lemma readonly_ret {A} (a : A) : readonly (ret a).
Proof. done. Qed.

Lemma readonly_lift {A} (r : res A) : readonly (lift r).
Proof. done. Qed.

Lemma readonly_load r c : readonly (load r c).
Proof. done. Qed.

Lemma readonly_bind {A B} (m : M A) (k : A -> M B) :
  readonly m -> (forall a, readonly (k a)) -> readonly (bind m k).
Proof.
  intros Hm Hk w. unfold bind. specialize (Hm w).
  destruct (m w) as [[a|e] w']; simpl in *; subst; [apply Hk|done].
Qed.

Lemma readonly_filterM {A} (p : A -> M bool) l :
  (forall x, readonly (p x)) -> readonly (filterM p l).
Proof.
  intros Hp. induction l as [|x l IH]; simpl; [done|].
  apply readonly_bind; [done|]. intros b.
  apply readonly_bind; [done|]. intros r. done.
Qed.

Lemma readonly_mapM {A B} (f : A -> M B) l :
  (forall x, readonly (f x)) -> readonly (mapM f l).
Proof.
  intros Hf. induction l as [|x l IH]; simpl; [done|].
  apply readonly_bind; [done|]. intros b.
  apply readonly_bind; [done|]. intros r. done.
Qed.

Lemma readonly_for_acc {A B} (l : list A) (body : B -> A -> M B) acc :
  (forall acc x, readonly (body acc x)) -> readonly (for_acc l body acc).
Proof.
  intros Hb. revert acc. induction l as [|x l IH]; intros acc; simpl; [done|].
  apply readonly_bind; [done|]. intros acc'. apply IH.
Qed.

Lemma wp_readonly {A} (m : M A) (Q : res A -> world -> Prop) w :
  readonly m -> (forall r, (m w).1 = r -> Q r w) -> wp m Q w.
Proof. intros Hm HQ. unfold wp. rewrite Hm. by apply HQ. Qed.

Create HintDb readonly.
#[export] Hint Resolve readonly_ret readonly_lift readonly_load
  readonly_bind readonly_filterM readonly_mapM readonly_for_acc : readonly.

(** ** Grids *)

Lemma getitem_Ok {A} (l : list A) i x : getitem l i = Ok x <-> l !! i = Some x.
Proof. unfold getitem. destruct (l !! i); naive_solver. Qed.

Lemma grid_get_Ok (g : grid) r c v :
  grid_get g r c = Ok v <-> exists row, g !! r = Some row /\ row !! c = Some v.
Proof.
  unfold grid_get, getitem. destruct (g !! r) as [row|]; [|naive_solver].
  destruct (row !! c) eqn:E; naive_solver.
Qed.

Lemma grid_set_Ok (g g' : grid) r c v :
  grid_set g r c v = Ok g' ->
  exists row, g !! r = Some row /\ (c < length row)%nat /\
              g' = <[r := <[c := v]> row]> g.
Proof.
  unfold grid_set, getitem. destruct (g !! r) as [row|]; [|done].
  case_decide; [|done]. intros [= <-]. eauto.
Qed.

(** Reading a grid after one write. *)
Lemma grid_get_set (g g' : grid) r c v r' c' :
  grid_set g r c v = Ok g' ->
  grid_get g' r' c' = if decide (r' = r /\ c' = c) then Ok v else grid_get g r' c'.
Proof.
  intros (row & Hrow & Hc & ->)%grid_set_Ok.
  assert (Hr : (r < length g)%nat) by by eapply lookup_lt_Some.
  unfold grid_get, getitem.
  destruct (decide (r' = r)) as [->|Hne].
  - rewrite list_lookup_insert_eq, Hrow by done.
    destruct (decide (c' = c)) as [->|Hne'].
    + rewrite list_lookup_insert_eq by done. by rewrite decide_True.
    + rewrite list_lookup_insert_ne by done. rewrite decide_False; naive_solver.
  - rewrite list_lookup_insert_ne by done. rewrite decide_False; naive_solver.
Qed.

Lemma grid_set_shape (g g' : grid) r c v :
  grid_set g r c v = Ok g' -> shape g' = shape g.
Proof.
  intros (row & Hrow & Hc & ->)%grid_set_Ok. unfold shape.
  rewrite list_fmap_insert, length_insert.
  apply list_insert_id. by rewrite list_lookup_fmap, Hrow.
Qed.

(** Symbolic execution of a pass, one statement at a time. *)
Ltac wp_pure :=
  lazymatch goal with
  | |- wp (bind _ _) _ _ => apply wp_bind
  | |- wp (ret _) _ _ => apply wp_ret
  | |- wp (lift _) _ _ => apply wp_lift
  | |- wp (load _ _) _ _ => apply wp_load
  | |- wp len_grid _ _ => apply wp_len_grid
  | |- wp the_grid _ _ => apply wp_the_grid
  | |- wp (print _) _ _ => apply wp_print
  end.

Ltac wp_case :=
  cbn [store rng stdout set_store set_rng set_stdout];
  lazymatch goal with
  | |- and_then _ _ (Ok _) _ => cbn beta iota delta [and_then]
  | |- and_then _ _ (Raise _) _ => cbn beta iota delta [and_then]
  | H : ?r = _ |- and_then _ _ ?r _ => rewrite H
  | |- and_then _ _ ?r _ =>
      first [ is_var r; destruct r
            | let E := fresh "E" in destruct r eqn:E ]
  | |- wp (if decide ?P then _ else _) _ _ =>
      let Hd := fresh "Hd" in destruct (decide P) as [Hd|Hd]
  | |- wp (if ?b then _ else _) _ _ =>
      first [ is_var b; destruct b
            | let E := fresh "E" in destruct b eqn:E ]
  | |- wp (match ?x with (_, _) => _ end) _ _ => destruct x
  end.

Ltac wp_auto := repeat first [wp_pure | wp_case].


(** ** Unoriented pixels in the pixel-level passes, and the padder *)

Section Keeps.
Context `{C : Collaborators}.

Lemma keeps_unoriented_refl g : keeps_unoriented g g.
Proof. by intros r c. Qed.

Lemma keeps_unoriented_trans g1 g2 g3 :
  keeps_unoriented g1 g2 -> keeps_unoriented g2 g3 -> keeps_unoriented g1 g3.
Proof. unfold keeps_unoriented. auto. Qed.

Lemma keeps_unoriented_set g g' r c p v :
  grid_get g r c = Ok p -> p <> UNORIENTED_PIXEL_ID ->
  grid_set g r c v = Ok g' -> keeps_unoriented g g'.
Proof.
  intros Hp Hne Hset r' c' Hu. rewrite (grid_get_set _ _ _ _ _ _ _ Hset).
  case_decide as Hrc; [|done]. destruct Hrc as [-> ->]. congruence.
Qed.

Lemma wp_save_keeps g0 row col v p Q w :
  keeps_unoriented g0 (store w) ->
  grid_get (store w) row col = Ok p -> p <> UNORIENTED_PIXEL_ID ->
  (forall w', keeps_unoriented g0 (store w') ->
              (grid_get (store w') row col = Ok v) -> Q (Ok tt) w') ->
  (forall e, Q (Raise e) w) ->
  wp (save row col v) Q w.
Proof.
  intros Hk Hp Hne Hok Herr. apply wp_save.
  destruct (grid_set (store w) row col v) as [g|e] eqn:Hset; [|done].
  apply Hok; simpl.
  - eapply keeps_unoriented_trans; [done|]. by eapply keeps_unoriented_set.
  - rewrite (grid_get_set _ _ _ _ _ _ _ Hset). by rewrite decide_True.
Qed.

Lemma clean_pixel_keeps g0 x_size y_size row col w :
  keeps_unoriented g0 (store w) ->
  wp (clean_pixel x_size y_size row col)
     (fun _ w' => keeps_unoriented g0 (store w')) w.
Proof.
  intros Hk. unfold clean_pixel.
  wp_auto; try assumption.
  apply wp_readonly; [eauto 10 with readonly|]. intros r _.
  wp_auto; try assumption.
  - apply wp_randint; [done|]. intros _ k t _.
    wp_auto; try assumption.
    eapply wp_save_keeps; [eassumption..| |done].
    intros w' Hk' Hv. wp_auto; try assumption.
    eapply wp_save_keeps; [eassumption..| |done]. done.
  - eapply wp_save_keeps; [eassumption..| |done]. done.
Qed.

Lemma smoothen_pixel_keeps g0 x_size y_size row col w :
  keeps_unoriented g0 (store w) ->
  wp (smoothen_pixel x_size y_size row col)
     (fun _ w' => keeps_unoriented g0 (store w')) w.
Proof.
  intros Hk. unfold smoothen_pixel.
  wp_auto; try assumption.
  apply wp_readonly; [eauto 10 with readonly|]. intros r _.
  wp_auto; try assumption.
  apply wp_randint; [done|]. intros _ k t _.
  wp_auto; try assumption.
  eapply wp_save_keeps; [eassumption..| |done]. done.
Qed.

Lemma clean_pixel_grid_keeps w :
  wp clean_pixel_grid
     (fun r w' => keeps_unoriented (store w) (store w') /\
                  forall g, r = Ok g -> g = store w') w.
Proof.
  unfold clean_pixel_grid.
  apply wp_bind, wp_len_row0.
  destruct (getitem (store w) 0) as [row0|e]; cbn [and_then];
    [|split; [apply keeps_unoriented_refl|done]].
  wp_auto.
  apply wp_for_each with (I := fun w' => keeps_unoriented (store w) (store w')).
  - apply keeps_unoriented_refl.
  - intros row w1 _ Hk.
    apply wp_for_each with (I := fun w' => keeps_unoriented (store w) (store w'));
      [done| |done].
    intros col w2 _ Hk2.
    eapply wp_mono; [|by apply clean_pixel_keeps].
    intros [[]|e] w3; [done|]. by split.
  - intros w1 Hk. wp_auto. split; [done|]. by intros g [= <-].
Qed.

Lemma smoothen_edges_keeps w :
  wp smoothen_edges
     (fun r w' => keeps_unoriented (store w) (store w') /\
                  forall g, r = Ok g -> g = store w') w.
Proof.
  unfold smoothen_edges.
  apply wp_bind, wp_len_row0.
  destruct (getitem (store w) 0) as [row0|e]; cbn [and_then];
    [|split; [apply keeps_unoriented_refl|done]].
  wp_auto.
  apply wp_for_each with (I := fun w' => keeps_unoriented (store w) (store w')).
  - apply keeps_unoriented_refl.
  - intros row w1 _ Hk.
    apply wp_for_each with (I := fun w' => keeps_unoriented (store w) (store w'));
      [done| |done].
    intros col w2 _ Hk2.
    eapply wp_mono; [|by apply smoothen_pixel_keeps].
    intros [[]|e] w3; [done|]. by split.
  - intros w1 Hk. wp_auto. split; [done|]. by intros g [= <-].
Qed.

(** *** Rectangular grids *)

Lemma rectangular_lookup (g : grid) r row :
  rectangular g -> g !! r = Some row ->
  exists row0, g !! 0%nat = Some row0 /\ length row = length row0.
Proof.
  intros Hrect Hr. unfold rectangular in Hrect.
  rewrite Forall_lookup in Hrect. specialize (Hrect _ _ Hr).
  destruct g as [|row0 g]; [done|]. simpl in *. eauto.
Qed.

Lemma rectangular_shape (g : grid) row0 :
  rectangular g -> g !! 0%nat = Some row0 ->
  shape g = replicate (length g) (length row0).
Proof.
  intros Hrect H0. unfold shape.
  apply list_eq_same_length with (length g);
    [by rewrite length_replicate|by rewrite length_fmap|].
  intros i x y Hi. rewrite list_lookup_fmap.
  destruct (g !! i) as [row|] eqn:Hrow; [|done]. simpl. intros [= <-].
  rewrite lookup_replicate. intros [-> _].
  destruct (rectangular_lookup _ _ _ Hrect Hrow) as (row0' & H0' & ->). congruence.
Qed.

(** A cell of a grid of known shape can be read exactly when it is in
    that shape. *)
Lemma grid_get_shape (g : grid) r c :
  (exists v, grid_get g r c = Ok v) <->
  (exists n, shape g !! r = Some n /\ (c < n)%nat).
Proof.
  unfold shape. rewrite list_lookup_fmap. split.
  - intros (v & (row & Hrow & Hc)%grid_get_Ok). rewrite Hrow. simpl.
    eexists; split; [done|]. by eapply lookup_lt_Some.
  - intros (n & Hn & Hc). destruct (g !! r) as [row|] eqn:Hrow; [|done].
    simpl in Hn. injection Hn as <-.
    apply lookup_lt_is_Some in Hc as [v Hv]. exists v. apply grid_get_Ok. eauto.
Qed.

Lemma grid_set_shape_Ok (g : grid) r c v :
  (exists n, shape g !! r = Some n /\ (c < n)%nat) ->
  exists g', grid_set g r c v = Ok g'.
Proof.
  unfold shape, grid_set, getitem. rewrite list_lookup_fmap.
  intros (n & Hn & Hc). destruct (g !! r) as [row|]; [|done].
  simpl in Hn. injection Hn as <-. rewrite decide_True by done. eauto.
Qed.

Lemma shape_void_grid x_size y_size :
  shape (get_void_pixel_grid x_size y_size) = replicate y_size x_size.
Proof.
  unfold shape, get_void_pixel_grid.
  by rewrite fmap_replicate, length_replicate.
Qed.

(** *** Comprehensions over a world they only read *)

Lemma filterM_pure {A} (p : A -> M bool) (f : A -> bool) l w :
  (forall x, x ∈ l -> p x w = (Ok (f x), w)) ->
  filterM p l w = (Ok (filter f l), w).
Proof.
  induction l as [|x l IH]; intros Hp; simpl; [done|].
  unfold bind at 1. rewrite Hp by left.
  unfold bind at 1. rewrite IH by (intros y Hy; apply Hp; by right).
  unfold ret. rewrite filter_cons. by destruct (f x).
Qed.

Lemma mapM_pure {A B} (p : A -> M B) (f : A -> B) l w :
  (forall x, x ∈ l -> p x w = (Ok (f x), w)) ->
  mapM p l w = (Ok (f <$> l), w).
Proof.
  induction l as [|x l IH]; intros Hp; simpl; [done|].
  unfold bind at 1. rewrite Hp by left.
  unfold bind at 1. by rewrite IH by (intros y Hy; apply Hp; by right).
Qed.

Lemma wp_filterM_pure {A} (p : A -> M bool) (f : A -> bool) l Q w :
  (forall x, x ∈ l -> p x w = (Ok (f x), w)) ->
  Q (Ok (filter f l)) w -> wp (filterM p l) Q w.
Proof. intros Hp HQ. unfold wp. by rewrite (filterM_pure p f). Qed.

Lemma wp_mapM_pure {A B} (p : A -> M B) (f : A -> B) l Q w :
  (forall x, x ∈ l -> p x w = (Ok (f x), w)) ->
  Q (Ok (f <$> l)) w -> wp (mapM p l) Q w.
Proof. intros Hp HQ. unfold wp. by rewrite (mapM_pure p f). Qed.

Lemma in_shape_get x_size y_size g r c :
  in_shape x_size y_size g -> (r < y_size)%nat -> (c < x_size)%nat ->
  grid_get g r c = Ok (pixel_at g r c).
Proof.
  intros Hs Hr Hc. unfold pixel_at.
  destruct (proj2 (grid_get_shape g r c)) as [v ->]; [|done].
  exists x_size. split; [|done]. rewrite Hs. by apply lookup_replicate.
Qed.

Lemma in_shape_set x_size y_size g r c v :
  in_shape x_size y_size g -> (r < y_size)%nat -> (c < x_size)%nat ->
  exists g', grid_set g r c v = Ok g' /\ in_shape x_size y_size g'.
Proof.
  intros Hs Hr Hc.
  destruct (grid_set_shape_Ok g r c v) as [g' Hg'].
  { exists x_size. split; [|done]. rewrite Hs. by apply lookup_replicate. }
  exists g'. split; [done|]. unfold in_shape. by rewrite (grid_set_shape _ _ _ _ _ Hg').
Qed.

Lemma in_shape_bounds x_size y_size g r c v :
  in_shape x_size y_size g -> grid_get g r c = Ok v ->
  (r < y_size)%nat /\ (c < x_size)%nat.
Proof.
  intros Hs Hv. destruct (proj1 (grid_get_shape g r c)) as (n & Hn & Hc); [eauto|].
  rewrite Hs in Hn. apply lookup_replicate in Hn as [-> ?]. done.
Qed.

(** A rectangular grid with a first row has the shape the passes
    compute from it. *)
Lemma rectangular_in_shape (g : grid) row0 :
  rectangular g -> g !! 0%nat = Some row0 ->
  in_shape (length row0) (length g) g.
Proof. apply rectangular_shape. Qed.

(** An index drawn in [0..len - 1] selects an element. *)
Lemma getitem_int_drawn {A} (l : list A) k :
  0 <= k <= Z.of_nat (length l) - 1 ->
  exists x, getitem_int l k = Ok x /\ x ∈ l.
Proof.
  intros Hk. unfold getitem_int.
  destruct (Z.ltb_spec k 0) as [?|_]; [lia|].
  destruct (lookup_lt_is_Some_2 l (Z.to_nat k)) as [x Hx]; [lia|].
  exists x. split; [by apply getitem_Ok|]. by eapply list_elem_of_lookup_2.
Qed.

Context {L : CollaboratorsLaws C}.

Lemma load_neighbour x_size y_size (g : grid) w x y (n : coord) :
  store w = g -> in_shape x_size y_size g ->
  n ∈ get_neighbours x y x_size y_size ->
  load n.2 n.1 w = (Ok (pixel_at g n.2 n.1), w).
Proof.
  intros <- Hs [? ?]%get_neighbours_bounded. unfold load.
  by erewrite in_shape_get.
Qed.

Lemma pad_pixel_spec g x_size y_size row col padded visited w :
  store w = g -> in_shape x_size y_size g -> in_shape x_size y_size padded ->
  (row < y_size)%nat -> (col < x_size)%nat ->
  live_copied g padded visited ->
  wp (pad_pixel x_size y_size row padded col)
     (fun r w' =>
        store w' = g /\ stdout w' = stdout w /\
        exists padded', r = Ok padded' /\ in_shape x_size y_size padded' /\
          live_copied g padded' (fun r c => visited r c \/ (r = row /\ c = col))) w.
Proof.
  intros Hg Hs Hp Hrow Hcol Hcopied. unfold pad_pixel.
  pose proof (in_shape_get _ _ _ _ _ Hs Hrow Hcol) as Hload. rewrite <- Hg in Hload.
  wp_auto.
  - destruct (in_shape_set _ _ _ row col (pixel_at g row col) Hp Hrow Hcol)
      as (padded' & Hset & Hs').
    rewrite Hg in *. rewrite Hset.
    do 2 (split; [done|]). exists padded'. do 2 (split; [done|]).
    intros r c v Hvis Hv Hne. rewrite (grid_get_set _ _ _ _ _ _ _ Hset).
    case_decide as Hrc.
    + destruct Hrc as [-> ->]. congruence.
    + destruct Hvis as [?|?]; [by eapply Hcopied|done].
  - eapply (wp_filterM_pure _
      (fun n => bool_decide (pixel_at g n.2 n.1 ≠ VOID_PIXEL_ID))).
    { intros n Hn. unfold bind.
      by rewrite (load_neighbour x_size y_size g w col row n). }
    set (live := filter _ _).
    wp_auto.
    + apply wp_randint; [lia|]. intros _ k t Hk.
      destruct (getitem_int_drawn live k Hk) as (copy & Hcopy & Hin).
      assert (Hn : copy ∈ get_neighbours col row x_size y_size).
      { unfold live in Hin. by apply list_elem_of_filter in Hin as [_ ?]. }
      apply get_neighbours_bounded in Hn as [? ?].
      assert (Hcp : grid_get (store w) copy.2 copy.1 = Ok (pixel_at g copy.2 copy.1)).
      { rewrite Hg. by apply (in_shape_get x_size y_size). }
      wp_auto.
      destruct (in_shape_set _ _ _ row col (pixel_at g copy.2 copy.1) Hp Hrow Hcol)
        as (padded' & Hset & Hs').
      rewrite Hset.
      do 2 (split; [done|]). exists padded'. do 2 (split; [done|]).
      intros r c v Hvis Hv Hne. rewrite (grid_get_set _ _ _ _ _ _ _ Hset).
      case_decide as Hrc.
      * destruct Hrc as [-> ->]. rewrite <- Hg, Hload in Hv.
        injection Hv as <-. by destruct Hd.
      * destruct Hvis as [?|?]; [by eapply Hcopied|done].
    + do 2 (split; [done|]). exists padded. do 2 (split; [done|]).
      intros r c v [Hvis|[-> ->]] Hv Hne; [by eapply Hcopied|].
      rewrite <- Hg, Hload in Hv. injection Hv as <-. by destruct Hd.
Qed.

Lemma live_copied_weaken g padded (vis1 vis2 : nat -> nat -> Prop) :
  (forall r c, vis2 r c -> vis1 r c) ->
  live_copied g padded vis1 -> live_copied g padded vis2.
Proof. unfold live_copied. eauto. Qed.

Lemma elem_of_range i n : i ∈ range n <-> (i < n)%nat.
Proof. unfold range. rewrite elem_of_seq. lia. Qed.

Lemma range_split_bound n (done todo : list nat) x :
  range n = done ++ x :: todo -> (x < n)%nat.
Proof.
  intros Hr. apply elem_of_range. rewrite Hr.
  apply elem_of_app. right. left.
Qed.

(** The padder returns, leaves the caller's grid alone, and its output
    has the input's shape and every live pixel of the input. *)
Lemma pad_edges_spec w row0 :
  rectangular (store w) -> store w !! 0%nat = Some row0 ->
  wp pad_edges
     (fun r w' =>
        store w' = store w /\ stdout w' = stdout w /\
        exists padded, r = Ok padded /\ shape padded = shape (store w) /\
          live_copied (store w) padded (fun _ _ => True)) w.
Proof.
  intros Hrect H0. unfold pad_edges.
  pose proof (rectangular_in_shape _ _ Hrect H0) as Hs.
  set (g := store w) in *. set (x_size := length row0) in *.
  set (y_size := length g) in *.
  apply wp_bind, wp_len_row0. fold g. rewrite (proj2 (getitem_Ok g 0%nat row0) H0).
  fold x_size. cbn [and_then]. apply wp_bind, wp_len_grid. cbn [and_then].
  fold g y_size.
  apply wp_for_acc with (I := fun done padded w' =>
    store w' = g /\ stdout w' = stdout w /\ in_shape x_size y_size padded /\
    live_copied g padded (fun r c => r ∈ done /\ (c < x_size)%nat)).
  - do 2 (split; [done|]). split; [apply shape_void_grid|].
    intros r c v [Hr _]. by apply elem_of_nil in Hr.
  - intros rows row todo padded w1 Hrows (Hg1 & Ho1 & Hs1 & Hc1).
    pose proof (range_split_bound _ _ _ _ Hrows) as Hrow.
    apply wp_for_acc with (I := fun done padded w' =>
      store w' = g /\ stdout w' = stdout w /\ in_shape x_size y_size padded /\
      live_copied g padded (fun r c =>
        (r ∈ rows /\ (c < x_size)%nat) \/ (r = row /\ c ∈ done))).
    + do 3 (split; [done|]). eapply live_copied_weaken; [|done].
      intros r c [?|[_ Hc]]; [done|]. by apply elem_of_nil in Hc.
    + intros cols col todo' padded' w2 Hcols (Hg2 & Ho2 & Hs2 & Hc2).
      pose proof (range_split_bound _ _ _ _ Hcols) as Hcol.
      eapply wp_mono;
        [|by eapply (pad_pixel_spec g x_size y_size row col padded')].
      intros r w3 (Hg3 & Ho3 & padded3 & -> & Hs3 & Hc3).
      split; [done|]. split; [congruence|]. split; [done|].
      eapply live_copied_weaken; [|done]. simpl.
      intros r c [?|[-> Hc]]; [by do 2 left|].
      apply elem_of_app in Hc as [?|Hc]; [by left; right|].
      apply list_elem_of_singleton in Hc as ->. by right.
    + intros padded' w2 (Hg2 & Ho2 & Hs2 & Hc2). do 3 (split; [done|]).
      eapply live_copied_weaken; [|done]. simpl.
      intros r c [Hr Hc]. apply elem_of_app in Hr as [?|Hr]; [by left|].
      apply list_elem_of_singleton in Hr as ->.
      right. split; [done|]. by apply elem_of_range.
  - intros padded w1 (Hg1 & Ho1 & Hs1 & Hc1). do 2 (split; [done|]).
    exists padded. split; [done|]. split; [by rewrite Hs1, Hs|].
    intros r c v _ Hv Hne. eapply Hc1; [|done..].
    apply (in_shape_bounds _ _ _ _ _ _ Hs) in Hv as [? ?].
    split; [by apply elem_of_range|done].
Qed.

End Keeps.


(** *** Loops that only read the world *)

Lemma for_acc_pure {A B} (body : B -> A -> M B) (f : B -> A -> B) l acc w :
  (forall acc x, x ∈ l -> body acc x w = (Ok (f acc x), w)) ->
  for_acc l body acc w = (Ok (foldl f acc l), w).
Proof.
  revert acc. induction l as [|x l IH]; intros acc Hb; simpl; [done|].
  unfold bind. rewrite Hb by left. apply IH. intros acc' y Hy. apply Hb. by right.
Qed.

Lemma wp_for_each_prefix {A} (l : list A) (body : A -> M unit)
    (I : list A -> world -> Prop) (Q : res unit -> world -> Prop) w :
  I [] w ->
  (forall done x todo w, l = done ++ x :: todo -> I done w ->
     wp (body x) (fun r w' => match r with
                              | Ok _ => I (done ++ [x]) w'
                              | Raise e => Q (Raise e) w'
                              end) w) ->
  (forall w, I l w -> Q (Ok tt) w) ->
  wp (for_each l body) Q w.
Proof.
  intros HI Hbody HQ.
  assert (Hgen : forall todo done w,
    l = done ++ todo -> I done w -> wp (for_each todo body) Q w).
  { induction todo as [|x todo IH]; intros done w' Hl HI'; simpl.
    - apply wp_ret, HQ. by rewrite Hl, app_nil_r.
    - apply wp_bind.
      eapply wp_mono; [|by apply (Hbody done x todo)].
      intros [[]|e] w''; simpl; [|done].
      intros HI''. apply (IH (done ++ [x])); [|done].
      by rewrite <- app_assoc. }
  by apply (Hgen l []).
Qed.

(** Two grids of one shape that agree cell by cell are equal. *)
Lemma grid_ext (g g' : grid) :
  shape g = shape g' ->
  (forall r c v, grid_get g r c = Ok v -> grid_get g' r c = Ok v) ->
  g = g'.
Proof.
  intros Hs Hget. apply list_eq_same_length with (length g); [|done|].
  { apply (f_equal length) in Hs. unfold shape in Hs.
    by rewrite !length_fmap in Hs. }
  intros r row row' Hr Hrow Hrow'.
  assert (Hlen : length row = length row').
  { apply (f_equal (fun s => s !! r)) in Hs. unfold shape in Hs.
    rewrite !list_lookup_fmap, Hrow, Hrow' in Hs. by injection Hs. }
  apply list_eq_same_length with (length row); [done..|].
  intros c v v' Hc Hv Hv'.
  specialize (Hget r c v (proj2 (grid_get_Ok _ _ _ _) (ex_intro _ row (conj Hrow Hv)))).
  apply grid_get_Ok in Hget as (row'' & Hrow'' & Hv''). congruence.
Qed.

(** ** The small-grain remover *)

Section Remove.
Context `{C : Collaborators}.

Lemma elem_of_row_major x_size y_size (p : coord) :
  p ∈ row_major x_size y_size <-> (p.1 < x_size)%nat /\ (p.2 < y_size)%nat.
Proof.
  unfold row_major. rewrite list_elem_of_In, in_concat. split.
  - intros (l & Hl & Hp). apply list_elem_of_In, list_elem_of_fmap in Hl as (row & -> & Hrow).
    apply list_elem_of_In, list_elem_of_fmap in Hp as (col & -> & Hcol).
    apply elem_of_range in Hrow, Hcol. done.
  - intros [H1 H2]. exists ((fun col => (col, p.2)) <$> range x_size). split.
    + apply list_elem_of_In, list_elem_of_fmap. exists p.2. split; [done|]. by apply elem_of_range.
    + apply list_elem_of_In, list_elem_of_fmap. exists p.1. split; [by destruct p|]. by apply elem_of_range.
Qed.

Lemma shape_relabel id m g : shape (relabel id m g) = shape g.
Proof.
  unfold shape, relabel. rewrite <- list_fmap_compose.
  apply list_fmap_ext. intros _ row _. simpl. by rewrite length_fmap.
Qed.

Lemma grid_get_relabel id m g r c v :
  grid_get g r c = Ok v ->
  grid_get (relabel id m g) r c = Ok (if decide (v = id) then m else v).
Proof.
  rewrite !grid_get_Ok. intros (row & Hrow & Hv).
  eexists. unfold relabel. rewrite list_lookup_fmap, Hrow. split; [done|].
  by rewrite list_lookup_fmap, Hv.
Qed.

Lemma elem_of_grid (g : grid) v :
  v ∈ concat g <-> exists r c, grid_get g r c = Ok v.
Proof.
  rewrite list_elem_of_In, in_concat. split.
  - intros (row & Hrow & Hv).
    apply list_elem_of_In, list_elem_of_lookup in Hrow as [r Hr].
    apply list_elem_of_In, list_elem_of_lookup in Hv as [c Hc].
    exists r, c. apply grid_get_Ok. eauto.
  - intros (r & c & (row & Hrow & Hv)%grid_get_Ok).
    exists row. split; apply list_elem_of_In; by eapply list_elem_of_lookup_2.
Qed.

Lemma gather_row_fold g id row cols acc :
  let cells := filter (fun p : coord => pixel_at g p.2 p.1 = id)
                      ((fun col => (col, row)) <$> cols) in
  foldl (gather_step g id row) acc cols = (acc.1 ++ cells.*1, acc.2 ++ cells.*2).
Proof.
  revert acc. induction cols as [|col cols IH]; intros acc; simpl.
  - rewrite !app_nil_r. by destruct acc.
  - rewrite IH. rewrite filter_cons. unfold gather_step. simpl.
    destruct (decide (pixel_at g row col ≠ id)) as [Hne|Heq].
    + by rewrite decide_False by done.
    + rewrite decide_True by (by apply dec_stable). simpl.
      by rewrite <- !app_assoc.
Qed.

Lemma gather_rows_fold g id cols rows acc :
  let cells := filter (fun p : coord => pixel_at g p.2 p.1 = id)
                 (concat ((fun row => (fun col => (col, row)) <$> cols) <$> rows)) in
  foldl (fun acc row => foldl (gather_step g id row) acc cols) acc rows
  = (acc.1 ++ cells.*1, acc.2 ++ cells.*2).
Proof.
  revert acc. induction rows as [|row rows IH]; intros acc; simpl.
  - rewrite !app_nil_r. by destruct acc.
  - rewrite IH, gather_row_fold. simpl.
    rewrite filter_app, !fmap_app. by rewrite <- !app_assoc.
Qed.

Lemma gather_pixels_pure x_size y_size id w :
  in_shape x_size y_size (store w) ->
  gather_pixels x_size y_size id w
  = (Ok ((grain_pixels (store w) id x_size y_size).*1,
         (grain_pixels (store w) id x_size y_size).*2), w).
Proof.
  intros Hs. unfold gather_pixels.
  rewrite (for_acc_pure _
    (fun acc row => foldl (gather_step (store w) id row) acc (range x_size))).
  - by rewrite gather_rows_fold.
  - intros acc row Hrow%elem_of_range.
    apply for_acc_pure. intros acc' col Hcol%elem_of_range.
    unfold bind, load. rewrite (in_shape_get x_size y_size) by done.
    unfold gather_step. by destruct (decide _).
Qed.

Lemma grain_pixels_elem g id x_size y_size (p : coord) :
  p ∈ grain_pixels g id x_size y_size <->
  pixel_at g p.2 p.1 = id /\ (p.1 < x_size)%nat /\ (p.2 < y_size)%nat.
Proof.
  unfold grain_pixels. by rewrite list_elem_of_filter, elem_of_row_major.
Qed.

(** Lines 182-183 write [v] at each gathered coordinate and nowhere else. *)
Lemma replace_pixels_spec x_size y_size (cells : list coord) v w :
  in_shape x_size y_size (store w) ->
  (forall p, p ∈ cells -> (p.1 < x_size)%nat /\ (p.2 < y_size)%nat) ->
  wp (replace_pixels cells.*1 cells.*2 v)
     (fun r w' =>
        r = Ok tt /\ rng w' = rng w /\ stdout w' = stdout w /\
        in_shape x_size y_size (store w') /\
        (forall p, p ∈ cells -> grid_get (store w') p.2 p.1 = Ok v) /\
        (forall r c, (c, r) ∉ cells ->
                     grid_get (store w') r c = grid_get (store w) r c)) w.
Proof.
  intros Hs Hin. unfold replace_pixels.
  apply wp_for_each_prefix with (I := fun done w' =>
    rng w' = rng w /\ stdout w' = stdout w /\
    in_shape x_size y_size (store w') /\
    (forall i p, i ∈ done -> cells !! i = Some p ->
                 grid_get (store w') p.2 p.1 = Ok v) /\
    (forall r c, (c, r) ∉ cells ->
                 grid_get (store w') r c = grid_get (store w) r c)).
  - do 3 (split; [done|]). split; [|done]. intros i p Hi. by apply elem_of_nil in Hi.
  - intros done i todo w1 Hrange (Hr1 & Ho1 & Hs1 & Ha & Hb).
    apply range_split_bound in Hrange. rewrite length_fmap in Hrange.
    apply lookup_lt_is_Some in Hrange as [p Hp].
    assert (Hpin : p ∈ cells) by by eapply list_elem_of_lookup_2.
    destruct (Hin p Hpin) as [Hx Hy].
    unfold getitem. rewrite !list_lookup_fmap, Hp. simpl.
    wp_auto. apply wp_save.
    destruct (in_shape_set _ _ _ p.2 p.1 v Hs1 Hy Hx) as (g' & Hset & Hs').
    rewrite Hset. simpl. do 3 (split; [done|]). split.
    + intros j q Hj Hq. rewrite (grid_get_set _ _ _ _ _ _ _ Hset).
      case_decide; [done|].
      apply elem_of_app in Hj as [Hj|Hj]; [by eapply Ha|].
      apply list_elem_of_singleton in Hj as ->. rewrite Hp in Hq.
      injection Hq as <-. naive_solver.
    + intros r c Hrc. rewrite (grid_get_set _ _ _ _ _ _ _ Hset).
      case_decide as Heq; [|by apply Hb].
      destruct Heq as [-> ->]. by destruct p.
  - intros w1 (Hr1 & Ho1 & Hs1 & Ha & Hb). do 4 (split; [done|]). split; [|done].
    intros p [i Hi]%list_elem_of_lookup. eapply Ha; [|done].
    apply elem_of_range. rewrite length_fmap. by eapply lookup_lt_Some.
Qed.

Context {L : CollaboratorsLaws C}.

Lemma zip_fst_snd {A B} (l : list (A * B)) : zip l.*1 l.*2 = l.
Proof. induction l as [|[a b] l IH]; simpl; by f_equal. Qed.

Lemma remove_grain_spec flattened threshold x_size y_size id w :
  in_shape x_size y_size (store w) ->
  wp (remove_grain flattened threshold x_size y_size id)
     (fun r w' =>
        rng w' = rng w /\ stdout w' = stdout w /\
        (r, store w') = remove_loop flattened threshold x_size y_size [id] (store w)) w.
Proof.
  intros Hs. unfold remove_grain. simpl.
  destruct (decide (threshold <= _)) as [Hskip|Hskip]; [by apply wp_ret|].
  apply wp_bind. unfold wp at 1. rewrite gather_pixels_pure by done.
  cbn [fst snd and_then].
  set (cells := grain_pixels (store w) id x_size y_size).
  apply wp_bind.
  eapply (wp_mapM_pure _ (fun n : coord => pixel_at (store w) n.2 n.1)).
  { intros n [? ?]%get_all_neighbours_bounded. unfold load.
    by rewrite (in_shape_get x_size y_size). }
  cbn [and_then]. fold cells. unfold absorb, halo_ids. fold cells.
  destruct (most_neighbouring_of _) as [m|e]; wp_auto; [|done].
  eapply wp_mono; [|apply (replace_pixels_spec x_size y_size cells m w Hs)].
  - intros r w' (-> & Hr & Ho & Hs' & Ha & Hb). do 2 (split; [done|]).
    f_equal. symmetry. apply grid_ext.
    { rewrite shape_relabel. by rewrite Hs', Hs. }
    intros row col v Hv.
    destruct (in_shape_bounds x_size y_size (relabel id m (store w)) row col v)
      as [Hrow Hcol]; [|done|].
    { unfold in_shape. by rewrite shape_relabel. }
    pose proof (in_shape_get _ _ _ _ _ Hs Hrow Hcol) as Hget.
    rewrite (grid_get_relabel _ _ _ _ _ _ Hget) in Hv. injection Hv as <-.
    case_decide as Hid.
    + apply (Ha (col, row)). apply grain_pixels_elem. done.
    + rewrite Hb; [done|]. intros Hin%grain_pixels_elem. naive_solver.
  - intros p Hp%grain_pixels_elem. naive_solver.
Qed.

Lemma remove_loop_spec flattened threshold x_size y_size id_list w :
  in_shape x_size y_size (store w) ->
  wp (for_each id_list (remove_grain flattened threshold x_size y_size))
     (fun r w' =>
        rng w' = rng w /\ stdout w' = stdout w /\
        (r, store w') = remove_loop flattened threshold x_size y_size id_list (store w)) w.
Proof.
  revert w. induction id_list as [|id rest IH]; intros w Hs; simpl.
  - by apply wp_ret.
  - apply wp_bind. eapply wp_mono; [|by apply remove_grain_spec].
    intros r w1 (Hr & Ho & Hstep). simpl in Hstep.
    destruct (decide (threshold <= _)) as [Hskip|Hskip].
    + injection Hstep as -> Hst. cbn [and_then]. rewrite <- Hst, <- Hr, <- Ho.
      apply IH. by rewrite Hst.
    + destruct (absorb x_size y_size id (store w)) as [g'|e] eqn:Habs.
      * injection Hstep as -> Hst. cbn [and_then]. rewrite <- Hst, <- Hr, <- Ho.
        apply IH. rewrite Hst. unfold absorb in Habs.
        destruct (most_neighbouring_of _); [|done]. injection Habs as <-.
        unfold in_shape. by rewrite shape_relabel.
      * injection Hstep as -> Hst. cbn [and_then]. by rewrite Hst.
Qed.

(** *** [max] with a key *)

Lemma max_from_elem key best l : max_from key best l ∈ best :: l.
Proof.
  revert best. induction l as [|x l IH]; intros best; simpl; [by left|].
  specialize (IH (if decide (key best < key x)%nat then x else best)).
  apply elem_of_cons in IH as [->|IH].
  - destruct (decide _); [by right; left|by left].
  - by do 2 right.
Qed.

Lemma max_from_ge_best key best l :
  (key best <= key (max_from key best l))%nat.
Proof.
  revert best. induction l as [|y l IH]; intros best; simpl; [done|].
  etrans; [|apply IH]. destruct (decide _); lia.
Qed.

Lemma max_from_ge key best l x :
  x ∈ best :: l -> (key x <= key (max_from key best l))%nat.
Proof.
  revert best. induction l as [|y l IH]; intros best Hx; simpl.
  - apply list_elem_of_singleton in Hx as ->. done.
  - apply elem_of_cons in Hx as [->|Hx]; [apply (max_from_ge_best key best (y :: l))|].
    apply elem_of_cons in Hx as [->|Hx].
    + etrans; [|apply max_from_ge_best]. destruct (decide _); lia.
    + apply IH. by right.
Qed.

Lemma max_from_first key best l :
  exists pre post, best :: l = pre ++ max_from key best l :: post /\
    (forall v, v ∈ pre -> (key v < key (max_from key best l))%nat) /\
    (forall v, v ∈ post -> (key v <= key (max_from key best l))%nat).
Proof.
  revert best. induction l as [|x l IH]; intros best; simpl.
  - exists [], []. split; [done|]. split; intros v Hv; by apply elem_of_nil in Hv.
  - destruct (decide (key best < key x)%nat) as [Hlt|Hge].
    + destruct (IH x) as (pre & post & Heq & Hpre & Hpost).
      exists (best :: pre), post. split; [by rewrite Heq|]. split; [|done].
      intros v [->|Hv]%elem_of_cons; [|by apply Hpre].
      pose proof (max_from_ge_best key x l). lia.
    + destruct (IH best) as (pre & post & Heq & Hpre & Hpost).
      destruct pre as [|b pre]; simpl in Heq.
      * injection Heq as Hb Hl. exists [], (x :: post).
        split; [simpl; congruence|]. split.
        { intros v Hv. by apply elem_of_nil in Hv. }
        intros v [->|Hv]%elem_of_cons; [|by apply Hpost]. rewrite <- Hb. lia.
      * injection Heq as <- Hl. exists (best :: x :: pre), post.
        split; [simpl; by rewrite <- Hl|]. split; [|done].
        intros v [->|[->|Hv]%elem_of_cons]%elem_of_cons.
        -- apply Hpre. by left.
        -- assert (key best < key (max_from key best l))%nat by (apply Hpre; by left).
           lia.
        -- apply Hpre. by right.
Qed.

Lemma py_count_not_elem ids v : v ∉ ids -> py_count ids v = 0%nat.
Proof.
  intros Hv. unfold py_count.
  destruct (filter _ ids) as [|x l] eqn:Hf; [done|].
  assert (Hx : x ∈ filter (fun y => y = v) ids) by (rewrite Hf; by left).
  apply list_elem_of_filter in Hx as [-> Hx]. done.
Qed.

Lemma most_neighbouring_of_spec ids :
  match most_neighbouring_of ids with
  | Ok m => is_mode ids m /\ first_max (py_count ids) (set_iter ids) m
  | Raise e => e = ValueError /\ ids = []
  end.
Proof.
  unfold most_neighbouring_of, py_max.
  destruct (set_iter ids) as [|x l] eqn:Hset.
  - split; [done|]. destruct ids as [|v ids]; [done|].
    assert (Hv : v ∈ set_iter (v :: ids)) by (apply set_iter_elem; by left).
    rewrite Hset in Hv. by apply elem_of_nil in Hv.
  - split; [split|].
    + apply set_iter_elem. rewrite Hset. apply max_from_elem.
    + intros v. destruct (decide (v ∈ ids)) as [Hv|Hv].
      * apply max_from_ge. rewrite <- Hset. by apply set_iter_elem.
      * rewrite py_count_not_elem by done. lia.
    + apply max_from_first.
Qed.

Lemma halo_ids_elem g id x_size y_size m :
  in_shape x_size y_size g ->
  m ∈ halo_ids g id x_size y_size -> m ∈ concat g /\ m ≠ id.
Proof.
  intros Hs. unfold halo_ids. rewrite list_elem_of_fmap. intros (n & -> & Hn).
  pose proof (get_all_neighbours_bounded _ _ _ _ _ Hn) as [Hx Hy].
  apply get_all_neighbours_outside in Hn. rewrite zip_fst_snd in Hn.
  split.
  - apply elem_of_grid. exists n.2, n.1. by apply (in_shape_get x_size y_size).
  - intros Hid. apply Hn. by apply grain_pixels_elem.
Qed.

Lemma absorb_values x_size y_size id g g' v :
  in_shape x_size y_size g -> absorb x_size y_size id g = Ok g' ->
  v ∈ concat g' -> v ∈ concat g /\ v ≠ id.
Proof.
  intros Hs Habs Hv. unfold absorb in Habs.
  pose proof (most_neighbouring_of_spec (halo_ids g id x_size y_size)) as Hm.
  destruct (most_neighbouring_of _) as [m|e]; [|done]. injection Habs as <-.
  destruct Hm as [[Hm _] _]. apply (halo_ids_elem _ _ _ _ _ Hs) in Hm as [Hm Hne].
  apply elem_of_grid in Hv as (r & c & Hv).
  destruct (in_shape_bounds x_size y_size (relabel id m g) r c v) as [Hr Hc]; [|done|].
  { unfold in_shape. by rewrite shape_relabel. }
  pose proof (in_shape_get _ _ _ _ _ Hs Hr Hc) as Hget.
  rewrite (grid_get_relabel _ _ _ _ _ _ Hget) in Hv. injection Hv as <-.
  case_decide; [done|]. split; [|done]. apply elem_of_grid. eauto.
Qed.

Lemma absorb_in_shape x_size y_size id g g' :
  in_shape x_size y_size g -> absorb x_size y_size id g = Ok g' ->
  in_shape x_size y_size g'.
Proof.
  unfold absorb. intros Hs Habs. destruct (most_neighbouring_of _); [|done].
  injection Habs as <-. unfold in_shape. by rewrite shape_relabel.
Qed.

(** After the loop, every value of the grid was in the grid before, and
    none of the ids the loop went through is under the threshold. *)
Lemma remove_loop_values flattened threshold x_size y_size id_list g g' v :
  in_shape x_size y_size g ->
  remove_loop flattened threshold x_size y_size id_list g = (Ok tt, g') ->
  v ∈ concat g' ->
  v ∈ concat g /\
  (v ∈ id_list -> threshold <= Z.of_nat (py_count flattened v)).
Proof.
  revert g. induction id_list as [|id rest IH]; intros g Hs Hloop Hv; simpl in Hloop.
  - injection Hloop as <-. split; [done|]. intros Hin. by apply elem_of_nil in Hin.
  - destruct (decide (threshold <= _)) as [Hskip|Hsmall].
    + destruct (IH g Hs Hloop Hv) as [Hg Hrest]. split; [done|].
      intros [->|Hin]%elem_of_cons; auto.
    + destruct (absorb x_size y_size id g) as [g1|e] eqn:Habs; [|done].
      destruct (IH g1 (absorb_in_shape _ _ _ _ _ Hs Habs) Hloop Hv) as [Hg1 Hrest].
      destruct (absorb_values _ _ _ _ _ _ Hs Habs Hg1) as [Hg Hne].
      split; [done|]. intros [->|Hin]%elem_of_cons; [done|auto].
Qed.

(** *** [get_sorted_grain_id_list] *)

Lemma py_remove_elem x l v :
  NoDup l -> v ∈ py_remove x l <-> v ∈ l /\ v ≠ x.
Proof.
  induction 1 as [|y l Hy Hnd IH]; simpl.
  - split; [by intros ?%elem_of_nil|by intros [?%elem_of_nil _]].
  - destruct (decide (y = x)) as [->|Hne].
    + rewrite elem_of_cons. split; [|naive_solver].
      intros Hv. split; [by right|]. by intros ->.
    + rewrite !elem_of_cons, IH. naive_solver.
Qed.

Lemma py_remove_NoDup x l : NoDup l -> NoDup (py_remove x l).
Proof.
  induction 1 as [|y l Hy Hnd IH]; simpl; [constructor|].
  destruct (decide (y = x)); [done|]. constructor; [|done].
  rewrite py_remove_elem by done. naive_solver.
Qed.

Lemma id_list_elem g v :
  v ∈ (get_sorted_grain_id_list g).1 <-> v ∈ concat g /\ v ≠ VOID_PIXEL_ID.
Proof.
  unfold get_sorted_grain_id_list, py_sort, py_in. simpl.
  rewrite merge_sort_Permutation.
  case_bool_decide as Hvoid.
  - rewrite py_remove_elem by apply set_iter_NoDup. by rewrite set_iter_elem.
  - rewrite set_iter_elem. split; [|naive_solver].
    intros Hv. split; [done|]. intros ->. apply Hvoid. by apply set_iter_elem.
Qed.

Lemma id_list_NoDup g : NoDup (get_sorted_grain_id_list g).1.
Proof.
  unfold get_sorted_grain_id_list, py_sort, py_in. simpl.
  rewrite merge_sort_Permutation.
  case_bool_decide; [apply py_remove_NoDup|]; apply set_iter_NoDup.
Qed.

(** The whole pass on a rectangular grid with a first row. *)
Lemma remove_small_grains_run threshold w row0 :
  rectangular (store w) -> store w !! 0%nat = Some row0 ->
  let g := store w in
  let loop := remove_loop (concat g) threshold (length row0) (length g)
                          (get_sorted_grain_id_list g).1 g in
  remove_small_grains threshold w
  = (match loop.1 with Ok _ => Ok loop.2 | Raise e => Raise e end,
     set_store loop.2 w).
Proof.
  intros Hrect H0. cbv zeta.
  pose proof (rectangular_in_shape _ _ Hrect H0) as Hs.
  pose proof (remove_loop_spec (concat (store w)) threshold (length row0)
                (length (store w)) (get_sorted_grain_id_list (store w)).1 w Hs)
    as Hloop.
  unfold wp in Hloop.
  unfold remove_small_grains, get_sorted_grain_id_list in *.
  unfold bind at 1, the_grid at 1. cbn beta iota zeta.
  unfold bind at 1, len_row0, getitem. rewrite H0.
  unfold bind at 1, len_grid. unfold bind at 1. cbn [fst snd] in *.
  destruct (for_each _ _ w) as [r w'] eqn:Hrun. cbn [fst snd] in Hloop.
  destruct Hloop as (Hr & Ho & Hres). rewrite <- Hres. simpl.
  assert (Hw : w' = set_store (store w') w).
  { destruct w, w'; simpl in *. by subst. }
  destruct r as [[]|e]; by rewrite Hw at 1.
Qed.

(** With a threshold that every count reaches, no grain is touched. *)
Lemma remove_loop_skip flattened threshold x_size y_size id_list g :
  (forall id, id ∈ id_list -> threshold <= Z.of_nat (py_count flattened id)) ->
  remove_loop flattened threshold x_size y_size id_list g = (Ok tt, g).
Proof.
  induction id_list as [|id rest IH]; intros Hall; simpl; [done|].
  rewrite decide_True by (apply Hall; by left).
  apply IH. intros id' Hid'. apply Hall. by right.
Qed.

(** The loop of line 161 never writes to a pixel whose id is not in
    the list or is not under the threshold. *)
Lemma remove_loop_frame flattened threshold x_size y_size id_list g r c v :
  in_shape x_size y_size g ->
  (v ∈ id_list -> threshold <= Z.of_nat (py_count flattened v)) ->
  grid_get g r c = Ok v ->
  grid_get (remove_loop flattened threshold x_size y_size id_list g).2 r c = Ok v.
Proof.
  revert g. induction id_list as [|id rest IH]; intros g Hs Hbig Hv; simpl; [done|].
  destruct (decide (threshold <= _)) as [Hskip|Hsmall].
  - apply IH; [done| |done]. intros Hin. apply Hbig. by right.
  - destruct (absorb x_size y_size id g) as [g1|e] eqn:Habs; [|done].
    apply IH.
    + by eapply absorb_in_shape.
    + intros Hin. apply Hbig. by right.
    + unfold absorb in Habs. destruct (most_neighbouring_of _) as [m|]; [|done].
      injection Habs as <-. rewrite (grid_get_relabel _ _ _ _ _ _ Hv).
      rewrite decide_False; [done|]. intros ->. apply Hsmall, Hbig. by left.
Qed.

(** When one id of the list is under the threshold, the loop of line
    161 is the one iteration for that id. *)
Lemma remove_loop_only flattened threshold x_size y_size id_list id g :
  NoDup id_list -> id ∈ id_list ->
  (forall id', id' ∈ id_list -> id' ≠ id ->
     threshold <= Z.of_nat (py_count flattened id')) ->
  Z.of_nat (py_count flattened id) < threshold ->
  remove_loop flattened threshold x_size y_size id_list g
  = match absorb x_size y_size id g with
    | Ok g' => (Ok tt, g')
    | Raise e => (Raise e, g)
    end.
Proof.
  intros Hnd Hin Hbig Hsmall.
  induction Hnd as [|a rest Ha Hnd IH]; [by apply elem_of_nil in Hin|].
  simpl. destruct (decide (a = id)) as [->|Hne].
  - rewrite decide_False by lia.
    destruct (absorb x_size y_size id g) as [g'|e]; [|done].
    apply remove_loop_skip. intros id' Hid'. apply Hbig; [by right|].
    by intros ->.
  - rewrite decide_True by (apply Hbig; [by left|done]).
    apply IH.
    + apply elem_of_cons in Hin as [?|?]; done.
    + intros id' Hid'. apply Hbig. by right.
Qed.

End Remove.

(** *** Ascending lists *)

Lemma sorted_le_NoDup_lt (l : list Z) :
  StronglySorted Z.le l -> NoDup l -> StronglySorted Z.lt l.
Proof.
  induction 1 as [|x l Hl IH Hx]; intros Hnd; [constructor|].
  apply NoDup_cons in Hnd as [Hnot Hnd]. constructor; [auto|].
  rewrite Forall_forall in Hx |- *. intros y Hy.
  assert (x ≠ y) by (intros ->; done). specialize (Hx y Hy). lia.
Qed.

Lemma sorted_lt_filter (P : Z -> Prop) `{forall x, Decision (P x)} (l : list Z) :
  StronglySorted Z.lt l -> StronglySorted Z.lt (filter P l).
Proof.
  induction 1 as [|x l Hl IH Hx]; [constructor|].
  rewrite filter_cons. destruct (decide (P x)); [|done].
  constructor; [done|]. rewrite Forall_forall in Hx |- *.
  intros y [_ Hy]%list_elem_of_filter. by apply Hx.
Qed.


Lemma readonly_len_grid : readonly len_grid.
Proof. done. Qed.

Lemma readonly_len_row0 : readonly len_row0.
Proof. intros w. unfold len_row0. by destruct (getitem _ _). Qed.

Lemma readonly_the_grid : readonly the_grid.
Proof. done. Qed.

#[export] Hint Resolve readonly_len_grid readonly_len_row0 readonly_the_grid : readonly.

Lemma grid_set_values (g g' : grid) r c v u :
  grid_set g r c v = Ok g' -> u ∈ concat g' -> u = v \/ u ∈ concat g.
Proof.
  intros Hset (r' & c' & Hu)%elem_of_grid.
  rewrite (grid_get_set _ _ _ _ _ _ _ Hset) in Hu.
  case_decide; [left; congruence|]. right. apply elem_of_grid. eauto.
Qed.

Lemma bind_assoc {A B D} (m : M A) (k1 : A -> M B) (k2 : B -> M D) w :
  bind (bind m k1) k2 w = bind m (fun a => bind (k1 a) k2) w.
Proof. unfold bind. by destruct (m w) as [[a|e] w']. Qed.

Lemma bind_lift_Ok {A B} (r : res A) a (k : A -> M B) w :
  r = Ok a -> bind (lift r) k w = k a w.
Proof. by intros ->. Qed.

Lemma bind_ret {A B} (a : A) (k : A -> M B) w : bind (ret a) k w = k a w.
Proof. done. Qed.

(** ** The grain merger *)

Section MergeProofs.
Context `{C : Collaborators} {T : Type} `{N : PyNum T}.

Lemma readonly_identify_merges (gm : Z -> option (list T)) thr ids :
  readonly (identify_merges gm thr ids).
Proof.
  unfold identify_merges. apply readonly_for_acc. intros mm i.
  repeat (apply readonly_bind; [auto with readonly|]; intros ?).
  apply readonly_for_acc. intros mm' j.
  repeat (apply readonly_bind; [auto with readonly|]; intros ?).
  destruct (num_lt _ _); [|auto with readonly].
  repeat (apply readonly_bind; [auto with readonly|]; intros ?).
  auto with readonly.
Qed.

Lemma readonly_apply_merges mm g : readonly (apply_merges mm g).
Proof.
  unfold apply_merges. apply readonly_for_acc. intros g1 id.
  apply readonly_bind; [auto with readonly|]; intros y_size.
  apply readonly_for_acc. intros g2 i.
  apply readonly_bind; [auto with readonly|]; intros x_size.
  apply readonly_for_acc. intros g3 j.
  repeat (apply readonly_bind; [auto with readonly|]; intros ?).
  destruct (py_in _ _); auto with readonly.
Qed.

(** The merger reads the world while it works and prints when it is
    done: an exception leaves the world as it was. *)
Lemma merge_grains_run (gm : Z -> option (list T)) thr w :
  merge_grains gm thr w =
  let id_list := (get_sorted_grain_id_list (store w)).1 in
  match (identify_merges gm thr id_list w).1 with
  | Raise e => (Raise e, w)
  | Ok merge_map =>
      match (apply_merges merge_map (store w) w).1 with
      | Raise e => (Raise e, w)
      | Ok g' =>
          (Ok g', set_stdout
                    (stdout w ++ report (length id_list)
                       (length (get_sorted_grain_id_list g').1)) w)
      end
  end.
Proof.
  unfold merge_grains, get_sorted_grain_id_list. cbn [fst snd].
  unfold bind at 1, the_grid at 1. cbn beta iota zeta.
  unfold bind at 1.
  pose proof (readonly_identify_merges gm thr
    (py_sort (if py_in VOID_PIXEL_ID (set_iter (concat (store w)))
              then py_remove VOID_PIXEL_ID (set_iter (concat (store w)))
              else set_iter (concat (store w)))) w) as Hro.
  destruct (identify_merges _ _ _ w) as [[mm|e] w1]; simpl in Hro; subst w1;
    cbn [fst]; [|done].
  unfold bind at 1.
  pose proof (readonly_apply_merges mm (store w) w) as Hro.
  destruct (apply_merges _ _ w) as [[g'|e] w1]; simpl in Hro; subst w1;
    cbn [fst]; [|done].
  unfold bind, print, ret, report. simpl. by rewrite <- !app_assoc.
Qed.

(** *** The merge map *)

Lemma dict_set_keys (d : list (Z * list Z)) k v k' :
  k' ∈ (dict_set d k v).*1 <-> k' ∈ d.*1 \/ k' = k.
Proof.
  induction d as [|[k0 v0] d IH]; simpl.
  - rewrite list_elem_of_singleton. split; [auto|]. intros [?%elem_of_nil|?]; done.
  - destruct (decide (k0 = k)) as [->|Hne]; simpl.
    + rewrite !elem_of_cons. naive_solver.
    + rewrite !elem_of_cons, IH. naive_solver.
Qed.

Lemma record_merge_keys (mm mm' : list (Z * list Z)) id_i id_j k :
  record_merge mm id_i id_j = Ok mm' -> k ∈ mm'.*1 -> k ∈ mm.*1 \/ k = id_i.
Proof.
  unfold record_merge. destruct (dict_has mm id_i).
  - destruct (dict_get mm id_i); [|done]. intros [= <-]. by rewrite dict_set_keys.
  - intros [= <-]. by rewrite dict_set_keys.
Qed.

(** Every key of the merge map is an id of the list. *)
Lemma identify_merges_keys (gm : Z -> option (list T)) thr ids w mm :
  (identify_merges gm thr ids w).1 = Ok mm -> forall k, k ∈ mm.*1 -> k ∈ ids.
Proof.
  enough (Hwp : wp (identify_merges gm thr ids)
    (fun r _ => forall mm, r = Ok mm -> forall k, k ∈ mm.*1 -> k ∈ ids) w)
    by (intros Hr; by apply Hwp).
  unfold identify_merges.
  apply wp_for_acc with (I := fun _ (mm : list (Z * list Z)) _ =>
    forall k, k ∈ mm.*1 -> k ∈ ids); [by intros k ?%elem_of_nil| |].
  - intros done i todo mm1 w1 _ Hmm1. wp_auto; try done.
    apply wp_for_acc with (I := fun _ (mm : list (Z * list Z)) _ =>
      forall k, k ∈ mm.*1 -> k ∈ ids); [done| |done].
    intros done' j todo' mm2 w2 _ Hmm2. wp_auto; try done.
    lazymatch goal with
    | |- context [record_merge ?m ?a ?b] =>
        destruct (record_merge m a b) as [mm3|e] eqn:Hrec; [|done]
    end.
    intros k Hk. destruct (record_merge_keys _ _ _ _ _ Hrec Hk) as [?| ->]; [auto|].
    apply list_elem_of_lookup. exists i. by apply getitem_Ok.
  - intros mm1 w1 Hmm1 mm' [= <-]. done.
Qed.

(** Every value the merger leaves in the grid was in the grid or is a
    key of the merge map. *)
Lemma apply_merges_values (mm : list (Z * list Z)) (g g' : grid) w v :
  (apply_merges mm g w).1 = Ok g' -> v ∈ concat g' ->
  v ∈ concat g \/ v ∈ mm.*1.
Proof.
  enough (Hwp : wp (apply_merges mm g)
    (fun r _ => forall g', r = Ok g' ->
       forall v, v ∈ concat g' -> v ∈ concat g \/ v ∈ mm.*1) w)
    by (intros Hr; by apply Hwp).
  unfold apply_merges.
  set (J := fun (g1 : grid) => forall v, v ∈ concat g1 -> v ∈ concat g \/ v ∈ mm.*1).
  apply wp_for_acc with (I := fun _ g1 _ => J g1); [by left| |].
  - intros done id todo g1 w1 Hkeys Hg1. wp_auto.
    apply wp_for_acc with (I := fun _ g2 _ => J g2); [done| |done].
    intros done2 i todo2 g2 w2 _ Hg2. apply wp_bind, wp_len_row0.
    destruct (getitem (store w2) 0); cbn [and_then]; [|done].
    apply wp_for_acc with (I := fun _ g3 _ => J g3); [done| |done].
    intros done3 j todo3 g3 w3 _ Hg3. wp_auto; try done.
    destruct (grid_set g3 i j id) as [g4|e] eqn:Hset; [|done].
    intros u Hu. destruct (grid_set_values _ _ _ _ _ _ Hset Hu) as [->|?]; [|auto].
    right. rewrite Hkeys. apply elem_of_app. right. by left.
  - intros g1 w1 Hg1 g'' [= <-]. done.
Qed.

(** *** The merge map, as the pairs of ids within the threshold *)

Lemma dict_has_app_last (d : list (Z * list Z)) k v :
  dict_has (d ++ [(k, v)]) k = true.
Proof.
  unfold dict_has. apply bool_decide_eq_true. rewrite fmap_app.
  apply elem_of_app. right. by left.
Qed.

Lemma dict_get_app_last (d : list (Z * list Z)) k v :
  k ∉ d.*1 -> dict_get (d ++ [(k, v)]) k = Ok v.
Proof.
  induction d as [|[k0 v0] d IH]; simpl; intros Hk.
  - by rewrite decide_True.
  - rewrite decide_False by (intros ->; apply Hk; by left).
    apply IH. intros ?. apply Hk. by right.
Qed.

Lemma dict_set_app_last (d : list (Z * list Z)) k v v' :
  k ∉ d.*1 -> dict_set (d ++ [(k, v)]) k v' = d ++ [(k, v')].
Proof.
  induction d as [|[k0 v0] d IH]; simpl; intros Hk.
  - by rewrite decide_True.
  - rewrite decide_False by (intros ->; apply Hk; by left).
    f_equal. apply IH. intros ?. apply Hk. by right.
Qed.

Lemma dict_set_fresh (d : list (Z * list Z)) k v :
  k ∉ d.*1 -> dict_set d k v = d ++ [(k, v)].
Proof.
  induction d as [|[k0 v0] d IH]; simpl; intros Hk; [done|].
  rewrite decide_False by (intros ->; apply Hk; by left).
  f_equal. apply IH. intros ?. apply Hk. by right.
Qed.

Lemma merge_step_open gm thr id_i (d : list (Z * list Z)) bucket rest :
  id_i ∉ d.*1 ->
  foldl (merge_step gm thr id_i) (d ++ [(id_i, bucket)]) rest
  = d ++ [(id_i, bucket ++ filter (fun id_j => within gm thr id_i id_j) rest)].
Proof.
  intros Hk. revert bucket. induction rest as [|id_j rest IH]; intros bucket; simpl.
  - by rewrite app_nil_r.
  - rewrite filter_cons. unfold merge_step at 2, record_merge.
    destruct (within gm thr id_i id_j); simpl; [|apply IH].
    rewrite dict_has_app_last, dict_get_app_last, dict_set_app_last by done.
    rewrite IH. by rewrite <- app_assoc.
Qed.

Lemma merge_step_fresh gm thr id_i (d : list (Z * list Z)) rest :
  id_i ∉ d.*1 ->
  foldl (merge_step gm thr id_i) d rest
  = d ++ match filter (fun id_j => within gm thr id_i id_j) rest with
         | [] => []
         | bucket => [(id_i, bucket)]
         end.
Proof.
  intros Hk. induction rest as [|id_j rest IH]; simpl.
  - by rewrite app_nil_r.
  - rewrite filter_cons. unfold merge_step at 2, record_merge.
    destruct (within gm thr id_i id_j); simpl; [|apply IH].
    unfold dict_has. rewrite bool_decide_eq_false_2 by done.
    rewrite dict_set_fresh by done. by rewrite merge_step_open.
Qed.

Lemma merge_map_of_keys gm thr ids k :
  k ∈ (merge_map_of gm thr ids).*1 -> k ∈ ids.
Proof.
  induction ids as [|id rest IH]; simpl; [done|].
  destruct (filter _ rest); simpl.
  - intros ?. right. auto.
  - intros [->|?]%elem_of_cons; [by left|right; auto].
Qed.

Lemma merge_loop_spec gm thr mm ids :
  NoDup ids -> (forall k, k ∈ mm.*1 -> k ∉ ids) ->
  merge_loop gm thr mm ids = mm ++ merge_map_of gm thr ids.
Proof.
  intros Hnd. revert mm. induction Hnd as [|id rest Hid Hnd IH]; intros mm Hmm; simpl.
  - by rewrite app_nil_r.
  - rewrite merge_step_fresh by (intros Hk; apply (Hmm _ Hk); by left).
    destruct (filter _ rest) as [|b bucket] eqn:Hf.
    + rewrite app_nil_r. apply IH. intros k Hk Hin. apply (Hmm k Hk). by right.
    + rewrite IH; [by rewrite <- app_assoc|].
      intros k Hk Hin. rewrite fmap_app in Hk. apply elem_of_app in Hk as [Hk|Hk].
      * apply (Hmm k Hk). by right.
      * apply list_elem_of_singleton in Hk as ->. done.
Qed.

Lemma dict_get_has (d : list (Z * list Z)) k :
  dict_has d k = true -> exists v, dict_get d k = Ok v.
Proof.
  unfold dict_has. rewrite bool_decide_eq_true.
  induction d as [|[k0 v0] d IH]; simpl; [by intros ?%elem_of_nil|].
  destruct (decide (k0 = k)); [eauto|].
  intros [?|?]%elem_of_cons; [done|auto].
Qed.

Lemma record_merge_Ok (mm : list (Z * list Z)) id_i id_j :
  exists mm', record_merge mm id_i id_j = Ok mm'.
Proof.
  unfold record_merge. destruct (dict_has mm id_i) eqn:Hhas; [|eauto].
  destruct (dict_get_has _ _ Hhas) as [v ->]. eauto.
Qed.

Lemma abs_differences_Ok (o1 o2 : list T) ks :
  (forall k, k ∈ ks -> (k < length o1)%nat /\ (k < length o2)%nat) ->
  exists ds, abs_differences o1 o2 ks = Ok ds.
Proof.
  induction ks as [|k ks IH]; intros Hks; simpl; [eauto|].
  destruct (Hks k) as [H1 H2]; [by left|].
  apply lookup_lt_is_Some in H1 as [a Ha], H2 as [b Hb].
  unfold getitem. rewrite Ha, Hb.
  destruct IH as [ds ->]; [|eauto]. intros k' Hk'. apply Hks. by right.
Qed.

Lemma orientation_error_Ok (o1 o2 : list T) :
  (3 <= length o1)%nat -> (3 <= length o2)%nat ->
  exists error, orientation_error o1 o2 = Ok error.
Proof.
  intros H1 H2. unfold orientation_error.
  destruct (abs_differences_Ok o1 o2 (range 3)) as [ds ->]; [|eauto].
  intros k Hk%elem_of_range. lia.
Qed.

Lemma identify_inner gm thr ids i id_i o1 pre suf mm w :
  oriented gm ids -> ids = pre ++ suf ->
  getitem ids i = Ok id_i -> orientation_of gm id_i = Ok o1 ->
  (3 <= length o1)%nat ->
  for_acc (seq (length pre) (length suf)) (fun merge_map j =>
      id_j <- lift (getitem ids j) ;;
      orientation_2 <- lift (orientation_of gm id_j) ;;
      error <- lift (orientation_error o1 orientation_2) ;;
      if num_lt error thr then
        id_i <- lift (getitem ids i) ;;
        id_j <- lift (getitem ids j) ;;
        lift (record_merge merge_map id_i id_j)
      else ret merge_map) mm w
  = (Ok (foldl (merge_step gm thr id_i) mm suf), w).
Proof.
  intros Hor Hids Hi Ho1 Hlen1. revert pre mm Hids.
  induction suf as [|id_j suf IH]; intros pre mm Hids; simpl; [done|].
  assert (Hj : getitem ids (length pre) = Ok id_j).
  { apply getitem_Ok. rewrite Hids. by rewrite list_lookup_middle. }
  destruct (Hor id_j) as (o2 & Hgm & Hlen2).
  { rewrite Hids. apply elem_of_app. right. by left. }
  assert (Ho2 : orientation_of gm id_j = Ok o2).
  { unfold orientation_of. by rewrite Hgm. }
  destruct (orientation_error_Ok o1 o2 Hlen1 Hlen2) as [error Herr].
  assert (Hwithin : within gm thr id_i id_j = num_lt error thr).
  { unfold within. by rewrite Ho1, Ho2, Herr. }
  rewrite bind_assoc, (bind_lift_Ok _ _ _ _ Hj).
  rewrite bind_assoc, (bind_lift_Ok _ _ _ _ Ho2).
  rewrite bind_assoc, (bind_lift_Ok _ _ _ _ Herr).
  unfold merge_step at 2. rewrite Hwithin.
  destruct (record_merge_Ok mm id_i id_j) as [mm' Hrec].
  replace (S (length pre)) with (length (pre ++ [id_j]))
    by (rewrite length_app; simpl; lia).
  destruct (num_lt error thr).
  - rewrite bind_assoc, (bind_lift_Ok _ _ _ _ Hi).
    rewrite bind_assoc, (bind_lift_Ok _ _ _ _ Hj).
    rewrite (bind_lift_Ok _ _ _ _ Hrec). rewrite Hrec.
    apply IH. by rewrite <- app_assoc.
  - rewrite bind_ret. apply IH. by rewrite <- app_assoc.
Qed.

Lemma identify_outer gm thr ids pre suf mm w :
  oriented gm ids -> ids = pre ++ suf ->
  for_acc (seq (length pre) (length suf)) (fun merge_map i =>
    id_i <- lift (getitem ids i) ;;
    orientation_1 <- lift (orientation_of gm id_i) ;;
    for_acc (range2 (i + 1) (length ids)) (fun merge_map j =>
      id_j <- lift (getitem ids j) ;;
      orientation_2 <- lift (orientation_of gm id_j) ;;
      error <- lift (orientation_error orientation_1 orientation_2) ;;
      if num_lt error thr then
        id_i <- lift (getitem ids i) ;;
        id_j <- lift (getitem ids j) ;;
        lift (record_merge merge_map id_i id_j)
      else ret merge_map) merge_map) mm w
  = (Ok (merge_loop gm thr mm suf), w).
Proof.
  intros Hor. revert pre mm.
  induction suf as [|id_i suf IH]; intros pre mm Hids; simpl; [done|].
  assert (Hi : getitem ids (length pre) = Ok id_i).
  { apply getitem_Ok. rewrite Hids. by rewrite list_lookup_middle. }
  destruct (Hor id_i) as (o1 & Hgm & Hlen1).
  { rewrite Hids. apply elem_of_app. right. by left. }
  assert (Ho1 : orientation_of gm id_i = Ok o1).
  { unfold orientation_of. by rewrite Hgm. }
  rewrite bind_assoc, (bind_lift_Ok _ _ _ _ Hi).
  rewrite bind_assoc, (bind_lift_Ok _ _ _ _ Ho1).
  assert (Hrange : range2 (length pre + 1) (length ids)
                   = seq (length (pre ++ [id_i])) (length suf)).
  { unfold range2. rewrite Hids, !length_app. simpl. f_equal; lia. }
  rewrite Hrange. unfold bind.
  rewrite (identify_inner gm thr ids (length pre) id_i o1 (pre ++ [id_i]) suf)
    by (try done; by rewrite <- app_assoc).
  replace (S (length pre)) with (length (pre ++ [id_i]))
    by (rewrite length_app; simpl; lia).
  apply IH. by rewrite <- app_assoc.
Qed.

(** Lines 206-215 build the merge map of the claim. *)
Lemma identify_merges_pure gm thr ids w :
  oriented gm ids -> NoDup ids ->
  identify_merges gm thr ids w = (Ok (merge_map_of gm thr ids), w).
Proof.
  intros Hor Hnd. unfold identify_merges, range.
  rewrite (identify_outer gm thr ids [] ids) by done.
  rewrite merge_loop_spec; [done..|]. by intros k ?%elem_of_nil.
Qed.

(** *** Applying the merges *)

Lemma shape_fold_into key members g : shape (fold_into key members g) = shape g.
Proof.
  unfold shape, fold_into. rewrite <- list_fmap_compose.
  apply list_fmap_ext. intros _ row _. simpl. by rewrite length_fmap.
Qed.

Lemma grid_get_fold_into key members g r c v :
  grid_get g r c = Ok v ->
  grid_get (fold_into key members g) r c = Ok (if py_in v members then key else v).
Proof.
  rewrite !grid_get_Ok. intros (row & Hrow & Hv).
  eexists. unfold fold_into. rewrite list_lookup_fmap, Hrow. split; [done|].
  by rewrite list_lookup_fmap, Hv.
Qed.

Lemma NoDup_split_notin {A} (done todo : list A) x :
  NoDup (done ++ x :: todo) -> x ∉ done.
Proof.
  intros [_ [Hd _]]%NoDup_app Hx. apply (Hd x Hx). by left.
Qed.

Lemma range_split_notin n (done todo : list nat) x :
  range n = done ++ x :: todo -> x ∉ done.
Proof.
  intros Hr. apply (NoDup_split_notin done todo). rewrite <- Hr. apply NoDup_seq.
Qed.

(** Lines 219-222 for one key. *)
Lemma scan_key_spec x_size y_size row0 id members (g : grid) w :
  store w !! 0%nat = Some row0 -> x_size = length row0 ->
  y_size = length (store w) -> in_shape x_size y_size g ->
  forall mm, dict_get mm id = Ok members ->
  wp (for_acc (range y_size) (fun new_pixel_grid i =>
        x_size <- len_row0 ;;
        for_acc (range x_size) (fun new_pixel_grid j =>
          p <- lift (grid_get new_pixel_grid i j) ;;
          members <- lift (dict_get mm id) ;;
          if py_in p members then lift (grid_set new_pixel_grid i j id)
          else ret new_pixel_grid) new_pixel_grid) g)
     (fun r w' => w' = w /\ r = Ok (fold_into id members g)) w.
Proof.
  intros H0 Hx Hy Hs mm Hget.
  set (f := fun v => if py_in v members then id else v).
  apply wp_for_acc with (I := fun rows g1 w' =>
    w' = w /\ in_shape x_size y_size g1 /\
    (forall r c, r ∈ rows -> (c < x_size)%nat ->
                 grid_get g1 r c = Ok (f (pixel_at g r c))) /\
    (forall r c, r ∉ rows -> (r < y_size)%nat -> (c < x_size)%nat ->
                 grid_get g1 r c = Ok (pixel_at g r c))).
  - do 2 (split; [done|]). split; [by intros r c ?%elem_of_nil|].
    intros r c _ Hr Hc. by apply (in_shape_get x_size y_size).
  - intros rows i todo g1 w1 Hrows (-> & Hs1 & Hdone & Hrest).
    pose proof (range_split_bound _ _ _ _ Hrows) as Hi.
    pose proof (range_split_notin _ _ _ _ Hrows) as Hifresh.
    apply wp_bind, wp_len_row0. rewrite (proj2 (getitem_Ok _ _ _) H0).
    cbn [and_then]. rewrite <- Hx.
    apply wp_for_acc with (I := fun cols g2 w' =>
      w' = w /\ in_shape x_size y_size g2 /\
      (forall r c, r ∈ rows -> (c < x_size)%nat ->
                   grid_get g2 r c = Ok (f (pixel_at g r c))) /\
      (forall c, c ∈ cols -> grid_get g2 i c = Ok (f (pixel_at g i c))) /\
      (forall r c, r ∉ rows -> (r <> i \/ c ∉ cols) ->
                   (r < y_size)%nat -> (c < x_size)%nat ->
                   grid_get g2 r c = Ok (pixel_at g r c))).
    + do 3 (split; [done|]). split; [by intros c ?%elem_of_nil|].
      intros r c Hr _ ? ?. by apply Hrest.
    + intros cols j todo' g2 w2 Hcols (-> & Hs2 & Hdone2 & Hrow2 & Hrest2).
      pose proof (range_split_bound _ _ _ _ Hcols) as Hj.
      pose proof (range_split_notin _ _ _ _ Hcols) as Hjfresh.
      assert (Hp : grid_get g2 i j = Ok (pixel_at g i j)) by (apply Hrest2; auto).
      wp_auto.
      * destruct (in_shape_set _ _ _ i j id Hs2 Hi Hj) as (g3 & Hset & Hs3).
        rewrite Hset. do 2 (split; [done|]).
        assert (Hf : f (pixel_at g i j) = id) by (unfold f; by rewrite E).
        split; [|split].
        -- intros r c Hr Hc. rewrite (grid_get_set _ _ _ _ _ _ _ Hset).
           case_decide as Hrc; [|by apply Hdone2].
           destruct Hrc as [-> ->]. done.
        -- intros c Hc. rewrite (grid_get_set _ _ _ _ _ _ _ Hset).
           case_decide as Hrc; [destruct Hrc as [_ ->]; by rewrite Hf|].
           apply elem_of_app in Hc as [Hc|Hc]; [by apply Hrow2|].
           apply list_elem_of_singleton in Hc as ->. naive_solver.
        -- intros r c Hr Hor Hry Hcx. rewrite (grid_get_set _ _ _ _ _ _ _ Hset).
           case_decide as Hrc.
           ++ destruct Hrc as [-> ->]. destruct Hor as [?|Hc]; [done|].
              exfalso. apply Hc. apply elem_of_app. right. by left.
           ++ apply Hrest2; try done. destruct Hor as [?|Hc]; [by left|].
              right. intros Hc'. apply Hc. apply elem_of_app. by left.
      * do 3 (split; [done|]).
        assert (Hf : f (pixel_at g i j) = pixel_at g i j) by (unfold f; by rewrite E).
        split.
        -- intros c Hc. apply elem_of_app in Hc as [Hc|Hc]; [by apply Hrow2|].
           apply list_elem_of_singleton in Hc as ->. by rewrite Hf.
        -- intros r c Hr Hor Hry Hcx. apply Hrest2; try done.
           destruct Hor as [?|Hc]; [by left|].
           right. intros Hc'. apply Hc. apply elem_of_app. by left.
    + intros g2 w2 (-> & Hs2 & Hdone2 & Hrow2 & Hrest2). do 2 (split; [done|]).
      split.
      * intros r c Hr Hc. apply elem_of_app in Hr as [Hr|Hr]; [by apply Hdone2|].
        apply list_elem_of_singleton in Hr as ->. apply Hrow2. by apply elem_of_range.
      * intros r c Hr Hry Hcx. apply Hrest2; try done.
        -- intros Hr'. apply Hr. apply elem_of_app. by left.
        -- left. intros ->. apply Hr. apply elem_of_app. right. by left.
  - intros g1 w1 (-> & Hs1 & Hdone & _). split; [done|]. f_equal.
    symmetry. apply grid_ext.
    { rewrite shape_fold_into. by rewrite Hs1, Hs. }
    intros r c v Hv.
    destruct (in_shape_bounds x_size y_size (fold_into id members g) r c v)
      as [Hr Hc]; [|done|].
    { unfold in_shape. by rewrite shape_fold_into. }
    pose proof (in_shape_get _ _ _ _ _ Hs Hr Hc) as Hg.
    rewrite (grid_get_fold_into _ _ _ _ _ _ Hg) in Hv. injection Hv as <-.
    apply Hdone; [by apply elem_of_range|done].
Qed.

Lemma dict_get_NoDup (d : list (Z * list Z)) pre k v suf :
  NoDup d.*1 -> d = pre ++ (k, v) :: suf -> dict_get d k = Ok v.
Proof.
  intros Hnd ->. rewrite fmap_app in Hnd. simpl in Hnd.
  apply NoDup_split_notin in Hnd.
  induction pre as [|[k0 v0] pre IH]; simpl.
  - by rewrite decide_True.
  - rewrite decide_False by (intros ->; apply Hnd; by left).
    apply IH. intros ?. apply Hnd. by right.
Qed.

Lemma apply_merges_suffix (mm pre suf : list (Z * list Z)) (g : grid) row0 w :
  store w !! 0%nat = Some row0 ->
  in_shape (length row0) (length (store w)) g ->
  NoDup mm.*1 -> mm = pre ++ suf ->
  for_acc suf.*1 (fun new_pixel_grid id =>
    y_size <- len_grid ;;
    for_acc (range y_size) (fun new_pixel_grid i =>
      x_size <- len_row0 ;;
      for_acc (range x_size) (fun new_pixel_grid j =>
        p <- lift (grid_get new_pixel_grid i j) ;;
        members <- lift (dict_get mm id) ;;
        if py_in p members then lift (grid_set new_pixel_grid i j id)
        else ret new_pixel_grid) new_pixel_grid) new_pixel_grid) g w
  = (Ok (merged suf g), w).
Proof.
  intros H0 Hs Hnd. revert pre g Hs.
  induction suf as [|[k v] suf IH]; intros pre g Hs Hmm; simpl; [done|].
  pose proof (dict_get_NoDup mm pre k v suf Hnd Hmm) as Hget.
  pose proof (scan_key_spec (length row0) (length (store w)) row0 k v g w
                H0 eq_refl eq_refl Hs mm Hget) as Hscan.
  unfold wp in Hscan. destruct Hscan as [Hw Hr].
  unfold bind at 1. unfold bind at 1, len_grid at 1.
  destruct (for_acc (range (length (store w))) _ g w) as [r w'].
  simpl in Hw, Hr. subst r w'.
  apply (IH (pre ++ [(k, v)])); [|by rewrite <- app_assoc].
  unfold in_shape. by rewrite shape_fold_into.
Qed.

(** Lines 218-222 apply the merges of the map in the order of its keys. *)
Lemma apply_merges_pure (mm : list (Z * list Z)) (g : grid) row0 w :
  store w !! 0%nat = Some row0 ->
  in_shape (length row0) (length (store w)) g ->
  NoDup mm.*1 ->
  apply_merges mm g w = (Ok (merged mm g), w).
Proof.
  intros H0 Hs Hnd. unfold apply_merges.
  by apply (apply_merges_suffix mm [] mm g row0 w).
Qed.

Lemma merge_map_of_NoDup gm thr ids :
  NoDup ids -> NoDup (merge_map_of gm thr ids).*1.
Proof.
  induction 1 as [|id rest Hid Hnd IH]; simpl; [constructor|].
  destruct (filter _ rest); [done|]. simpl. constructor; [|done].
  intros Hk%merge_map_of_keys. done.
Qed.

(** Each pair [i < j] of the id list within the threshold puts [id_j]
    in the entry of [id_i]. *)
Lemma merge_map_of_pairs gm thr ids i j id_i id_j :
  ids !! i = Some id_i -> ids !! j = Some id_j -> (i < j)%nat ->
  within gm thr id_i id_j = true ->
  exists bucket, (id_i, bucket) ∈ merge_map_of gm thr ids /\ id_j ∈ bucket.
Proof.
  revert i j. induction ids as [|a rest IH]; intros i j Hi Hj Hij Hw; [done|].
  destruct j as [|j]; [lia|]. simpl in Hj.
  destruct i as [|i]; simpl in Hi.
  - injection Hi as ->. simpl.
    assert (Hin : id_j ∈ filter (fun id_j => within gm thr id_i id_j) rest).
    { apply list_elem_of_filter. split; [by rewrite Hw|]. by eapply list_elem_of_lookup_2. }
    destruct (filter _ rest) as [|b bucket]; [by apply elem_of_nil in Hin|].
    exists (b :: bucket). split; [by left|done].
  - destruct (IH i j Hi Hj ltac:(lia) Hw) as (bucket & Hin & Hb).
    exists bucket. split; [|done]. simpl.
    destruct (filter _ rest); [done|by right].
Qed.

(** *** The distance and the entries of the merge map *)

(** Line 210 computes the distance of the specification, and fails with
    [IndexError] when an orientation has fewer than three components. *)
Lemma orientation_error_distance (o1 o2 : list T) :
  orientation_error o1 o2 = match spec_distance o1 o2 with
                            | Some d => Ok d
                            | None => Raise IndexError
                            end.
Proof.
  unfold orientation_error, spec_distance, range. cbn [seq abs_differences].
  destruct o1 as [|a0 [|a1 [|a2 o1]]], o2 as [|b0 [|b1 [|b2 o2]]]; reflexivity.
Qed.

Lemma within_distance (gm : Z -> option (list T)) thr a b o1 o2 d :
  gm a = Some o1 -> gm b = Some o2 -> spec_distance o1 o2 = Some d ->
  within gm thr a b = num_lt d thr.
Proof.
  intros Ha Hb Hd. unfold within, orientation_of.
  by rewrite Ha, Hb, orientation_error_distance, Hd.
Qed.

Lemma within_inv (gm : Z -> option (list T)) thr a b :
  within gm thr a b = true ->
  exists o1 o2 d, gm a = Some o1 /\ gm b = Some o2 /\
    spec_distance o1 o2 = Some d /\ num_lt d thr = true.
Proof.
  unfold within, orientation_of.
  destruct (gm a) as [o1|]; [|done]. destruct (gm b) as [o2|]; [|done].
  rewrite orientation_error_distance.
  destruct (spec_distance o1 o2) as [d|] eqn:Hd; [|done].
  intros Hlt. by exists o1, o2, d.
Qed.

(** The entries of the merge map hold nothing but later ids within the
    threshold of their key. *)
Lemma merge_map_of_entries (gm : Z -> option (list T)) thr ids k bucket m :
  (k, bucket) ∈ merge_map_of gm thr ids -> m ∈ bucket ->
  exists i j, ids !! i = Some k /\ ids !! j = Some m /\ (i < j)%nat /\
              within gm thr k m = true.
Proof.
  induction ids as [|a rest IH]; simpl; [by intros ?%elem_of_nil|].
  intros Hin Hm.
  assert (Hcase : (k = a /\ bucket = filter (fun id_j => within gm thr a id_j) rest)
                  \/ (k, bucket) ∈ merge_map_of gm thr rest).
  { destruct (filter _ rest) as [|b l] eqn:Hb; [by right|].
    apply elem_of_cons in Hin as [[= -> ->]|?]; [left|right]; done. }
  destruct Hcase as [[-> ->]|Hin'].
  - apply list_elem_of_filter in Hm as [Hw [j Hj]%list_elem_of_lookup].
    exists 0%nat, (S j). split; [done|]. split; [done|]. split; [lia|].
    by destruct (within gm thr a m).
  - destruct (IH Hin' Hm) as (i & j & Hi & Hj & Hij & Hw).
    exists (S i), (S j). split; [done|]. split; [done|]. split; [lia|done].
Qed.

Lemma merge_map_of_keys_sorted (gm : Z -> option (list T)) thr ids :
  StronglySorted Z.lt ids -> StronglySorted Z.lt (merge_map_of gm thr ids).*1.
Proof.
  induction 1 as [|a rest Hrest IH Ha]; simpl; [constructor|].
  destruct (filter _ rest); [done|]. simpl. constructor; [done|].
  rewrite Forall_forall in Ha |- *. intros k Hk%merge_map_of_keys. by apply Ha.
Qed.

Lemma merge_map_of_buckets_sorted (gm : Z -> option (list T)) thr ids k bucket :
  StronglySorted Z.lt ids -> (k, bucket) ∈ merge_map_of gm thr ids ->
  StronglySorted Z.lt bucket.
Proof.
  induction 1 as [|a rest Hrest IH Ha]; simpl; [by intros ?%elem_of_nil|].
  intros Hin.
  assert (Hcase : bucket = filter (fun id_j => within gm thr a id_j) rest
                  \/ (k, bucket) ∈ merge_map_of gm thr rest).
  { destruct (filter _ rest) as [|b l] eqn:Hb; [by right|].
    apply elem_of_cons in Hin as [[= -> ->]|?]; [left|right]; done. }
  destruct Hcase as [->|?]; [|auto]. by apply sorted_lt_filter.
Qed.

Lemma dict_get_elem (d : list (Z * list Z)) k v :
  NoDup d.*1 -> (k, v) ∈ d -> dict_get d k = Ok v.
Proof.
  intros Hnd (pre & suf & ->)%list_elem_of_split. by eapply dict_get_NoDup.
Qed.

End MergeProofs.


(** A draw, with the value it returns. *)
Lemma wp_randint_drawn a b Q w :
  (b < a -> Q (Raise ValueError) w) ->
  (forall k w', randint a b w = (Ok k, w') -> a <= k <= b ->
                store w' = store w -> stdout w' = stdout w -> Q (Ok k) w') ->
  wp (randint a b) Q w.
Proof.
  intros Herr Hok. unfold wp.
  destruct (randint a b w) as [[k|e] w'] eqn:Hrun; simpl.
  - apply Hok; [done|..]; unfold randint in Hrun;
      destruct (Z.ltb_spec b a); try done;
      destruct (rng w) as [|v t]; injection Hrun as <- <-; try done; try lia.
    pose proof (Z.mod_pos_bound (Z.of_nat v) (b - a + 1)). lia.
  - unfold randint in Hrun. destruct (Z.ltb_spec b a); [|by destruct (rng w)].
    injection Hrun as <- <-. auto.
Qed.

(** ** The denoiser, cell by cell *)

Section Clean.
Context `{C : Collaborators} {L : CollaboratorsLaws C}.

Lemma only_at_refl row col g : only_at row col g g.
Proof. by intros r c _. Qed.

Lemma only_at_trans row col g1 g2 g3 :
  only_at row col g1 g2 -> only_at row col g2 g3 -> only_at row col g1 g3.
Proof. intros H1 H2 r c Hrc. by rewrite H2, H1. Qed.

Lemma only_at_set row col g g' v :
  grid_set g row col v = Ok g' -> only_at row col g g'.
Proof.
  intros Hset r c Hrc. rewrite (grid_get_set _ _ _ _ _ _ _ Hset).
  rewrite decide_False; [done|]. intros [-> ->]. done.
Qed.

Lemma save_in_shape x_size y_size row col v Q w :
  in_shape x_size y_size (store w) -> (row < y_size)%nat -> (col < x_size)%nat ->
  (forall g', grid_set (store w) row col v = Ok g' -> in_shape x_size y_size g' ->
              Q (Ok tt) (set_store g' w)) ->
  wp (save row col v) Q w.
Proof.
  intros Hs Hr Hc HQ. apply wp_save.
  destruct (in_shape_set _ _ _ row col v Hs Hr Hc) as (g' & Hset & Hs').
  rewrite Hset. by apply HQ.
Qed.

(** One visit, on a grid of the scanned shape. *)
Lemma clean_pixel_spec x_size y_size row col w :
  in_shape x_size y_size (store w) -> (row < y_size)%nat -> (col < x_size)%nat ->
  let g := store w in
  let p := pixel_at g row col in
  let neighbours := get_neighbours col row x_size y_size in
  let num_void := length (void_neighbours_of g neighbours) in
  wp (clean_pixel x_size y_size row col)
     (fun r w' =>
        stdout w' = stdout w /\
        in_shape x_size y_size (store w') /\ only_at row col g (store w') /\
        if decide (p = VOID_PIXEL_ID /\ (2 * num_void <= length neighbours)%nat)
        then
          match randint 0 (Z.of_nat (length neighbours) - 1) w with
          | (Ok k, _) =>
              exists n, getitem_int neighbours k = Ok n /\ n ∈ neighbours /\
                r = Ok tt /\
                grid_get (store w') row col
                = Ok (cleaned p num_void (length neighbours) (pixel_at g n.2 n.1))
          | (Raise e, _) => r = Raise e /\ store w' = g /\ neighbours = []
          end
        else
          r = Ok tt /\ rng w' = rng w /\
          grid_get (store w') row col
          = Ok (cleaned p num_void (length neighbours) p)) w.
Proof.
  intros Hs Hrow Hcol g p neighbours num_void. subst g. unfold clean_pixel.
  pose proof (in_shape_get _ _ _ _ _ Hs Hrow Hcol) as Hload. fold p in Hload.
  fold neighbours.
  assert (Hvu := void_not_unoriented).
  wp_auto.
  { (* unoriented *)
    do 3 (split; [done || apply only_at_refl|]).
    destruct (decide (p = VOID_PIXEL_ID /\ _)) as [[Hv _]|_]; [congruence|].
    do 2 (split; [done|]). rewrite Hload. f_equal. unfold cleaned.
    by rewrite decide_True. }
  apply (wp_filterM_pure _
    (fun n : coord => bool_decide (pixel_at (store w) n.2 n.1 = VOID_PIXEL_ID))).
  { intros n Hn. unfold bind.
    by rewrite (load_neighbour x_size y_size (store w) w col row n). }
  fold (void_neighbours_of (store w) neighbours). fold num_void.
  wp_auto.
  - (* a void pixel, half or fewer void neighbours: draw *)
    apply andb_prop in E as [Hvoid%bool_decide_eq_true Hhalf%bool_decide_eq_true].
    destruct (decide (p = VOID_PIXEL_ID /\ _)) as [_|Hno]; [|by destruct Hno].
    apply wp_randint_drawn.
    { intros Hempty. unfold randint.
      destruct (Z.ltb_spec (Z.of_nat (length neighbours) - 1) 0) as [_|?]; [|lia].
      do 3 (split; [done || apply only_at_refl|]). do 2 (split; [done|]).
      destruct neighbours; [done|simpl in Hempty; lia]. }
    intros k w1 Hdraw Hk Hst Hout. rewrite Hdraw.
    destruct (getitem_int_drawn neighbours k Hk) as (n & Hn & Hin).
    pose proof (get_neighbours_bounded _ _ _ _ _ Hin) as [Hnx Hny].
    assert (Hloadn : grid_get (store w1) n.2 n.1
                     = Ok (pixel_at (store w) n.2 n.1))
      by (rewrite Hst; by apply (in_shape_get x_size y_size)).
    assert (Hload1 : grid_get (store w1) row col = Ok p) by by rewrite Hst.
    assert (Hs1 : in_shape x_size y_size (store w1)) by by rewrite Hst.
    wp_auto.
    + (* the draw is unoriented: skip *)
      split; [done|]. split; [done|].
      split; [rewrite Hst; apply only_at_refl|].
      exists n. do 3 (split; [done|]). rewrite Hload1. f_equal.
      unfold cleaned. repeat case_decide; try done; lia.
    + apply (save_in_shape x_size y_size); [done..|].
      intros g' Hset Hs'.
      assert (Hnew : grid_get g' row col = Ok (pixel_at (store w) n.2 n.1)).
      { rewrite (grid_get_set _ _ _ _ _ _ _ Hset). by rewrite decide_True. }
      wp_auto.
      * (* a pixel filled on this condition is not voided *)
        apply andb_prop in E as [_ Hlt%bool_decide_eq_true]. lia.
      * split; [done|]. split; [done|].
        split; [rewrite <- Hst; by eapply only_at_set|].
        exists n. do 3 (split; [done|]). cbn [store set_store]. rewrite Hnew. f_equal.
        unfold cleaned. repeat case_decide; try done; lia.
  - (* no draw; more than half of the neighbours are void *)
    apply andb_false_iff in E. apply andb_prop in E0 as [Hlive Hmany].
    apply bool_decide_eq_true in Hlive, Hmany.
    destruct (decide (p = VOID_PIXEL_ID /\ _)) as [[Hv _]|_]; [done|].
    apply (save_in_shape x_size y_size); [done..|].
    intros g' Hset Hs'.
    split; [done|]. split; [done|]. split; [by eapply only_at_set|].
    do 2 (split; [done|]). cbn [store set_store].
    rewrite (grid_get_set _ _ _ _ _ _ _ Hset).
    rewrite decide_True by done. f_equal.
    unfold cleaned. repeat case_decide; try done; lia.
  - (* nothing to do *)
    apply andb_false_iff in E, E0.
    assert (Hnot : ~ (p = VOID_PIXEL_ID /\ (2 * num_void <= length neighbours)%nat)).
    { intros [? ?]. destruct E as [E|E]; by apply bool_decide_eq_false in E. }
    destruct (decide (p = VOID_PIXEL_ID /\ _)) as [?|_]; [done|].
    do 3 (split; [done || apply only_at_refl|]). do 2 (split; [done|]).
    rewrite Hload. f_equal.
    unfold cleaned. repeat case_decide; try done;
      exfalso; destruct E0 as [E0|E0]; apply bool_decide_eq_false in E0;
      auto; unfold num_void in *; lia.
Qed.

(** *** The scan around one cell *)

Lemma for_each_app_Ok {A} (l1 l2 : list A) (body : A -> M unit) w w' :
  for_each (l1 ++ l2) body w = (Ok tt, w') ->
  exists wm, for_each l1 body w = (Ok tt, wm) /\ for_each l2 body wm = (Ok tt, w').
Proof.
  revert w. induction l1 as [|x l1 IH]; intros w; simpl; [eauto|].
  unfold bind at 1. destruct (body x w) as [[[]|e] w1] eqn:Hx; [|done].
  intros (wm & H1 & H2)%IH. exists wm. split; [|done].
  unfold bind. by rewrite Hx.
Qed.

Lemma for_each_cons_Ok {A} (x : A) (l : list A) (body : A -> M unit) w w' :
  for_each (x :: l) body w = (Ok tt, w') ->
  exists wm, body x w = (Ok tt, wm) /\ for_each l body wm = (Ok tt, w').
Proof.
  simpl. unfold bind. destruct (body x w) as [[[]|e] w1]; [eauto|done].
Qed.

Lemma range_split i n :
  (i < n)%nat -> range n = range i ++ i :: seq (S i) (n - S i).
Proof.
  intros Hi. unfold range.
  replace n with (i + S (n - S i))%nat at 1 by lia.
  by rewrite seq_app.
Qed.

(** A run of visits in one row keeps the shape and touches no cell
    outside the visited ones. *)
Lemma clean_cols_frame x_size y_size r cols row col w :
  in_shape x_size y_size (store w) -> (r < y_size)%nat ->
  (forall c, c ∈ cols -> (c < x_size)%nat) ->
  wp (for_each cols (fun c => clean_pixel x_size y_size r c))
     (fun _ w' => in_shape x_size y_size (store w') /\
                  (r ≠ row \/ col ∉ cols ->
                   grid_get (store w') row col = grid_get (store w) row col)) w.
Proof.
  intros Hs Hr Hcols.
  apply wp_for_each with (I := fun w' =>
    in_shape x_size y_size (store w') /\
    (r ≠ row \/ col ∉ cols ->
     grid_get (store w') row col = grid_get (store w) row col)); [done| |done].
  intros c w1 Hc [Hs1 Hf1].
  eapply wp_mono; [|apply clean_pixel_spec; auto].
  cbv zeta. intros res w2 (_ & Hs2 & Honly & _).
  assert (in_shape x_size y_size (store w2) /\
    (r ≠ row \/ col ∉ cols ->
     grid_get (store w2) row col = grid_get (store w) row col)) as Hpost.
  { split; [done|]. intros Hor. rewrite Honly; [by apply Hf1|].
    intros [= -> ->]. destruct Hor as [?|?]; done. }
  by destruct res.
Qed.

Lemma clean_rows_frame x_size y_size rows row col w :
  in_shape x_size y_size (store w) ->
  (forall r, r ∈ rows -> (r < y_size)%nat) ->
  wp (for_each rows (fun r =>
        for_each (range x_size) (fun c => clean_pixel x_size y_size r c)))
     (fun _ w' => in_shape x_size y_size (store w') /\
                  (row ∉ rows ->
                   grid_get (store w') row col = grid_get (store w) row col)) w.
Proof.
  intros Hs Hrows.
  apply wp_for_each with (I := fun w' =>
    in_shape x_size y_size (store w') /\
    (row ∉ rows ->
     grid_get (store w') row col = grid_get (store w) row col)); [done| |done].
  intros r w1 Hr [Hs1 Hf1].
  eapply wp_mono;
    [|apply (clean_cols_frame x_size y_size r (range x_size) row col); auto].
  - intros res w2 [Hs2 Hf2].
    assert (in_shape x_size y_size (store w2) /\
      (row ∉ rows ->
       grid_get (store w2) row col = grid_get (store w) row col)) as Hpost.
    { split; [done|]. intros Hnot. rewrite Hf2; [by apply Hf1|].
      left. intros ->. done. }
    by destruct res.
  - intros c. by apply elem_of_range.
Qed.

(** In a pass that returns, the scan reaches every cell, and the value
    the visit leaves in the cell is its value in the result. *)
Lemma clean_pixel_grid_visit w0 row0 g' row col :
  rectangular (store w0) -> store w0 !! 0%nat = Some row0 ->
  (clean_pixel_grid w0).1 = Ok g' ->
  (row < length (store w0))%nat -> (col < length row0)%nat ->
  let x_size := length row0 in
  let y_size := length (store w0) in
  exists w1 w2,
    scan_before x_size y_size row col w0 = (Ok tt, w1) /\
    in_shape x_size y_size (store w1) /\
    grid_get (store w1) row col = grid_get (store w0) row col /\
    clean_pixel x_size y_size row col w1 = (Ok tt, w2) /\
    grid_get g' row col = grid_get (store w2) row col.
Proof.
  intros Hrect H0 Hrun Hrow Hcol x_size y_size.
  pose proof (rectangular_in_shape _ _ Hrect H0) as Hs0. fold x_size y_size in Hs0.
  unfold clean_pixel_grid in Hrun.
  unfold bind at 1, len_row0 at 1, getitem in Hrun. rewrite H0 in Hrun.
  unfold bind at 1, len_grid at 1 in Hrun. fold x_size y_size in Hrun.
  unfold bind at 1 in Hrun.
  destruct (for_each (range y_size) _ w0) as [[[]|e] w3] eqn:Hscan; [|done].
  injection Hrun as <-.
  rewrite (range_split row y_size Hrow) in Hscan.
  apply for_each_app_Ok in Hscan as (wa & Habove & Hscan).
  apply for_each_cons_Ok in Hscan as (wb & Hthis & Hbelow).
  rewrite (range_split col x_size Hcol) in Hthis.
  apply for_each_app_Ok in Hthis as (w1 & Hleft & Hthis).
  apply for_each_cons_Ok in Hthis as (w2 & Hvisit & Hright).
  (* shapes along the scan *)
  pose proof (clean_rows_frame x_size y_size (range row) row col w0 Hs0) as Ha.
  unfold wp in Ha. rewrite Habove in Ha. destruct Ha as [Hsa Hfa].
  { intros r Hr%elem_of_range. lia. }
  pose proof (clean_cols_frame x_size y_size row (range col) row col wa Hsa Hrow) as Hl.
  unfold wp in Hl. rewrite Hleft in Hl. destruct Hl as [Hs1 Hf1].
  { intros c Hc%elem_of_range. lia. }
  pose proof (clean_pixel_spec x_size y_size row col w1 Hs1 Hrow Hcol) as Hv.
  cbv zeta in Hv. unfold wp in Hv. rewrite Hvisit in Hv.
  destruct Hv as (_ & Hs2 & _).
  pose proof (clean_cols_frame x_size y_size row (seq (S col) (x_size - S col))
                row col w2 Hs2 Hrow) as Hr.
  unfold wp in Hr. rewrite Hright in Hr. destruct Hr as [Hsb Hfb].
  { intros c Hc%elem_of_seq. lia. }
  pose proof (clean_rows_frame x_size y_size (seq (S row) (y_size - S row))
                row col wb Hsb) as Hb.
  unfold wp in Hb. rewrite Hbelow in Hb. destruct Hb as [_ Hf3].
  { intros r Hr%elem_of_seq. lia. }
  exists w1, w2. split; [|split; [done|split; [|split; [done|]]]].
  - unfold scan_before, bind. by rewrite Habove.
  - simpl in Hfa, Hf1. rewrite Hf1, Hfa; [done| |].
    + intros Hr%elem_of_range. lia.
    + right. intros Hc%elem_of_range. lia.
  - simpl in Hf3, Hfb. rewrite Hf3, Hfb; [done| |].
    + right. intros Hc%elem_of_seq. lia.
    + intros Hc%elem_of_seq. lia.
Qed.

End Clean.


(** ** Counting pixels *)

Section Counts.
Context `{C : Collaborators} {L : CollaboratorsLaws C}.

Lemma fills_count_row (P : Z -> Prop) `{forall v, Decision (P v)} row row' :
  (forall v, P v -> v ≠ VOID_PIXEL_ID) ->
  Forall2 fills row row' ->
  (length (filter P row) <= length (filter P row'))%nat.
Proof.
  intros HP. induction 1 as [|v v' row row' Hv _ IH]; [done|].
  rewrite !filter_cons. destruct (decide (P v)) as [Hpv|_].
  - rewrite (Hv (HP _ Hpv)). rewrite decide_True by done. simpl. lia.
  - destruct (decide (P v')); simpl; lia.
Qed.

Lemma fills_count (P : Z -> Prop) `{forall v, Decision (P v)} (g g' : grid) :
  (forall v, P v -> v ≠ VOID_PIXEL_ID) ->
  Forall2 (Forall2 fills) g g' ->
  (length (filter P (concat g)) <= length (filter P (concat g')))%nat.
Proof.
  intros HP. induction 1 as [|row row' g g' Hrow _ IH]; [done|].
  simpl. rewrite !filter_app, !length_app.
  pose proof (fills_count_row P row row' HP Hrow). lia.
Qed.

Lemma live_copied_fills (g padded : grid) :
  shape padded = shape g -> live_copied g padded (fun _ _ => True) ->
  Forall2 (Forall2 fills) g padded.
Proof.
  intros Hs Hcopied. apply Forall2_same_length_lookup. split.
  { apply (f_equal length) in Hs. unfold shape in Hs.
    by rewrite !length_fmap in Hs. }
  intros r row row' Hrow Hrow'.
  apply Forall2_same_length_lookup. split.
  { apply (f_equal (fun s => s !! r)) in Hs. unfold shape in Hs.
    rewrite !list_lookup_fmap, Hrow, Hrow' in Hs. by injection Hs. }
  intros c v v' Hv Hv' Hlive.
  assert (Hget : grid_get padded r c = Ok v).
  { apply Hcopied; [done| |done]. apply grid_get_Ok. eauto. }
  apply grid_get_Ok in Hget as (row'' & Hrow'' & Hv''). congruence.
Qed.

End Counts.


(** ** The properties of the passes *)

Section Properties.
Context `{C : Collaborators} {L : CollaboratorsLaws C}.

Lemma set_iter_nil : set_iter [] = [].
Proof.
  destruct (set_iter []) as [|x l] eqn:E; [done|].
  assert (Hx : x ∈ set_iter []) by (rewrite E; by left).
  apply (proj1 (set_iter_elem _ _)) in Hx. by apply elem_of_nil in Hx.
Qed.

Lemma id_list_nil : (get_sorted_grain_id_list []).1 = [].
Proof.
  unfold get_sorted_grain_id_list. simpl. rewrite set_iter_nil.
  unfold py_in. by rewrite bool_decide_eq_false_2 by by intros ?%elem_of_nil.
Qed.

(** C1 (as amended).  In the three pixel-level passes an unoriented
    pixel keeps its value and its place: [clean_pixel_grid] and
    [smoothen_edges] leave it as it is in the caller's grid, which is the
    grid they return, whether they return or raise; [pad_edges] on a
    rectangular grid returns a grid with the same value in the same
    cell.  Nothing is said of [remove_small_grains] and [merge_grains],
    which go by grain id. *)
Theorem unoriented_pixels_kept (w : world) (r c : nat) :
  rectangular (store w) ->
  grid_get (store w) r c = Ok UNORIENTED_PIXEL_ID ->
  (grid_get (store (clean_pixel_grid w).2) r c = Ok UNORIENTED_PIXEL_ID /\
   forall g, (clean_pixel_grid w).1 = Ok g ->
             grid_get g r c = Ok UNORIENTED_PIXEL_ID) /\
  (grid_get (store (smoothen_edges w).2) r c = Ok UNORIENTED_PIXEL_ID /\
   forall g, (smoothen_edges w).1 = Ok g ->
             grid_get g r c = Ok UNORIENTED_PIXEL_ID) /\
  (exists g, (pad_edges w).1 = Ok g /\
             grid_get g r c = Ok UNORIENTED_PIXEL_ID).
Proof.
  intros Hrect Hu. split; [|split].
  - destruct (clean_pixel_grid_keeps w) as [Hk Hret]. split; [by apply Hk|].
    intros g Hg. rewrite (Hret g Hg). by apply Hk.
  - destruct (smoothen_edges_keeps w) as [Hk Hret]. split; [by apply Hk|].
    intros g Hg. rewrite (Hret g Hg). by apply Hk.
  - destruct (store w !! 0%nat) as [row0|] eqn:H0.
    + destruct (pad_edges_spec w row0 Hrect H0) as (_ & _ & g & Hg & _ & Hcopied).
      exists g. split; [done|]. apply Hcopied; [done..|].
      intros Heq. by apply void_not_unoriented.
    + apply grid_get_Ok in Hu as (row & Hrow & _).
      apply lookup_ge_None in H0. apply lookup_lt_Some in Hrow. lia.
Qed.

(** C7 (as amended).  On a rectangular grid with a first row,
    [pad_edges] returns a grid of the same shape and leaves the caller's
    grid alone.  Every non-void pixel of the input, unoriented or not,
    is in the result in the same cell, so the result has at least as
    many non-void pixels and at least as many unoriented pixels as the
    input. *)
Theorem pad_edges_counts (w : world) (row0 : list Z) :
  rectangular (store w) -> store w !! 0%nat = Some row0 ->
  exists padded,
    (pad_edges w).1 = Ok padded /\
    store (pad_edges w).2 = store w /\
    shape padded = shape (store w) /\
    (forall r c v, grid_get (store w) r c = Ok v -> v ≠ VOID_PIXEL_ID ->
                   grid_get padded r c = Ok v) /\
    (count_live (store w) <= count_live padded)%nat /\
    (count_unoriented (store w) <= count_unoriented padded)%nat.
Proof.
  intros Hrect H0.
  destruct (pad_edges_spec w row0 Hrect H0) as (Hst & _ & g & Hg & Hs & Hcopied).
  exists g. do 3 (split; [done|]).
  split; [intros r c v; by apply Hcopied|].
  pose proof (live_copied_fills _ _ Hs Hcopied) as Hfills.
  split; [by apply fills_count|].
  apply fills_count; [|done]. intros v ->. intros Heq. by apply void_not_unoriented.
Qed.

(** Whatever the small-grain remover returns holds only values of the
    input, none of them a grain under the threshold. *)
Lemma remove_small_grains_values (threshold : Z) (w : world) (g' : grid) (v : Z) :
  rectangular (store w) ->
  (remove_small_grains threshold w).1 = Ok g' ->
  v ∈ concat g' ->
  v ∈ concat (store w) /\
  (v ≠ VOID_PIXEL_ID -> threshold <= Z.of_nat (py_count (concat (store w)) v)).
Proof.
  intros Hrect Hrun Hv.
  destruct (store w !! 0%nat) as [row0|] eqn:H0.
  - rewrite (remove_small_grains_run threshold w row0 Hrect H0) in Hrun.
    cbv zeta in Hrun. cbn [fst] in Hrun.
    destruct (remove_loop _ _ _ _ _ _) as [[[]|e] g1] eqn:Hloop; [|done].
    injection Hrun as ->.
    destruct (remove_loop_values _ _ _ _ _ _ _ v
                (rectangular_in_shape _ _ Hrect H0) Hloop Hv) as [Hin Hcount].
    split; [done|]. intros Hlive. apply Hcount. by apply id_list_elem.
  - unfold remove_small_grains, bind, the_grid, len_row0, getitem in Hrun.
    destruct (get_sorted_grain_id_list (store w)). by rewrite H0 in Hrun.
Qed.

(** C8.  In what [remove_small_grains grid threshold] returns on a
    rectangular grid, every value other than void was a value of the
    input and its pixel count in the input, taken before any
    reassignment, reaches the threshold.  So no grain id under the
    threshold is left at all, absorption target or not. *)
Theorem small_grains_removed (threshold : Z) (w : world) (g' : grid) (v : Z) :
  rectangular (store w) ->
  (remove_small_grains threshold w).1 = Ok g' ->
  v ∈ concat g' -> v ≠ VOID_PIXEL_ID ->
  v ∈ concat (store w) /\
  threshold <= Z.of_nat (py_count (concat (store w)) v).
Proof.
  intros Hrect Hrun Hv Hlive.
  destruct (remove_small_grains_values threshold w g' v Hrect Hrun Hv). auto.
Qed.

(** C3 (as amended).  [remove_small_grains] on a rectangular grid is
    the loop [remove_loop] over the id list, with the counts taken from
    the grid flattened before the loop.  An id whose precomputed count
    reaches the threshold is skipped.  For any other id, the pixels that
    hold it now are all set to [m], a most frequent value of the halo of
    those pixels; among several most frequent values [m] is the first in
    the iteration order of the set of halo values.  With an empty halo
    the call raises [ValueError] and the grid stays as it was. *)
Theorem small_grain_replacement (threshold : Z) (w : world) (row0 : list Z) :
  rectangular (store w) -> store w !! 0%nat = Some row0 ->
  let x_size := length row0 in
  let y_size := length (store w) in
  let flattened := concat (store w) in
  let loop := remove_loop flattened threshold x_size y_size in
  (remove_small_grains threshold w
   = (match (loop (get_sorted_grain_id_list (store w)).1 (store w)).1 with
      | Ok _ => Ok (loop (get_sorted_grain_id_list (store w)).1 (store w)).2
      | Raise e => Raise e
      end,
      set_store (loop (get_sorted_grain_id_list (store w)).1 (store w)).2 w)) /\
  forall (id : Z) (rest : list Z) (g : grid),
    (threshold <= Z.of_nat (py_count flattened id) ->
     loop (id :: rest) g = loop rest g) /\
    (Z.of_nat (py_count flattened id) < threshold ->
     match most_neighbouring_of (halo_ids g id x_size y_size) with
     | Ok m =>
         is_mode (halo_ids g id x_size y_size) m /\
         first_max (py_count (halo_ids g id x_size y_size))
                   (set_iter (halo_ids g id x_size y_size)) m /\
         loop (id :: rest) g = loop rest (relabel id m g)
     | Raise e =>
         halo_ids g id x_size y_size = [] /\
         loop (id :: rest) g = (Raise ValueError, g)
     end).
Proof.
  intros Hrect H0. cbv zeta. split.
  - apply (remove_small_grains_run threshold w row0 Hrect H0).
  - intros id rest g. simpl. split.
    + intros Hskip. by rewrite decide_True.
    + intros Hsmall. rewrite decide_False by lia. unfold absorb.
      pose proof (most_neighbouring_of_spec (halo_ids g id (length row0)
                    (length (store w)))) as Hm.
      destruct (most_neighbouring_of _) as [m|e].
      * destruct Hm as [Hmode Hfirst]. done.
      * destruct Hm as [-> Hnil]. done.
Qed.

Section MergeProperties.
Context {T : Type} `{N : PyNum T}.

(** C2 (as amended).  No pass validates its input.  On an empty grid
    the four passes that read [pixel_grid[0]] raise [IndexError] before
    any write, and [merge_grains] returns the empty grid and prints its
    summary.  A non-positive threshold is accepted:
    [remove_small_grains] then returns a rectangular grid unchanged. *)
Theorem unvalidated_input (w : world) :
  (store w = [] ->
   clean_pixel_grid w = (Raise IndexError, w) /\
   smoothen_edges w = (Raise IndexError, w) /\
   pad_edges w = (Raise IndexError, w) /\
   (forall threshold, remove_small_grains threshold w = (Raise IndexError, w)) /\
   (forall (gm : Z -> option (list T)) thr,
      merge_grains gm thr w = (Ok [], set_stdout (stdout w ++ report 0 0) w))) /\
  (forall threshold row0,
     rectangular (store w) -> store w !! 0%nat = Some row0 -> threshold <= 0 ->
     remove_small_grains threshold w = (Ok (store w), w)).
Proof.
  split.
  - intros Hempty.
    assert (Hrow : len_row0 w = (Raise IndexError, w))
      by (unfold len_row0; by rewrite Hempty).
    repeat split.
    + unfold clean_pixel_grid, bind. by rewrite Hrow.
    + unfold smoothen_edges, bind. by rewrite Hrow.
    + unfold pad_edges, bind. by rewrite Hrow.
    + intros threshold. unfold remove_small_grains. unfold bind at 1, the_grid at 1.
      destruct (get_sorted_grain_id_list (store w)). unfold bind. by rewrite Hrow.
    + intros gm thr. rewrite merge_grains_run. cbv zeta.
      rewrite Hempty, id_list_nil.
      change (identify_merges gm thr [] w) with (Ok (@nil (Z * list Z)), w).
      cbn [fst]. change (apply_merges [] [] w) with (Ok (@nil (list Z)), w).
      cbn [fst]. by rewrite id_list_nil.
  - intros threshold row0 Hrect H0 Hthr.
    rewrite (remove_small_grains_run threshold w row0 Hrect H0). cbv zeta.
    rewrite remove_loop_skip by (intros; lia). simpl. by destruct w.
Qed.

(** C5 (as amended).  [merge_grains] returns the grid alone.  When it
    returns it has printed three lines: a rule, the line "Merged from
    [before] grains to [after] grains" with the lengths of the id lists
    of the input and of the result, and a rule.  When it raises it has
    printed nothing. *)
Theorem merge_grains_prints_summary (gm : Z -> option (list T)) (thr : T)
    (w : world) :
  match (merge_grains gm thr w).1 with
  | Ok g' =>
      (merge_grains gm thr w).2
      = set_stdout
          (stdout w ++ [rule;
                        summary (length (get_sorted_grain_id_list (store w)).1)
                                (length (get_sorted_grain_id_list g').1);
                        rule]) w
  | Raise _ => (merge_grains gm thr w).2 = w
  end.
Proof.
  rewrite merge_grains_run. cbv zeta.
  destruct (identify_merges _ _ _ w).1 as [mm|e]; [|done].
  by destruct (apply_merges mm (store w) w).1 as [g'|e].
Qed.

(** C9.  The grid [merge_grains] returns has at most as many distinct
    grain ids as the input grid. *)
Theorem merge_grains_count (gm : Z -> option (list T)) (thr : T)
    (w : world) (g' : grid) :
  (merge_grains gm thr w).1 = Ok g' ->
  (length (get_sorted_grain_id_list g').1
   <= length (get_sorted_grain_id_list (store w)).1)%nat.
Proof.
  rewrite merge_grains_run. cbv zeta.
  destruct (identify_merges _ _ _ w).1 as [mm|e] eqn:Hmm; [|done].
  destruct (apply_merges mm (store w) w).1 as [g1|e] eqn:Hg1; [|done].
  intros [= ->]. apply submseteq_length, NoDup_submseteq; [apply id_list_NoDup|].
  intros v [Hv Hlive]%id_list_elem. apply id_list_elem.
  destruct (apply_merges_values _ _ _ _ _ Hg1 Hv) as [?|Hkey]; [done|].
  apply (identify_merges_keys _ _ _ _ _ Hmm), id_list_elem in Hkey. done.
Qed.

(** A merge map is only returned once the orientation of every id of
    the list was found in the grain map. *)
Lemma identify_merges_looks_up (gm : Z -> option (list T)) thr ids w mm id :
  (identify_merges gm thr ids w).1 = Ok mm -> id ∈ ids -> is_Some (gm id).
Proof.
  intros Hrun Hid. revert mm Hrun id Hid.
  enough (Hwp : wp (identify_merges gm thr ids)
    (fun r _ => forall mm, r = Ok mm -> forall id, id ∈ ids -> is_Some (gm id)) w)
    by (intros mm Hr; exact (Hwp mm Hr)).
  unfold identify_merges.
  apply wp_for_acc with (I := fun done (_ : list (Z * list Z)) _ =>
    forall i id, i ∈ done -> ids !! i = Some id -> is_Some (gm id)).
  - intros i id Hi. by apply elem_of_nil in Hi.
  - intros done i todo mm1 w1 _ Hdone. wp_auto; try done.
    assert (Hnext : forall j id, j ∈ done ++ [i] -> ids !! j = Some id ->
                                 is_Some (gm id)).
    { intros j id [Hj|Hj]%elem_of_app; [intros ?; by eapply Hdone|].
      apply list_elem_of_singleton in Hj as ->. intros Hid.
      apply getitem_Ok in E. rewrite E in Hid. injection Hid as <-.
      unfold orientation_of in E0. by destruct (gm a). }
    apply wp_for_acc with (I := fun _ (_ : list (Z * list Z)) _ => True);
      [done| |done].
    intros done' j todo' mm2 w2 _ _. wp_auto; try done.
    by destruct (record_merge _ _ _).
  - intros mm1 w1 Hall mm' _ id [i Hi]%list_elem_of_lookup.
    apply (Hall i); [|done]. apply elem_of_range. by eapply lookup_lt_Some.
Qed.

(** C10.  [get_sorted_grain_id_list] holds exactly the values of the
    grid other than void.  So an unoriented pixel in the grid puts the
    unoriented sentinel in the id list, and [remove_small_grains] treats
    it as any grain.  Its pixels are counted against the threshold: on a
    rectangular grid with at least [threshold] unoriented pixels every
    one of them is still unoriented after the call; with fewer, and no
    other grain under the threshold, the call returns the grid in which
    every unoriented pixel is replaced by the most frequent value [m]
    around them, which is not the sentinel; whenever the call returns
    with fewer unoriented pixels than the threshold, none is left.
    [merge_grains] looks the orientation of the sentinel up in the grain
    map: it raises, having changed nothing, when the map has none. *)
Theorem unoriented_is_a_grain (gm : Z -> option (list T)) (thr : T)
    (threshold : Z) (w : world) :
  (forall v, v ∈ (get_sorted_grain_id_list (store w)).1
             <-> v ∈ concat (store w) /\ v ≠ VOID_PIXEL_ID) /\
  (UNORIENTED_PIXEL_ID ∈ concat (store w) ->
   UNORIENTED_PIXEL_ID ∈ (get_sorted_grain_id_list (store w)).1 /\
   (rectangular (store w) ->
    threshold <= Z.of_nat (py_count (concat (store w)) UNORIENTED_PIXEL_ID) ->
    forall r c, grid_get (store w) r c = Ok UNORIENTED_PIXEL_ID ->
      grid_get (store (remove_small_grains threshold w).2) r c
      = Ok UNORIENTED_PIXEL_ID) /\
   (forall row0 m, rectangular (store w) -> store w !! 0%nat = Some row0 ->
      Z.of_nat (py_count (concat (store w)) UNORIENTED_PIXEL_ID) < threshold ->
      (forall id, id ∈ concat (store w) -> id ≠ VOID_PIXEL_ID ->
         id ≠ UNORIENTED_PIXEL_ID ->
         threshold <= Z.of_nat (py_count (concat (store w)) id)) ->
      most_neighbouring_of
        (halo_ids (store w) UNORIENTED_PIXEL_ID (length row0) (length (store w)))
      = Ok m ->
      m ≠ UNORIENTED_PIXEL_ID /\
      remove_small_grains threshold w
      = (Ok (relabel UNORIENTED_PIXEL_ID m (store w)),
         set_store (relabel UNORIENTED_PIXEL_ID m (store w)) w)) /\
   (forall g', rectangular (store w) ->
      Z.of_nat (py_count (concat (store w)) UNORIENTED_PIXEL_ID) < threshold ->
      (remove_small_grains threshold w).1 = Ok g' ->
      UNORIENTED_PIXEL_ID ∉ concat g') /\
   (gm UNORIENTED_PIXEL_ID = None ->
    exists e, merge_grains gm thr w = (Raise e, w))).
Proof.
  split; [intros v; apply id_list_elem|].
  intros Hu.
  assert (Hne : UNORIENTED_PIXEL_ID ≠ VOID_PIXEL_ID)
    by (intros Heq; by apply void_not_unoriented).
  assert (Hid : UNORIENTED_PIXEL_ID ∈ (get_sorted_grain_id_list (store w)).1)
    by by apply id_list_elem.
  split; [done|]. split; [|split; [|split]].
  - intros Hrect Hbig r c Hv.
    destruct (store w !! 0%nat) as [row0|] eqn:H0.
    + rewrite (remove_small_grains_run threshold w row0 Hrect H0). cbv zeta.
      cbn [fst snd store set_store].
      apply remove_loop_frame; [by apply rectangular_in_shape|done|done].
    + apply grid_get_Ok in Hv as (row & Hrow & _).
      apply lookup_ge_None in H0. apply lookup_lt_Some in Hrow. lia.
  - intros row0 m Hrect H0 Hsmall Hothers Hm.
    pose proof (rectangular_in_shape _ _ Hrect H0) as Hs.
    split.
    + pose proof (most_neighbouring_of_spec
                    (halo_ids (store w) UNORIENTED_PIXEL_ID (length row0)
                       (length (store w)))) as Hmode.
      rewrite Hm in Hmode. destruct Hmode as [[Hin _] _].
      by apply (halo_ids_elem _ _ _ _ _ Hs) in Hin as [_ ?].
    + rewrite (remove_small_grains_run threshold w row0 Hrect H0). cbv zeta.
      rewrite (remove_loop_only _ _ _ _ _ UNORIENTED_PIXEL_ID);
        [|apply id_list_NoDup|done| |done].
      * unfold absorb. by rewrite Hm.
      * intros id [Hin Hlive]%id_list_elem Hnu. by apply Hothers.
  - intros g' Hrect Hsmall Hrun Hin.
    destruct (remove_small_grains_values threshold w g' _ Hrect Hrun Hin)
      as [_ Hcount].
    specialize (Hcount Hne). lia.
  - intros Hmissing. rewrite merge_grains_run. cbv zeta.
    destruct (identify_merges _ _ _ w).1 as [mm|e] eqn:Hmm; [|eauto].
    destruct (identify_merges_looks_up _ _ _ _ _ _ Hmm Hid) as [o Ho]. congruence.
Qed.

(** C4.  [merge_grains] never writes to the caller's grid, and its id
    list is ascending without repetition.  The error of line 210 is the
    distance of the specification, [spec_distance]: the sum of the
    absolute differences of the three components.  When every id has an
    orientation of three components, the loops of lines 206-215 return
    a merge map whose keys are in ascending order; for every pair
    [i < j] of the id list at a distance strictly below the threshold
    the entry of [id_i] holds [id_j] (so an id is held by the entry of
    every smaller id it is near to); the entries hold nothing else, and
    each lists its ids in ascending order, the order in which they were
    appended.  On a rectangular grid the loops of lines 218-222 then
    turn the copy into [merged]: the entries are applied in the order of
    the keys, each setting to its key every pixel whose current value
    is in its list, and that grid is returned. *)
Theorem merge_grains_spec (gm : Z -> option (list T)) (thr : T) (w : world) :
  let id_list := (get_sorted_grain_id_list (store w)).1 in
  store (merge_grains gm thr w).2 = store w /\
  (StronglySorted Z.le id_list /\ NoDup id_list) /\
  (forall o1 o2,
     orientation_error o1 o2 = match spec_distance o1 o2 with
                               | Some d => Ok d
                               | None => Raise IndexError
                               end) /\
  (oriented gm id_list ->
   exists merge_map,
     identify_merges gm thr id_list w = (Ok merge_map, w) /\
     StronglySorted Z.lt merge_map.*1 /\
     (forall i j id_i id_j o1 o2 d,
        id_list !! i = Some id_i -> id_list !! j = Some id_j -> (i < j)%nat ->
        gm id_i = Some o1 -> gm id_j = Some o2 ->
        spec_distance o1 o2 = Some d -> num_lt d thr = true ->
        exists bucket, dict_get merge_map id_i = Ok bucket /\ id_j ∈ bucket) /\
     (forall id_i bucket id_j,
        (id_i, bucket) ∈ merge_map -> id_j ∈ bucket ->
        exists i j o1 o2 d,
          id_list !! i = Some id_i /\ id_list !! j = Some id_j /\ (i < j)%nat /\
          gm id_i = Some o1 /\ gm id_j = Some o2 /\
          spec_distance o1 o2 = Some d /\ num_lt d thr = true) /\
     (forall id_i bucket,
        (id_i, bucket) ∈ merge_map -> StronglySorted Z.lt bucket) /\
     (rectangular (store w) ->
      apply_merges merge_map (store w) w = (Ok (merged merge_map (store w)), w) /\
      (merge_grains gm thr w).1 = Ok (merged merge_map (store w)))).
Proof.
  cbv zeta.
  assert (Hle : StronglySorted Z.le (get_sorted_grain_id_list (store w)).1).
  { unfold get_sorted_grain_id_list, py_sort. simpl.
    apply StronglySorted_merge_sort; apply _. }
  pose proof (id_list_NoDup (store w)) as Hnd.
  pose proof (sorted_le_NoDup_lt _ Hle Hnd) as Hlt.
  split; [|split; [done|split; [apply orientation_error_distance|]]].
  - rewrite merge_grains_run. cbv zeta.
    destruct (identify_merges _ _ _ w).1 as [mm|e]; [|done].
    by destruct (apply_merges mm (store w) w).1 as [g'|e].
  - intros Hor.
    exists (merge_map_of gm thr (get_sorted_grain_id_list (store w)).1).
    pose proof (identify_merges_pure gm thr _ w Hor Hnd) as Hid.
    pose proof (merge_map_of_NoDup gm thr _ Hnd) as Hkeys.
    split; [done|]. split; [by apply merge_map_of_keys_sorted|].
    split; [|split; [|split]].
    + intros i j id_i id_j o1 o2 d Hi Hj Hij Ho1 Ho2 Hd Hbelow.
      destruct (merge_map_of_pairs gm thr _ i j id_i id_j Hi Hj Hij)
        as (bucket & Hin & Hb).
      { by rewrite (within_distance gm thr id_i id_j o1 o2 d). }
      exists bucket. split; [by apply dict_get_elem|done].
    + intros id_i bucket id_j Hin Hb.
      destruct (merge_map_of_entries gm thr _ _ _ _ Hin Hb)
        as (i & j & Hi & Hj & Hij & Hw).
      destruct (within_inv gm thr id_i id_j Hw) as (o1 & o2 & d & ? & ? & ? & ?).
      exists i, j, o1, o2, d. done.
    + intros id_i bucket Hin. by eapply merge_map_of_buckets_sorted.
    + intros Hrect.
      assert (Happly : apply_merges
          (merge_map_of gm thr (get_sorted_grain_id_list (store w)).1) (store w) w
          = (Ok (merged (merge_map_of gm thr (get_sorted_grain_id_list (store w)).1)
                   (store w)), w)).
      { destruct (store w !! 0%nat) as [row0|] eqn:H0.
        - apply (apply_merges_pure _ _ row0); [done| |done].
          by apply rectangular_in_shape.
        - destruct (store w) as [|row g] eqn:Hg; [|done].
          rewrite id_list_nil. done. }
      split; [done|].
      rewrite merge_grains_run. cbv zeta. rewrite Hid. cbn [fst]. by rewrite Happly.
Qed.

End MergeProperties.

(** C6 (as amended).  In a pass of [clean_pixel_grid] that returns on a
    rectangular grid, take any cell and the grid [g] as it stands when
    the scan reaches the cell; the pixel of the cell is then still the
    one of the input.  If the pixel is not unoriented and strictly more
    than half of its neighbours are void in [g], the cell is void in
    the result.  If the pixel is void and half or fewer of its
    neighbours are void in [g], one neighbour is drawn among all of
    them, and the cell holds that neighbour's value in the result, so
    is not void, unless the draw lands on an unoriented neighbour or on
    a void one. *)
Theorem clean_pixel_grid_cell (w0 : world) (row0 : list Z) (g' : grid)
    (row col : nat) :
  rectangular (store w0) -> store w0 !! 0%nat = Some row0 ->
  (clean_pixel_grid w0).1 = Ok g' ->
  (row < length (store w0))%nat -> (col < length row0)%nat ->
  let x_size := length row0 in
  let y_size := length (store w0) in
  exists w1,
    scan_before x_size y_size row col w0 = (Ok tt, w1) /\
    pixel_at (store w1) row col = pixel_at (store w0) row col /\
    let g := store w1 in
    let p := pixel_at g row col in
    let neighbours := get_neighbours col row x_size y_size in
    let num_void := length (void_neighbours_of g neighbours) in
    (p ≠ UNORIENTED_PIXEL_ID -> (length neighbours < 2 * num_void)%nat ->
     grid_get g' row col = Ok VOID_PIXEL_ID) /\
    (p = VOID_PIXEL_ID -> (2 * num_void <= length neighbours)%nat ->
     exists k n,
       (randint 0 (Z.of_nat (length neighbours) - 1) w1).1 = Ok k /\
       getitem_int neighbours k = Ok n /\ n ∈ neighbours /\
       (pixel_at g n.2 n.1 ≠ UNORIENTED_PIXEL_ID ->
        pixel_at g n.2 n.1 ≠ VOID_PIXEL_ID ->
        grid_get g' row col = Ok (pixel_at g n.2 n.1) /\
        grid_get g' row col ≠ Ok VOID_PIXEL_ID)).
Proof.
  intros Hrect H0 Hrun Hrow Hcol. cbv zeta.
  destruct (clean_pixel_grid_visit w0 row0 g' row col Hrect H0 Hrun Hrow Hcol)
    as (w1 & w2 & Hbefore & Hs1 & Hsame & Hvisit & Hfinal).
  exists w1. split; [done|]. split; [unfold pixel_at; by rewrite Hsame|].
  pose proof (clean_pixel_spec _ _ row col w1 Hs1 Hrow Hcol) as Hspec.
  cbv zeta in Hspec. unfold wp in Hspec. rewrite Hvisit in Hspec.
  cbn [fst snd] in Hspec. destruct Hspec as (_ & _ & _ & Hcell).
  assert (Hvu := void_not_unoriented).
  rewrite Hfinal. split.
  - intros Hp Hmany.
    destruct (decide (_ /\ _)) as [[_ ?]|_] in Hcell; [lia|].
    destruct Hcell as (_ & _ & ->). f_equal.
    unfold cleaned. repeat case_decide; try done; lia.
  - intros Hp Hhalf.
    destruct (decide (_ /\ _)) as [_|Hno] in Hcell; [|by destruct Hno].
    destruct (randint _ _ w1) as [[k|e] w1'] eqn:Hdraw.
    + destruct Hcell as (n & Hn & Hin & _ & ->).
      exists k, n. do 3 (split; [done|]). intros Hnu Hnv.
      assert (Hval : cleaned (pixel_at (store w1) row col)
                       (length (void_neighbours_of (store w1)
                          (get_neighbours col row (length row0) (length (store w0)))))
                       (length (get_neighbours col row (length row0)
                                  (length (store w0))))
                       (pixel_at (store w1) n.2 n.1)
                     = pixel_at (store w1) n.2 n.1).
      { unfold cleaned. rewrite Hp. repeat case_decide; try done; congruence. }
      rewrite Hval. split; [done|]. congruence.
    + by destruct Hcell as [? _].
Qed.

End Properties.


(** ** Further properties of the passes

    What the code of the six functions shows beyond the claims: fixed
    points, frames, failures and the values and shapes it keeps. *)

(** *** Lists, worlds and loops *)

(** Strictly ascending lists with the same elements are equal. *)
Lemma sorted_lt_ext (l1 l2 : list Z) :
  StronglySorted Z.lt l1 -> StronglySorted Z.lt l2 ->
  (forall x, x ∈ l1 <-> x ∈ l2) -> l1 = l2.
Proof.
  intros H1. revert l2. induction H1 as [|a l1 Hl1 IH Ha]; intros l2 H2 Hext.
  - destruct l2 as [|b l2]; [done|].
    assert (Hb : b ∈ []) by (apply Hext; by left). by apply elem_of_nil in Hb.
  - destruct H2 as [|b l2 Hl2 Hb].
    { assert (Hin : a ∈ []) by (apply Hext; by left). by apply elem_of_nil in Hin. }
    rewrite Forall_forall in Ha, Hb.
    assert (a = b) as <-.
    { assert (Hab : a ∈ b :: l2) by (apply Hext; by left).
      assert (Hba : b ∈ a :: l1) by (apply Hext; by left).
      apply elem_of_cons in Hab as [?|Hab]; [done|].
      apply elem_of_cons in Hba as [?|Hba]; [done|].
      apply Ha in Hba. apply Hb in Hab. lia. }
    f_equal. apply IH; [done|]. intros x. split; intros Hx.
    + assert (Hin : x ∈ a :: l2) by (apply Hext; by right).
      apply elem_of_cons in Hin as [->|?]; [|done]. apply Ha in Hx. lia.
    + assert (Hin : x ∈ a :: l1) by (apply Hext; by right).
      apply elem_of_cons in Hin as [->|?]; [|done]. apply Hb in Hx. lia.
Qed.

Lemma world_eq (w w' : world) :
  store w' = store w -> rng w' = rng w -> stdout w' = stdout w -> w' = w.
Proof. destruct w, w'. simpl. by intros -> -> ->. Qed.

(** A loop whose every iteration leaves the world alone. *)
Lemma for_each_idle {A} (l : list A) (body : A -> M unit) w :
  (forall x, x ∈ l -> body x w = (Ok tt, w)) -> for_each l body w = (Ok tt, w).
Proof.
  induction l as [|x l IH]; intros Hb; simpl; [done|].
  unfold bind. rewrite Hb by left. apply IH. intros y Hy. apply Hb. by right.
Qed.

Lemma getitem_raises {A} (l : list A) i e : getitem l i = Raise e -> e = IndexError.
Proof. unfold getitem. destruct (l !! i); [done|]. by intros [= <-]. Qed.

Lemma grid_get_raises (g : grid) r c e : grid_get g r c = Raise e -> e = IndexError.
Proof.
  unfold grid_get. destruct (getitem g r) eqn:E; [apply getitem_raises|].
  intros [= <-]. by eapply getitem_raises.
Qed.

Lemma randint_raises a b w e w' :
  randint a b w = (Raise e, w') -> e = ValueError /\ b < a.
Proof.
  unfold randint. destruct (Z.ltb_spec b a); [by intros [= <- _]|].
  by destruct (rng w).
Qed.

Lemma NoDup_all_equal (l : list Z) v :
  NoDup l -> (forall x, x ∈ l <-> x = v) -> l = [v].
Proof.
  intros Hnd Hl. destruct l as [|a l].
  - exfalso. assert (Hv : v ∈ []) by by apply Hl. by apply elem_of_nil in Hv.
  - assert (a = v) as -> by (apply Hl; by left).
    destruct l as [|b l]; [done|]. exfalso.
    assert (b = v) as -> by (apply Hl; right; by left).
    apply NoDup_cons in Hnd as [Hnot _]. apply Hnot. by left.
Qed.

Lemma py_count_all_equal (l : list Z) v :
  (forall x, x ∈ l -> x = v) -> py_count l v = length l.
Proof.
  unfold py_count. induction l as [|a l IH]; intros Hl; [done|].
  rewrite filter_cons, decide_True by (apply Hl; by left). simpl.
  f_equal. apply IH. intros x Hx. apply Hl. by right.
Qed.

Section Further.
Context `{C : Collaborators} {L : CollaboratorsLaws C}.

(** *** The id list *)

Lemma id_list_sorted_le g : StronglySorted Z.le (get_sorted_grain_id_list g).1.
Proof.
  unfold get_sorted_grain_id_list, py_sort. simpl.
  apply StronglySorted_merge_sort; apply _.
Qed.

Lemma id_list_strictly_sorted g :
  StronglySorted Z.lt (get_sorted_grain_id_list g).1.
Proof.
  apply sorted_le_NoDup_lt; [apply id_list_sorted_le|apply id_list_NoDup].
Qed.

(** X1.  The id list of [get_sorted_grain_id_list] is strictly
    ascending, and it is a function of the set of the values of the grid
    other than void: two grids that hold the same non-void values have
    the same id list, wherever the pixels are, however often a value
    occurs and in whatever order the set is iterated. *)
Theorem grain_id_list_canonical (g g' : grid) :
  StronglySorted Z.lt (get_sorted_grain_id_list g).1 /\
  ((forall v, v ≠ VOID_PIXEL_ID -> v ∈ concat g <-> v ∈ concat g') ->
   (get_sorted_grain_id_list g).1 = (get_sorted_grain_id_list g').1).
Proof.
  split; [apply id_list_strictly_sorted|]. intros Hsame.
  apply sorted_lt_ext; [apply id_list_strictly_sorted..|].
  intros v. rewrite !id_list_elem. split; intros [Hv Hne]; (split; [|done]);
    by apply (Hsame v Hne).
Qed.

(** *** The small-grain remover *)

(** X2.  [remove_small_grains] on a rectangular grid of which every
    grain has at least [threshold] pixels skips every id (line 164): it
    returns the grid as it is and changes nothing else. *)
Theorem remove_small_grains_fixed_point (threshold : Z) (w : world) (row0 : list Z) :
  rectangular (store w) -> store w !! 0%nat = Some row0 ->
  (forall v, v ∈ concat (store w) -> v ≠ VOID_PIXEL_ID ->
             threshold <= Z.of_nat (py_count (concat (store w)) v)) ->
  remove_small_grains threshold w = (Ok (store w), w).
Proof.
  intros Hrect H0 Hall.
  rewrite (remove_small_grains_run threshold w row0 Hrect H0). cbv zeta.
  rewrite remove_loop_skip.
  - simpl. by destruct w.
  - intros id [Hin Hlive]%id_list_elem. by apply Hall.
Qed.

(** X3.  [remove_small_grains] on a rectangular grid writes only to
    the pixels of the grains under the threshold: a void pixel, and a
    pixel of a grain that has at least [threshold] pixels in the input,
    holds the same value afterwards, in the caller's grid whatever the
    outcome and in the grid returned. *)
Theorem remove_small_grains_frame (threshold : Z) (w : world) (r c : nat) (v : Z) :
  rectangular (store w) ->
  grid_get (store w) r c = Ok v ->
  v = VOID_PIXEL_ID \/ threshold <= Z.of_nat (py_count (concat (store w)) v) ->
  grid_get (store (remove_small_grains threshold w).2) r c = Ok v /\
  forall g', (remove_small_grains threshold w).1 = Ok g' -> grid_get g' r c = Ok v.
Proof.
  intros Hrect Hv Hkeep.
  destruct (store w !! 0%nat) as [row0|] eqn:H0.
  - rewrite (remove_small_grains_run threshold w row0 Hrect H0). cbv zeta.
    cbn [fst snd store set_store].
    assert (Hframe : grid_get
      (remove_loop (concat (store w)) threshold (length row0) (length (store w))
         (get_sorted_grain_id_list (store w)).1 (store w)).2 r c = Ok v).
    { apply remove_loop_frame; [by apply rectangular_in_shape| |done].
      intros [_ Hlive]%id_list_elem. by destruct Hkeep. }
    split; [done|]. intros g'.
    destruct (remove_loop _ _ _ _ _ _).1; [|done]. by intros [= <-].
  - apply grid_get_Ok in Hv as (row & Hrow & _).
    apply lookup_ge_None in H0. apply lookup_lt_Some in Hrow. lia.
Qed.

(** X4.  A grid filled with one grain that is under the threshold: the
    grain has no pixel around it, [max] of line 179 is given an empty
    set, and [remove_small_grains] raises [ValueError] before any
    write. *)
Theorem remove_small_grains_lone_grain (threshold : Z) (w : world)
    (row0 : list Z) (v : Z) :
  rectangular (store w) -> store w !! 0%nat = Some row0 -> row0 ≠ [] ->
  (forall u, u ∈ concat (store w) -> u = v) -> v ≠ VOID_PIXEL_ID ->
  Z.of_nat (length (concat (store w))) < threshold ->
  remove_small_grains threshold w = (Raise ValueError, w).
Proof.
  intros Hrect H0 Hrow0 Hall Hlive Hsmall.
  pose proof (rectangular_in_shape _ _ Hrect H0) as Hs.
  assert (Hv : v ∈ concat (store w)).
  { destruct row0 as [|u row0]; [done|].
    assert (Hu : u ∈ concat (store w)).
    { apply elem_of_grid. exists 0%nat, 0%nat. apply grid_get_Ok. eauto. }
    by rewrite <- (Hall u Hu). }
  assert (Hids : (get_sorted_grain_id_list (store w)).1 = [v]).
  { apply NoDup_all_equal; [apply id_list_NoDup|].
    intros x. rewrite id_list_elem. split; [intros [? _]; auto|].
    by intros ->. }
  assert (Hhalo : halo_ids (store w) v (length row0) (length (store w)) = []).
  { unfold halo_ids.
    destruct (get_all_neighbours _ _ _ _) as [|n ns] eqn:Hn; [done|]. exfalso.
    assert (Hin : n ∈ get_all_neighbours
                    (grain_pixels (store w) v (length row0) (length (store w))).*1
                    (grain_pixels (store w) v (length row0) (length (store w))).*2
                    (length row0) (length (store w))) by (rewrite Hn; by left).
    pose proof (get_all_neighbours_bounded _ _ _ _ _ Hin) as [Hx Hy].
    apply get_all_neighbours_outside in Hin. rewrite zip_fst_snd in Hin.
    apply Hin, grain_pixels_elem. split; [|done].
    apply Hall, elem_of_grid. exists n.2, n.1.
    by apply (in_shape_get (length row0) (length (store w))). }
  rewrite (remove_small_grains_run threshold w row0 Hrect H0). cbv zeta.
  rewrite Hids. simpl. rewrite (py_count_all_equal _ _ Hall).
  rewrite decide_False by lia.
  unfold absorb. rewrite Hhalo. unfold most_neighbouring_of.
  rewrite set_iter_nil. simpl. by destruct w.
Qed.

(** *** Shapes and ids *)

Lemma drawn_from_refl g : drawn_from g g.
Proof. by intros v Hv _. Qed.

Lemma tame_refl g : tame (shape g) g g.
Proof. split; [done|apply drawn_from_refl]. Qed.

Lemma tame_set s g0 g g' r c v :
  tame s g0 g -> (v ≠ VOID_PIXEL_ID -> v ∈ concat g0) ->
  grid_set g r c v = Ok g' -> tame s g0 g'.
Proof.
  intros [Hs Hd] Hv Hset. split.
  - by rewrite (grid_set_shape _ _ _ _ _ Hset).
  - intros u Hu Hne.
    destruct (grid_set_values _ _ _ _ _ _ Hset Hu) as [->|?]; auto.
Qed.

Lemma tame_value s g0 g r c v :
  tame s g0 g -> grid_get g r c = Ok v -> v ≠ VOID_PIXEL_ID -> v ∈ concat g0.
Proof. intros [_ Hd] Hv. apply Hd, elem_of_grid. eauto. Qed.

Lemma wp_save_tame s g0 row col v (Q : res unit -> world -> Prop) w :
  tame s g0 (store w) -> (v ≠ VOID_PIXEL_ID -> v ∈ concat g0) ->
  (forall w', tame s g0 (store w') -> Q (Ok tt) w') ->
  (forall e, Q (Raise e) w) ->
  wp (save row col v) Q w.
Proof.
  intros Ht Hv Hok Herr. apply wp_save.
  destruct (grid_set (store w) row col v) as [g|e] eqn:Hset; [|done].
  apply Hok. simpl. by eapply tame_set.
Qed.

Lemma clean_pixel_tame s g0 x_size y_size row col w :
  tame s g0 (store w) ->
  wp (clean_pixel x_size y_size row col) (fun _ w' => tame s g0 (store w')) w.
Proof.
  intros Ht. unfold clean_pixel.
  wp_auto; try assumption.
  apply wp_readonly; [eauto 10 with readonly|]. intros r _.
  wp_auto; try assumption.
  - apply wp_randint; [done|]. intros _ k t _.
    wp_auto; try assumption.
    eapply wp_save_tame; [eassumption|by eapply tame_value| |done].
    intros w' Ht'. wp_auto; try assumption.
    eapply wp_save_tame; [eassumption|done| |done]. done.
  - eapply wp_save_tame; [eassumption|done| |done]. done.
Qed.

Lemma smoothen_pixel_tame s g0 x_size y_size row col w :
  tame s g0 (store w) ->
  wp (smoothen_pixel x_size y_size row col) (fun _ w' => tame s g0 (store w')) w.
Proof.
  intros Ht. unfold smoothen_pixel.
  wp_auto; try assumption.
  apply wp_readonly; [eauto 10 with readonly|]. intros r _.
  wp_auto; try assumption.
  apply wp_randint; [done|]. intros _ k t _.
  wp_auto; try assumption.
  eapply wp_save_tame; [eassumption|by eapply tame_value| |done]. done.
Qed.

(** The two scans share their loops. *)
Lemma scan_tame (visit : nat -> nat -> nat -> nat -> M unit) w :
  (forall s g0 x_size y_size row col w,
     tame s g0 (store w) ->
     wp (visit x_size y_size row col) (fun _ w' => tame s g0 (store w')) w) ->
  wp (x_size <- len_row0 ;;
      y_size <- len_grid ;;
      for_each (range y_size) (fun row =>
        for_each (range x_size) (fun col => visit x_size y_size row col)) ;;;
      the_grid)
     (fun r w' => tame (shape (store w)) (store w) (store w') /\
                  forall g, r = Ok g -> g = store w') w.
Proof.
  intros Hvisit.
  apply wp_bind, wp_len_row0.
  destruct (getitem (store w) 0) as [row0|e]; cbn [and_then];
    [|split; [apply tame_refl|done]].
  wp_auto.
  apply wp_for_each with (I := fun w' => tame (shape (store w)) (store w) (store w')).
  - apply tame_refl.
  - intros row w1 _ Hk.
    apply wp_for_each with (I := fun w' => tame (shape (store w)) (store w) (store w'));
      [done| |done].
    intros col w2 _ Hk2.
    eapply wp_mono; [|by apply Hvisit].
    intros [[]|e] w3; [done|]. by split.
  - intros w1 Hk. wp_auto. split; [done|]. by intros g [= <-].
Qed.

Lemma clean_pixel_grid_tame w :
  wp clean_pixel_grid
     (fun r w' => tame (shape (store w)) (store w) (store w') /\
                  forall g, r = Ok g -> g = store w') w.
Proof. apply (scan_tame clean_pixel). intros. by apply clean_pixel_tame. Qed.

Lemma smoothen_edges_tame w :
  wp smoothen_edges
     (fun r w' => tame (shape (store w)) (store w) (store w') /\
                  forall g, r = Ok g -> g = store w') w.
Proof. apply (scan_tame smoothen_pixel). intros. by apply smoothen_pixel_tame. Qed.

(** The values a comprehension reads are values of the grid. *)
Lemma mapM_load_values (l : list coord) w ids :
  (mapM (fun n : coord => load n.2 n.1) l w).1 = Ok ids ->
  forall v, v ∈ ids -> v ∈ concat (store w).
Proof.
  revert ids. induction l as [|n l IH]; simpl; intros ids.
  - intros [= <-] v Hv. by apply elem_of_nil in Hv.
  - unfold bind at 1. unfold load at 1. cbn [fst snd].
    destruct (grid_get (store w) n.2 n.1) as [u|e] eqn:Hu; [|done].
    unfold bind at 1.
    destruct (mapM _ l w) as [[us|e] w'] eqn:Hl; [|done]. cbn.
    intros [= <-] v [->|Hv]%elem_of_cons.
    + apply elem_of_grid. eauto.
    + by apply (IH us).
Qed.

Lemma readonly_gather_pixels x_size y_size id : readonly (gather_pixels x_size y_size id).
Proof.
  unfold gather_pixels. apply readonly_for_acc. intros acc row.
  apply readonly_for_acc. intros acc' col.
  apply readonly_bind; [apply readonly_load|]. intros p.
  destruct (decide _); apply readonly_ret.
Qed.

Lemma remove_grain_tame s g0 flattened threshold x_size y_size id w :
  tame s g0 (store w) ->
  wp (remove_grain flattened threshold x_size y_size id)
     (fun _ w' => tame s g0 (store w')) w.
Proof.
  intros Ht. unfold remove_grain.
  wp_auto; try assumption.
  apply wp_readonly; [apply readonly_gather_pixels|]. intros [[x_list y_list]|e] _;
    cbn [and_then]; [|done].
  apply wp_bind.
  apply wp_readonly; [apply readonly_mapM; intros; apply readonly_load|].
  intros [ids|e] Hids; cbn [and_then]; [|done].
  apply wp_bind, wp_lift.
  pose proof (most_neighbouring_of_spec ids) as Hm.
  destruct (most_neighbouring_of ids) as [m|e]; cbn [and_then]; [|done].
  destruct Hm as [[Hin _] _].
  assert (Hz : m ∈ concat (store w)) by by eapply mapM_load_values.
  unfold replace_pixels.
  apply wp_for_each with (I := fun w' => tame s g0 (store w')); [done| |done].
  intros i w1 _ Ht1. wp_auto; try assumption.
  eapply wp_save_tame; [eassumption| |done|done].
  intros Hne. destruct Ht as [_ Hfrom]. by apply Hfrom.
Qed.

Lemma remove_small_grains_tame threshold w :
  wp (remove_small_grains threshold)
     (fun r w' => tame (shape (store w)) (store w) (store w') /\
                  forall g, r = Ok g -> g = store w') w.
Proof.
  unfold remove_small_grains. apply wp_bind, wp_the_grid. cbn [and_then].
  destruct (get_sorted_grain_id_list (store w)) as [id_list flattened].
  apply wp_bind, wp_len_row0.
  destruct (getitem (store w) 0) as [row0|e]; cbn [and_then];
    [|split; [apply tame_refl|done]].
  wp_auto.
  apply wp_for_each with (I := fun w' => tame (shape (store w)) (store w) (store w')).
  - apply tame_refl.
  - intros id w1 _ Ht.
    eapply wp_mono; [|by apply remove_grain_tame].
    intros [[]|e] w3; [done|]. by split.
  - intros w1 Hk. wp_auto. split; [done|]. by intros g [= <-].
Qed.

(** The padder writes to its own grid values it read in the caller's. *)
Lemma pad_pixel_tame s g0 x_size y_size row col padded w :
  store w = g0 -> tame s g0 padded ->
  wp (pad_pixel x_size y_size row padded col)
     (fun r w' => store w' = g0 /\ stdout w' = stdout w /\
                  forall padded', r = Ok padded' -> tame s g0 padded') w.
Proof.
  intros Hg Ht. unfold pad_pixel.
  wp_auto; try done.
  - lazymatch goal with
    | |- context [grid_set padded row col ?v] =>
        destruct (grid_set padded row col v) eqn:Hset; [|done]
    end.
    do 2 (split; [done|]). intros ? [= <-]. eapply tame_set; [done| |done].
    intros _. rewrite <- Hg. apply elem_of_grid. eauto.
  - apply wp_readonly; [eauto 10 with readonly|]. intros r _.
    wp_auto; try done.
    + apply wp_randint; [done|]. intros _ k t _.
      wp_auto; try done.
      lazymatch goal with
      | |- context [grid_set padded row col ?v] =>
          destruct (grid_set padded row col v) eqn:Hset; [|done]
      end.
      do 2 (split; [done|]). intros ? [= <-]. eapply tame_set; [done| |done].
      intros _. rewrite <- Hg. apply elem_of_grid. eauto.
    + do 2 (split; [done|]). by intros ? [= <-].
Qed.

Lemma void_grid_values x_size y_size v :
  v ∈ concat (get_void_pixel_grid x_size y_size) -> v = VOID_PIXEL_ID.
Proof.
  unfold get_void_pixel_grid.
  intros (r & c & (row & Hrow & Hv)%grid_get_Ok)%elem_of_grid.
  apply lookup_replicate in Hrow as [-> _].
  by apply lookup_replicate in Hv as [-> _].
Qed.

Lemma pad_edges_tame w :
  wp pad_edges
     (fun r w' => store w' = store w /\ stdout w' = stdout w /\
        forall padded, r = Ok padded ->
          exists row0, store w !! 0%nat = Some row0 /\
            tame (replicate (length (store w)) (length row0)) (store w) padded) w.
Proof.
  unfold pad_edges.
  apply wp_bind, wp_len_row0.
  destruct (getitem (store w) 0) as [row0|e] eqn:H0; cbn [and_then]; [|done].
  apply getitem_Ok in H0.
  wp_auto.
  set (s := replicate (length (store w)) (length row0)).
  apply wp_for_acc with (I := fun _ padded w' =>
    store w' = store w /\ stdout w' = stdout w /\ tame s (store w) padded).
  - do 2 (split; [done|]). split; [apply shape_void_grid|].
    intros v Hv Hne. by apply void_grid_values in Hv.
  - intros rows row todo padded w1 _ (Hg1 & Ho1 & Ht1).
    apply wp_for_acc with (I := fun _ padded w' =>
      store w' = store w /\ stdout w' = stdout w /\ tame s (store w) padded);
      [done| |done].
    intros cols col todo' padded' w2 _ (Hg2 & Ho2 & Ht2).
    eapply wp_mono; [|by apply (pad_pixel_tame s (store w))].
    intros [p|e] w3 (Hg3 & Ho3 & Hp); [|split; [done|]; split; [congruence|done]].
    split; [done|]. split; [congruence|]. by apply Hp.
  - intros padded w1 (Hg1 & Ho1 & Ht1). do 2 (split; [done|]).
    intros ? [= <-]. eauto.
Qed.

Lemma apply_merges_shape (mm : list (Z * list Z)) (g g' : grid) w :
  (apply_merges mm g w).1 = Ok g' -> shape g' = shape g.
Proof.
  enough (Hwp : wp (apply_merges mm g)
    (fun r _ => forall g', r = Ok g' -> shape g' = shape g) w)
    by (intros Hr; by apply Hwp).
  unfold apply_merges.
  apply wp_for_acc with (I := fun _ g1 _ => shape g1 = shape g); [done| |].
  - intros done id todo g1 w1 _ Hg1. wp_auto.
    apply wp_for_acc with (I := fun _ g2 _ => shape g2 = shape g); [done| |done].
    intros done2 i todo2 g2 w2 _ Hg2. apply wp_bind, wp_len_row0.
    destruct (getitem (store w2) 0); cbn [and_then]; [|done].
    apply wp_for_acc with (I := fun _ g3 _ => shape g3 = shape g); [done| |done].
    intros done3 j todo3 g3 w3 _ Hg3. wp_auto; try done.
    destruct (grid_set g3 i j id) as [g4|e] eqn:Hset; [|done].
    by rewrite (grid_set_shape _ _ _ _ _ Hset).
  - intros g1 w1 Hg1 g'' [= <-]. done.
Qed.

Section AllPasses.
Context {T : Type} `{N : PyNum T}.

(** A merger that returns has built its merge map and applied it. *)
Lemma merge_grains_returns (gm : Z -> option (list T)) (thr : T) w g' :
  (merge_grains gm thr w).1 = Ok g' ->
  exists mm, (identify_merges gm thr (get_sorted_grain_id_list (store w)).1 w).1 = Ok mm /\
             (apply_merges mm (store w) w).1 = Ok g'.
Proof.
  rewrite merge_grains_run. cbv zeta.
  destruct (identify_merges _ _ _ w).1 as [mm|e] eqn:Hmm; [|done].
  destruct (apply_merges mm (store w) w).1 as [g1|e] eqn:Hg1; [|done].
  cbn. intros [= <-]. eauto.
Qed.

(** X5.  No pass changes the shape of a grid, whatever the grid:
    [clean_pixel_grid], [smoothen_edges] and [remove_small_grains] leave
    the caller's grid with the row lengths it had, also when they raise,
    and the grid they return has these row lengths; so has the grid
    [merge_grains] returns. *)
Theorem passes_keep_the_shape (threshold : Z) (gm : Z -> option (list T))
    (thr : T) (w : world) :
  (shape (store (clean_pixel_grid w).2) = shape (store w) /\
   forall g', (clean_pixel_grid w).1 = Ok g' -> shape g' = shape (store w)) /\
  (shape (store (smoothen_edges w).2) = shape (store w) /\
   forall g', (smoothen_edges w).1 = Ok g' -> shape g' = shape (store w)) /\
  (shape (store (remove_small_grains threshold w).2) = shape (store w) /\
   forall g', (remove_small_grains threshold w).1 = Ok g' ->
              shape g' = shape (store w)) /\
  (forall g', (merge_grains gm thr w).1 = Ok g' -> shape g' = shape (store w)).
Proof.
  pose proof (clean_pixel_grid_tame w) as [[Hc _] Hc'].
  pose proof (smoothen_edges_tame w) as [[Hs _] Hs'].
  pose proof (remove_small_grains_tame threshold w) as [[Hr _] Hr'].
  repeat split; try done.
  - intros g' Hg'. by rewrite (Hc' _ Hg').
  - intros g' Hg'. by rewrite (Hs' _ Hg').
  - intros g' Hg'. by rewrite (Hr' _ Hg').
  - intros g' (mm & _ & Hg')%merge_grains_returns. by eapply apply_merges_shape.
Qed.

(** X6.  No pass introduces an id, whatever the grid: every value
    other than void in the caller's grid after [clean_pixel_grid],
    [smoothen_edges] or [remove_small_grains] (also when they raise),
    and in the grid [merge_grains] returns, is a value of the input
    grid. *)
Theorem passes_introduce_no_id (threshold : Z) (gm : Z -> option (list T))
    (thr : T) (w : world) :
  drawn_from (store w) (store (clean_pixel_grid w).2) /\
  drawn_from (store w) (store (smoothen_edges w).2) /\
  drawn_from (store w) (store (remove_small_grains threshold w).2) /\
  (forall g', (merge_grains gm thr w).1 = Ok g' -> drawn_from (store w) g').
Proof.
  pose proof (clean_pixel_grid_tame w) as [[_ Hc] _].
  pose proof (smoothen_edges_tame w) as [[_ Hs] _].
  pose proof (remove_small_grains_tame threshold w) as [[_ Hr] _].
  repeat split; try done.
  intros g' (mm & Hmm & Hg')%merge_grains_returns v Hv Hne.
  destruct (apply_merges_values _ _ _ _ _ Hg' Hv) as [?|Hk]; [done|].
  by apply (identify_merges_keys _ _ _ _ _ Hmm), id_list_elem in Hk as [? _].
Qed.

End AllPasses.

(** X7.  [pad_edges] on any grid leaves the caller's grid and the
    console alone; the grid it returns has as many rows as the input,
    each as long as the first row of the input (longer rows of a ragged
    input are cut), and holds no value other than void that the input
    does not hold. *)
Theorem pad_edges_output (w : world) :
  store (pad_edges w).2 = store w /\
  stdout (pad_edges w).2 = stdout w /\
  forall padded, (pad_edges w).1 = Ok padded ->
    exists row0, store w !! 0%nat = Some row0 /\
      in_shape (length row0) (length (store w)) padded /\
      drawn_from (store w) padded.
Proof.
  pose proof (pad_edges_tame w) as (Hstore & Hout & Hp).
  do 2 (split; [done|]). intros padded Hpad.
  destruct (Hp _ Hpad) as (row0 & H0 & Hshape & Hfrom). eauto.
Qed.

(** *** Unoriented pixels are never made *)

(** A write of a value other than the unoriented sentinel makes no
    pixel unoriented. *)
Lemma confined_set g0 g g' r c v :
  keeps_unoriented g g0 -> v ≠ UNORIENTED_PIXEL_ID ->
  grid_set g r c v = Ok g' -> keeps_unoriented g' g0.
Proof.
  intros Hk Hv Hset r' c'. rewrite (grid_get_set _ _ _ _ _ _ _ Hset).
  case_decide as Hrc; [|apply Hk]. by intros [= ->].
Qed.

Lemma wp_save_confined g0 row col v (Q : res unit -> world -> Prop) w :
  keeps_unoriented (store w) g0 -> v ≠ UNORIENTED_PIXEL_ID ->
  (forall w', keeps_unoriented (store w') g0 -> Q (Ok tt) w') ->
  (forall e, Q (Raise e) w) ->
  wp (save row col v) Q w.
Proof.
  intros Hk Hv Hok Herr. apply wp_save.
  destruct (grid_set (store w) row col v) as [g|e] eqn:Hset; [|done].
  apply Hok. simpl. by eapply confined_set.
Qed.

Lemma clean_pixel_confined g0 x_size y_size row col w :
  keeps_unoriented (store w) g0 ->
  wp (clean_pixel x_size y_size row col)
     (fun _ w' => keeps_unoriented (store w') g0) w.
Proof.
  intros Hk. unfold clean_pixel.
  assert (Hvu := void_not_unoriented).
  wp_auto; try assumption.
  apply wp_readonly; [eauto 10 with readonly|]. intros r _.
  wp_auto; try assumption.
  - apply wp_randint; [done|]. intros _ k t _.
    wp_auto; try assumption.
    eapply wp_save_confined; [eassumption|done| |done].
    intros w' Hk'. wp_auto; try assumption.
    eapply wp_save_confined; [eassumption|done| |done]. done.
  - eapply wp_save_confined; [eassumption|done| |done]. done.
Qed.

Lemma smoothen_pixel_confined g0 x_size y_size row col w :
  keeps_unoriented (store w) g0 ->
  wp (smoothen_pixel x_size y_size row col)
     (fun _ w' => keeps_unoriented (store w') g0) w.
Proof.
  intros Hk. unfold smoothen_pixel.
  wp_auto; try assumption.
  apply wp_readonly; [eauto 10 with readonly|]. intros r _.
  wp_auto; try assumption.
  apply wp_randint; [done|]. intros _ k t _.
  wp_auto; try assumption.
  eapply wp_save_confined; [eassumption|done| |done]. done.
Qed.

Lemma scan_confined (visit : nat -> nat -> nat -> nat -> M unit) w :
  (forall g0 x_size y_size row col w,
     keeps_unoriented (store w) g0 ->
     wp (visit x_size y_size row col) (fun _ w' => keeps_unoriented (store w') g0) w) ->
  wp (x_size <- len_row0 ;;
      y_size <- len_grid ;;
      for_each (range y_size) (fun row =>
        for_each (range x_size) (fun col => visit x_size y_size row col)) ;;;
      the_grid)
     (fun r w' => keeps_unoriented (store w') (store w) /\
                  forall g, r = Ok g -> g = store w') w.
Proof.
  intros Hvisit.
  apply wp_bind, wp_len_row0.
  destruct (getitem (store w) 0) as [row0|e]; cbn [and_then];
    [|split; [apply keeps_unoriented_refl|done]].
  wp_auto.
  apply wp_for_each with (I := fun w' => keeps_unoriented (store w') (store w)).
  - apply keeps_unoriented_refl.
  - intros row w1 _ Hk.
    apply wp_for_each with (I := fun w' => keeps_unoriented (store w') (store w));
      [done| |done].
    intros col w2 _ Hk2.
    eapply wp_mono; [|by apply Hvisit].
    intros [[]|e] w3; [done|]. by split.
  - intros w1 Hk. wp_auto. split; [done|]. by intros g [= <-].
Qed.

(** X8.  [clean_pixel_grid] and [smoothen_edges] never turn a pixel
    into an unoriented one (lines 43-44 and 83-84 skip the copy of an
    unoriented neighbour): a pixel that is unoriented afterwards, in the
    caller's grid or in the grid returned, was unoriented in the input,
    whatever the grid and the draws. *)
Theorem unoriented_never_spreads (w : world) (r c : nat) :
  (grid_get (store (clean_pixel_grid w).2) r c = Ok UNORIENTED_PIXEL_ID ->
   grid_get (store w) r c = Ok UNORIENTED_PIXEL_ID) /\
  (grid_get (store (smoothen_edges w).2) r c = Ok UNORIENTED_PIXEL_ID ->
   grid_get (store w) r c = Ok UNORIENTED_PIXEL_ID) /\
  (forall g', (clean_pixel_grid w).1 = Ok g' ->
     grid_get g' r c = Ok UNORIENTED_PIXEL_ID ->
     grid_get (store w) r c = Ok UNORIENTED_PIXEL_ID) /\
  (forall g', (smoothen_edges w).1 = Ok g' ->
     grid_get g' r c = Ok UNORIENTED_PIXEL_ID ->
     grid_get (store w) r c = Ok UNORIENTED_PIXEL_ID).
Proof.
  pose proof (scan_confined clean_pixel w
                (fun g0 x y row col w => clean_pixel_confined g0 x y row col w))
    as [Hc Hc'].
  pose proof (scan_confined smoothen_pixel w
                (fun g0 x y row col w => smoothen_pixel_confined g0 x y row col w))
    as [Hs Hs'].
  fold clean_pixel_grid in Hc, Hc'. fold smoothen_edges in Hs, Hs'.
  split; [apply Hc|]. split; [apply Hs|]. split.
  - intros g' Hg'. rewrite (Hc' _ Hg'). apply Hc.
  - intros g' Hg'. rewrite (Hs' _ Hg'). apply Hs.
Qed.

(** *** The scans, visit by visit *)

(** A grid changed at most at one cell, and not there, is not changed. *)
Lemma only_at_same x_size y_size row col (g g' : grid) :
  in_shape x_size y_size g -> in_shape x_size y_size g' ->
  only_at row col g g' -> grid_get g' row col = grid_get g row col -> g' = g.
Proof.
  intros Hs Hs' Honly Hsame. symmetry. apply grid_ext; [by rewrite Hs, Hs'|].
  intros r c v Hv. destruct (decide ((r, c) = (row, col))) as [[= -> ->]|Hne].
  - by rewrite Hsame.
  - by rewrite Honly.
Qed.

(** The scans of the two pixel passes, when no visit changes anything. *)
Lemma scan_idle (visit : nat -> nat -> nat -> nat -> M unit) w row0 :
  store w !! 0%nat = Some row0 ->
  (forall row col, (row < length (store w))%nat -> (col < length row0)%nat ->
     visit (length row0) (length (store w)) row col w = (Ok tt, w)) ->
  (x_size <- len_row0 ;;
   y_size <- len_grid ;;
   for_each (range y_size) (fun row =>
     for_each (range x_size) (fun col => visit x_size y_size row col)) ;;;
   the_grid) w = (Ok (store w), w).
Proof.
  intros H0 Hvisit.
  unfold bind at 1, len_row0 at 1, getitem. rewrite H0.
  unfold bind at 1, len_grid at 1.
  unfold bind at 1. rewrite for_each_idle; [done|].
  intros row Hrow%elem_of_range. apply for_each_idle.
  intros col Hcol%elem_of_range. by apply Hvisit.
Qed.

Lemma clean_pixel_settled x_size y_size row col w :
  in_shape x_size y_size (store w) -> (row < y_size)%nat -> (col < x_size)%nat ->
  settled (store w) x_size y_size row col ->
  clean_pixel x_size y_size row col w = (Ok tt, w).
Proof.
  intros Hs Hrow Hcol Hsettled.
  pose proof (clean_pixel_spec x_size y_size row col w Hs Hrow Hcol) as Hv.
  cbv zeta in Hv. unfold wp in Hv.
  destruct (clean_pixel x_size y_size row col w) as [r w'].
  cbn [fst snd] in Hv. destruct Hv as (Hout & Hs' & Honly & Hcase).
  pose proof void_not_unoriented as Hvu.
  unfold settled in Hsettled. cbv zeta in Hsettled.
  destruct (decide (_ /\ _)) as [[Hvoid Hhalf]|_].
  { exfalso. destruct Hsettled as [?|[[_ ?]|[? _]]]; [congruence|lia|done]. }
  destruct Hcase as (-> & Hrng & Hcell).
  f_equal. apply world_eq; [|done..].
  apply (only_at_same x_size y_size row col); [done..|].
  rewrite Hcell, (in_shape_get x_size y_size) by done. f_equal.
  unfold cleaned. repeat case_decide; try done.
  destruct Hsettled as [?|[[? _]|[_ ?]]]; [done|done|lia].
Qed.

(** One visit of the smoother, on a grid of the scanned shape. *)
Lemma smoothen_pixel_spec x_size y_size row col w :
  in_shape x_size y_size (store w) -> (row < y_size)%nat -> (col < x_size)%nat ->
  wp (smoothen_pixel x_size y_size row col)
     (fun r w' =>
        r = Ok tt /\ stdout w' = stdout w /\ in_shape x_size y_size (store w') /\
        (smooth (store w) x_size y_size row col -> w' = w)) w.
Proof.
  intros Hs Hrow Hcol. unfold smoothen_pixel.
  pose proof (in_shape_get _ _ _ _ _ Hs Hrow Hcol) as Hload.
  set (p := pixel_at (store w) row col) in *.
  wp_auto.
  { done. }
  apply (wp_filterM_pure _
    (fun n : coord => bool_decide (pixel_at (store w) n.2 n.1 ≠ p))).
  { intros n Hn. unfold bind.
    rewrite (load_neighbour x_size y_size (store w) w col row n) by done.
    unfold load. by rewrite Hload. }
  fold (foreign_neighbours_of (store w) p (get_neighbours col row x_size y_size)).
  set (foreign := foreign_neighbours_of _ _ _).
  wp_auto.
  - apply wp_randint_drawn; [lia|].
    intros k w1 Hdraw Hk Hst Hout.
    destruct (getitem_int_drawn foreign k Hk) as (n & Hn & Hin).
    assert (Hnb : n ∈ get_neighbours col row x_size y_size).
    { unfold foreign, foreign_neighbours_of in Hin.
      by apply list_elem_of_filter in Hin as [_ ?]. }
    pose proof (get_neighbours_bounded _ _ _ _ _ Hnb) as [Hnx Hny].
    assert (Hloadn : grid_get (store w1) n.2 n.1
                     = Ok (pixel_at (store w) n.2 n.1))
      by (rewrite Hst; by apply (in_shape_get x_size y_size)).
    assert (Hs1 : in_shape x_size y_size (store w1)) by by rewrite Hst.
    assert (Hrough : ~ smooth (store w) x_size y_size row col).
    { unfold smooth. cbv zeta. fold p foreign. intros [?|?]; [done|lia]. }
    wp_auto.
    + done.
    + apply (save_in_shape x_size y_size); [done..|].
      intros g' Hset Hs'. done.
  - do 3 (split; [done|]). done.
Qed.

Lemma smoothen_pixel_smooth x_size y_size row col w :
  in_shape x_size y_size (store w) -> (row < y_size)%nat -> (col < x_size)%nat ->
  smooth (store w) x_size y_size row col ->
  smoothen_pixel x_size y_size row col w = (Ok tt, w).
Proof.
  intros Hs Hrow Hcol Hsmooth.
  pose proof (smoothen_pixel_spec x_size y_size row col w Hs Hrow Hcol) as Hv.
  unfold wp in Hv. destruct (smoothen_pixel x_size y_size row col w) as [r w'].
  cbn [fst snd] in Hv. destruct Hv as (-> & _ & _ & Hw). by rewrite (Hw Hsmooth).
Qed.

(** X9.  The fixed points of the denoiser: on a rectangular grid where
    every cell is unoriented, or void with more than half of its
    neighbours void, or live with at most half of them void,
    [clean_pixel_grid] returns the grid as it is, draws no number and
    changes nothing else. *)
Theorem clean_pixel_grid_fixed_point (w : world) (row0 : list Z) :
  rectangular (store w) -> store w !! 0%nat = Some row0 ->
  (forall row col, (row < length (store w))%nat -> (col < length row0)%nat ->
     settled (store w) (length row0) (length (store w)) row col) ->
  clean_pixel_grid w = (Ok (store w), w).
Proof.
  intros Hrect H0 Hsettled. apply (scan_idle clean_pixel w row0 H0).
  intros row col Hrow Hcol. apply clean_pixel_settled; auto.
  by apply rectangular_in_shape.
Qed.

(** X10.  The fixed points of the smoother: on a rectangular grid where
    every cell is unoriented or has at most two neighbours of another
    value, [smoothen_edges] returns the grid as it is, draws no number
    and changes nothing else. *)
Theorem smoothen_edges_fixed_point (w : world) (row0 : list Z) :
  rectangular (store w) -> store w !! 0%nat = Some row0 ->
  (forall row col, (row < length (store w))%nat -> (col < length row0)%nat ->
     smooth (store w) (length row0) (length (store w)) row col) ->
  smoothen_edges w = (Ok (store w), w).
Proof.
  intros Hrect H0 Hsmooth. apply (scan_idle smoothen_pixel w row0 H0).
  intros row col Hrow Hcol. apply smoothen_pixel_smooth; auto.
  by apply rectangular_in_shape.
Qed.

(** X11.  [smoothen_edges] returns on every rectangular grid with a
    first row, whatever the draws: it raises nothing, prints nothing and
    returns the caller's grid as the scan left it. *)
Theorem smoothen_edges_returns (w : world) (row0 : list Z) :
  rectangular (store w) -> store w !! 0%nat = Some row0 ->
  (smoothen_edges w).1 = Ok (store (smoothen_edges w).2) /\
  stdout (smoothen_edges w).2 = stdout w.
Proof.
  intros Hrect H0.
  pose proof (rectangular_in_shape _ _ Hrect H0) as Hs.
  enough (Hwp : wp smoothen_edges
    (fun r w' => r = Ok (store w') /\ stdout w' = stdout w) w) by done.
  unfold smoothen_edges.
  apply wp_bind, wp_len_row0. rewrite (proj2 (getitem_Ok _ 0%nat row0) H0).
  cbn [and_then]. apply wp_bind, wp_len_grid. cbn [and_then].
  apply wp_bind.
  set (I := fun w' : world =>
    in_shape (length row0) (length (store w)) (store w') /\ stdout w' = stdout w).
  apply wp_for_each with (I := I); [done| |].
  - intros row w1 Hrow%elem_of_range HI.
    apply wp_for_each with (I := I); [done| |done].
    intros col w2 Hcol%elem_of_range [Hs2 Ho2].
    eapply wp_mono; [|by apply smoothen_pixel_spec].
    intros r w3 (-> & Ho3 & Hs3 & _). split; [done|congruence].
  - intros w1 [Hs1 Ho1]. cbn [and_then]. by wp_auto.
Qed.

(** *** The smoother, cell by cell *)

Section Visits.
Variable visit : nat -> nat -> nat -> nat -> M unit.
Variables x_size y_size : nat.
Hypothesis visit_frame : forall row col w,
  in_shape x_size y_size (store w) -> (row < y_size)%nat -> (col < x_size)%nat ->
  wp (visit x_size y_size row col)
     (fun _ w' => in_shape x_size y_size (store w') /\
                  only_at row col (store w) (store w')) w.

(** A run of visits in one row keeps the shape and touches no cell
    outside the visited ones. *)
Lemma visits_cols_frame r cols row col w :
  in_shape x_size y_size (store w) -> (r < y_size)%nat ->
  (forall c, c ∈ cols -> (c < x_size)%nat) ->
  wp (for_each cols (fun c => visit x_size y_size r c))
     (fun _ w' => in_shape x_size y_size (store w') /\
                  (r ≠ row \/ col ∉ cols ->
                   grid_get (store w') row col = grid_get (store w) row col)) w.
Proof.
  intros Hs Hr Hcols.
  apply wp_for_each with (I := fun w' =>
    in_shape x_size y_size (store w') /\
    (r ≠ row \/ col ∉ cols ->
     grid_get (store w') row col = grid_get (store w) row col)); [done| |done].
  intros c w1 Hc [Hs1 Hf1].
  eapply wp_mono; [|apply visit_frame; auto].
  intros res w2 (Hs2 & Honly).
  assert (in_shape x_size y_size (store w2) /\
    (r ≠ row \/ col ∉ cols ->
     grid_get (store w2) row col = grid_get (store w) row col)) as Hpost.
  { split; [done|]. intros Hor. rewrite Honly; [by apply Hf1|].
    intros [= -> ->]. destruct Hor as [?|?]; done. }
  by destruct res.
Qed.

Lemma visits_rows_frame rows row col w :
  in_shape x_size y_size (store w) ->
  (forall r, r ∈ rows -> (r < y_size)%nat) ->
  wp (for_each rows (fun r =>
        for_each (range x_size) (fun c => visit x_size y_size r c)))
     (fun _ w' => in_shape x_size y_size (store w') /\
                  (row ∉ rows ->
                   grid_get (store w') row col = grid_get (store w) row col)) w.
Proof.
  intros Hs Hrows.
  apply wp_for_each with (I := fun w' =>
    in_shape x_size y_size (store w') /\
    (row ∉ rows ->
     grid_get (store w') row col = grid_get (store w) row col)); [done| |done].
  intros r w1 Hr [Hs1 Hf1].
  eapply wp_mono;
    [|apply (visits_cols_frame r (range x_size) row col); auto].
  - intros res w2 [Hs2 Hf2].
    assert (in_shape x_size y_size (store w2) /\
      (row ∉ rows ->
       grid_get (store w2) row col = grid_get (store w) row col)) as Hpost.
    { split; [done|]. intros Hnot. rewrite Hf2; [by apply Hf1|].
      left. intros ->. done. }
    by destruct res.
  - intros c. by apply elem_of_range.
Qed.

(** In a scan that returns, every cell is reached, still holding its
    pixel of the input, and the value the visit leaves in the cell is
    its value at the end. *)
Lemma scan_reaches w0 w3 row col :
  in_shape x_size y_size (store w0) ->
  for_each (range y_size) (fun r =>
    for_each (range x_size) (fun c => visit x_size y_size r c)) w0 = (Ok tt, w3) ->
  (row < y_size)%nat -> (col < x_size)%nat ->
  exists w1 w2,
    scan_up_to visit x_size y_size row col w0 = (Ok tt, w1) /\
    in_shape x_size y_size (store w1) /\
    grid_get (store w1) row col = grid_get (store w0) row col /\
    visit x_size y_size row col w1 = (Ok tt, w2) /\
    grid_get (store w3) row col = grid_get (store w2) row col.
Proof.
  intros Hs0 Hscan Hrow Hcol.
  rewrite (range_split row y_size Hrow) in Hscan.
  apply for_each_app_Ok in Hscan as (wa & Habove & Hscan).
  apply for_each_cons_Ok in Hscan as (wb & Hthis & Hbelow).
  rewrite (range_split col x_size Hcol) in Hthis.
  apply for_each_app_Ok in Hthis as (w1 & Hleft & Hthis).
  apply for_each_cons_Ok in Hthis as (w2 & Hvisit & Hright).
  pose proof (visits_rows_frame (range row) row col w0 Hs0) as Ha.
  unfold wp in Ha. rewrite Habove in Ha. destruct Ha as [Hsa Hfa].
  { intros r Hr%elem_of_range. lia. }
  pose proof (visits_cols_frame row (range col) row col wa Hsa Hrow) as Hl.
  unfold wp in Hl. rewrite Hleft in Hl. destruct Hl as [Hs1 Hf1].
  { intros c Hc%elem_of_range. lia. }
  pose proof (visit_frame row col w1 Hs1 Hrow Hcol) as Hv.
  unfold wp in Hv. rewrite Hvisit in Hv. destruct Hv as (Hs2 & _).
  pose proof (visits_cols_frame row (seq (S col) (x_size - S col))
                row col w2 Hs2 Hrow) as Hr.
  unfold wp in Hr. rewrite Hright in Hr. destruct Hr as [Hsb Hfb].
  { intros c Hc%elem_of_seq. lia. }
  pose proof (visits_rows_frame (seq (S row) (y_size - S row))
                row col wb Hsb) as Hb.
  unfold wp in Hb. rewrite Hbelow in Hb. destruct Hb as [_ Hf3].
  { intros r Hr%elem_of_seq. lia. }
  exists w1, w2. split; [|split; [done|split; [|split; [done|]]]].
  - unfold scan_up_to, bind. by rewrite Habove.
  - simpl in Hfa, Hf1. rewrite Hf1, Hfa; [done| |].
    + intros Hr%elem_of_range. lia.
    + right. intros Hc%elem_of_range. lia.
  - simpl in Hf3, Hfb. rewrite Hf3, Hfb; [done| |].
    + right. intros Hc%elem_of_seq. lia.
    + intros Hc%elem_of_seq. lia.
Qed.

End Visits.

(** One visit of the smoother, with the value it leaves in the cell. *)
Lemma smoothen_pixel_cell x_size y_size row col w :
  in_shape x_size y_size (store w) -> (row < y_size)%nat -> (col < x_size)%nat ->
  let g := store w in
  let p := pixel_at g row col in
  let foreign := foreign_neighbours_of g p (get_neighbours col row x_size y_size) in
  wp (smoothen_pixel x_size y_size row col)
     (fun r w' =>
        in_shape x_size y_size (store w') /\ only_at row col g (store w') /\
        if decide (p ≠ UNORIENTED_PIXEL_ID /\ (2 < length foreign)%nat)
        then
          exists k n,
            (randint 0 (Z.of_nat (length foreign) - 1) w).1 = Ok k /\
            getitem_int foreign k = Ok n /\ n ∈ foreign /\
            grid_get (store w') row col = Ok (smoothed p (pixel_at g n.2 n.1))
        else grid_get (store w') row col = Ok p) w.
Proof.
  intros Hs Hrow Hcol g p foreign. subst g. unfold smoothen_pixel.
  pose proof (in_shape_get _ _ _ _ _ Hs Hrow Hcol) as Hload. fold p in Hload.
  wp_auto.
  { do 2 (split; [done || apply only_at_refl|]).
    destruct (decide (_ /\ _)) as [[? _]|_]; done. }
  apply (wp_filterM_pure _
    (fun n : coord => bool_decide (pixel_at (store w) n.2 n.1 ≠ p))).
  { intros n Hn. unfold bind.
    rewrite (load_neighbour x_size y_size (store w) w col row n) by done.
    unfold load. by rewrite Hload. }
  fold (foreign_neighbours_of (store w) p (get_neighbours col row x_size y_size)).
  fold foreign.
  wp_auto.
  - destruct (decide (_ /\ _)) as [_|Hno]; [|by destruct Hno].
    apply wp_randint_drawn; [lia|].
    intros k w1 Hdraw Hk Hst Hout.
    destruct (getitem_int_drawn foreign k Hk) as (n & Hn & Hin).
    assert (Hnb : n ∈ get_neighbours col row x_size y_size).
    { unfold foreign, foreign_neighbours_of in Hin.
      by apply list_elem_of_filter in Hin as [_ ?]. }
    pose proof (get_neighbours_bounded _ _ _ _ _ Hnb) as [Hnx Hny].
    assert (Hloadn : grid_get (store w1) n.2 n.1
                     = Ok (pixel_at (store w) n.2 n.1))
      by (rewrite Hst; by apply (in_shape_get x_size y_size)).
    assert (Hs1 : in_shape x_size y_size (store w1)) by by rewrite Hst.
    wp_auto.
    + split; [done|]. split; [rewrite Hst; apply only_at_refl|].
      exists k, n. rewrite Hdraw. do 3 (split; [done|]).
      rewrite Hst, Hload. f_equal. unfold smoothed. by rewrite decide_True.
    + apply (save_in_shape x_size y_size); [done..|].
      intros g' Hset Hs'. split; [done|].
      split; [rewrite <- Hst; by eapply only_at_set|].
      exists k, n. rewrite Hdraw. do 3 (split; [done|]). cbn [store set_store].
      rewrite (grid_get_set _ _ _ _ _ _ _ Hset), decide_True by done.
      f_equal. unfold smoothed. by rewrite decide_False.
  - do 2 (split; [done || apply only_at_refl|]).
    destruct (decide (_ /\ _)) as [[_ ?]|_]; [lia|done].
Qed.

Lemma smoothen_pixel_frame x_size y_size row col w :
  in_shape x_size y_size (store w) -> (row < y_size)%nat -> (col < x_size)%nat ->
  wp (smoothen_pixel x_size y_size row col)
     (fun _ w' => in_shape x_size y_size (store w') /\
                  only_at row col (store w) (store w')) w.
Proof.
  intros Hs Hrow Hcol.
  eapply wp_mono; [|by apply smoothen_pixel_cell]. cbv zeta.
  by intros r w' (? & ? & _).
Qed.

(** X12.  In a pass of [smoothen_edges] that returns on a rectangular
    grid, take any cell and the grid [g] as it stands when the scan
    reaches the cell; the pixel of the cell is then still the one of the
    input.  If the pixel is unoriented or at most two of its neighbours
    hold another value in [g], the cell holds the same pixel in the
    result.  Otherwise one of these foreign neighbours is drawn, and the
    cell holds that neighbour's value in the result, unless the
    neighbour is unoriented: then the pixel is kept. *)
Theorem smoothen_edges_cell (w0 : world) (row0 : list Z) (g' : grid)
    (row col : nat) :
  rectangular (store w0) -> store w0 !! 0%nat = Some row0 ->
  (smoothen_edges w0).1 = Ok g' ->
  (row < length (store w0))%nat -> (col < length row0)%nat ->
  let x_size := length row0 in
  let y_size := length (store w0) in
  exists w1,
    scan_up_to smoothen_pixel x_size y_size row col w0 = (Ok tt, w1) /\
    pixel_at (store w1) row col = pixel_at (store w0) row col /\
    let g := store w1 in
    let p := pixel_at g row col in
    let foreign :=
      foreign_neighbours_of g p (get_neighbours col row x_size y_size) in
    (p = UNORIENTED_PIXEL_ID \/ (length foreign <= 2)%nat ->
     grid_get g' row col = Ok p) /\
    (p ≠ UNORIENTED_PIXEL_ID -> (2 < length foreign)%nat ->
     exists k n,
       (randint 0 (Z.of_nat (length foreign) - 1) w1).1 = Ok k /\
       getitem_int foreign k = Ok n /\ n ∈ foreign /\
       pixel_at g n.2 n.1 ≠ p /\
       grid_get g' row col = Ok (smoothed p (pixel_at g n.2 n.1))).
Proof.
  intros Hrect H0 Hrun Hrow Hcol. cbv zeta.
  pose proof (rectangular_in_shape _ _ Hrect H0) as Hs0.
  unfold smoothen_edges in Hrun.
  unfold bind at 1, len_row0 at 1, getitem in Hrun. rewrite H0 in Hrun.
  unfold bind at 1, len_grid at 1 in Hrun.
  unfold bind at 1 in Hrun.
  destruct (for_each (range (length (store w0))) _ w0) as [[[]|e] w3] eqn:Hscan;
    [|done].
  injection Hrun as <-.
  destruct (scan_reaches smoothen_pixel (length row0) (length (store w0))
              (smoothen_pixel_frame (length row0) (length (store w0)))
              w0 w3 row col Hs0 Hscan Hrow Hcol)
    as (w1 & w2 & Hbefore & Hs1 & Hsame & Hvisit & Hfinal).
  exists w1. split; [done|]. split; [unfold pixel_at; by rewrite Hsame|].
  pose proof (smoothen_pixel_cell _ _ row col w1 Hs1 Hrow Hcol) as Hspec.
  cbv zeta in Hspec. unfold wp in Hspec. rewrite Hvisit in Hspec.
  cbn [fst snd] in Hspec. destruct Hspec as (_ & _ & Hcell).
  cbn [the_grid fst snd]. rewrite Hfinal. split.
  - intros Hcalm.
    destruct (decide (_ /\ _)) as [[? ?]|_] in Hcell; [|done].
    destruct Hcalm; [done|lia].
  - intros Hp Hmany.
    destruct (decide (_ /\ _)) as [_|Hno] in Hcell; [|by destruct Hno].
    destruct Hcell as (k & n & Hk & Hn & Hin & Hv).
    exists k, n. do 3 (split; [done|]). split; [|done].
    unfold foreign_neighbours_of in Hin.
    by apply list_elem_of_filter in Hin as [?%bool_decide_unpack _].
Qed.

(** *** The failure of the denoiser *)

(** One visit of the denoiser returns unless the cell is void and has
    no neighbour to draw from. *)
Lemma clean_pixel_outcome x_size y_size row col w :
  in_shape x_size y_size (store w) -> (row < y_size)%nat -> (col < x_size)%nat ->
  wp (clean_pixel x_size y_size row col)
     (fun r w' =>
        in_shape x_size y_size (store w') /\ stdout w' = stdout w /\
        (r = Ok tt \/
         (r = Raise ValueError /\
          grid_get (store w') row col = Ok VOID_PIXEL_ID /\
          get_neighbours col row x_size y_size = []))) w.
Proof.
  intros Hs Hrow Hcol.
  eapply wp_mono; [|by apply clean_pixel_spec]. cbv zeta.
  intros r w' (Hout & Hs' & Honly & Hcase). do 2 (split; [done|]).
  destruct (decide (_ /\ _)) as [[Hvoid _]|_]; [|left; by destruct Hcase].
  destruct (randint _ _ w) as [[k|e] w1] eqn:Hdraw.
  - left. by destruct Hcase as (n & _ & _ & -> & _).
  - right. destruct Hcase as (-> & Hst & Hnil).
    apply randint_raises in Hdraw as [-> _]. split; [done|]. split; [|done].
    rewrite Hst, (in_shape_get x_size y_size) by done. by rewrite Hvoid.
Qed.

(** The outcome of the denoiser on a rectangular grid with a first row. *)
Lemma clean_pixel_grid_outcome (w : world) (row0 : list Z) :
  rectangular (store w) -> store w !! 0%nat = Some row0 ->
  match (clean_pixel_grid w).1 with
  | Ok g' => g' = store (clean_pixel_grid w).2
  | Raise e =>
      e = ValueError /\
      exists row col,
        (row < length (store w))%nat /\ (col < length row0)%nat /\
        grid_get (store (clean_pixel_grid w).2) row col = Ok VOID_PIXEL_ID /\
        get_neighbours col row (length row0) (length (store w)) = []
  end.
Proof.
  intros Hrect H0.
  pose proof (rectangular_in_shape _ _ Hrect H0) as Hs.
  set (Q := fun (r : res grid) (w' : world) =>
    match r with
    | Ok g' => g' = store w'
    | Raise e =>
        e = ValueError /\
        exists row col,
          (row < length (store w))%nat /\ (col < length row0)%nat /\
          grid_get (store w') row col = Ok VOID_PIXEL_ID /\
          get_neighbours col row (length row0) (length (store w)) = []
    end).
  enough (Hwp : wp clean_pixel_grid Q w) by done.
  unfold clean_pixel_grid.
  apply wp_bind, wp_len_row0. rewrite (proj2 (getitem_Ok _ 0%nat row0) H0).
  cbn [and_then]. apply wp_bind, wp_len_grid. cbn [and_then].
  apply wp_bind.
  set (I := fun w' : world => in_shape (length row0) (length (store w)) (store w')).
  apply wp_for_each with (I := I); [done| |].
  - intros row w1 Hrow%elem_of_range HI.
    apply wp_for_each with (I := I); [done| |done].
    intros col w2 Hcol%elem_of_range Hs2.
    eapply wp_mono; [|by apply clean_pixel_outcome].
    intros r w3 (Hs3 & _ & [->|(-> & Hvoid & Hnil)]); [done|].
    cbn [and_then]. split; [done|]. exists row, col. done.
  - intros w1 Hs1. cbn [and_then]. by wp_auto.
Qed.

(** X13.  The one failure of [clean_pixel_grid] on a rectangular grid:
    when it raises, the error is [ValueError] (from [randint(0, -1)],
    line 42) and the scan stands at a void cell that has no neighbour;
    so it returns the caller's grid when every cell has a neighbour. *)
Theorem clean_pixel_grid_failure (w : world) (row0 : list Z) :
  rectangular (store w) -> store w !! 0%nat = Some row0 ->
  (forall e, (clean_pixel_grid w).1 = Raise e ->
     e = ValueError /\
     exists row col,
       (row < length (store w))%nat /\ (col < length row0)%nat /\
       grid_get (store (clean_pixel_grid w).2) row col = Ok VOID_PIXEL_ID /\
       get_neighbours col row (length row0) (length (store w)) = []) /\
  ((forall row col, (row < length (store w))%nat -> (col < length row0)%nat ->
      get_neighbours col row (length row0) (length (store w)) ≠ []) ->
   (clean_pixel_grid w).1 = Ok (store (clean_pixel_grid w).2)).
Proof.
  intros Hrect H0.
  pose proof (clean_pixel_grid_outcome w row0 Hrect H0) as Hout.
  split.
  - intros e He. by rewrite He in Hout.
  - intros Hnb. destruct (clean_pixel_grid w).1 as [g'|e]; [by rewrite Hout|].
    destruct Hout as (_ & row & col & Hrow & Hcol & _ & Hnil).
    by destruct (Hnb row col Hrow Hcol).
Qed.

(** X14.  The failure happens: when the first pixel of the grid is void
    and has no neighbour, as in a grid of a single void pixel,
    [clean_pixel_grid] raises [ValueError] and changes nothing. *)
Theorem clean_pixel_grid_isolated_void (w : world) (row0 : list Z) :
  store w !! 0%nat = Some row0 ->
  row0 !! 0%nat = Some VOID_PIXEL_ID ->
  get_neighbours 0 0 (length row0) (length (store w)) = [] ->
  clean_pixel_grid w = (Raise ValueError, w).
Proof.
  intros H0 Hcell Hnil.
  assert (Hget : grid_get (store w) 0 0 = Ok VOID_PIXEL_ID)
    by (apply grid_get_Ok; eauto).
  assert (Hvisit : clean_pixel (length row0) (length (store w)) 0 0 w
                   = (Raise ValueError, w)).
  { unfold clean_pixel. rewrite Hnil.
    unfold bind at 1, load at 1. rewrite Hget. cbn [fst snd].
    rewrite decide_False by apply void_not_unoriented.
    unfold bind at 1. cbn [filterM ret fst snd].
    unfold bind at 1, load at 1. rewrite Hget. cbn [fst snd].
    rewrite bool_decide_eq_true_2 by done. cbn. done. }
  assert (Hy : (0 < length (store w))%nat) by by eapply lookup_lt_Some.
  assert (Hx : (0 < length row0)%nat) by by eapply lookup_lt_Some.
  unfold clean_pixel_grid.
  unfold bind at 1, len_row0 at 1, getitem. rewrite H0.
  unfold bind at 1, len_grid at 1.
  rewrite (range_split 0 (length (store w)) Hy), (range_split 0 (length row0) Hx).
  cbn [range seq app for_each]. unfold bind. cbn beta. by rewrite Hvisit.
Qed.

(** *** The padder, cell by cell *)

Lemma pad_state_step g x_size y_size (visited : nat -> nat -> Prop)
    padded padded' row col v :
  pad_state g x_size y_size visited padded ->
  only_at row col padded padded' ->
  grid_get padded' row col = Ok v -> padded_cell g x_size y_size row col v ->
  pad_state g x_size y_size
    (fun r c => visited r c \/ (r = row /\ c = col)) padded'.
Proof.
  intros Hstate Honly Hv Hcell r c Hr Hc.
  destruct (decide ((r, c) = (row, col))) as [[= -> ->]|Hne].
  - split; [eauto|]. intros Hnot. exfalso. apply Hnot. by right.
  - rewrite (Honly r c Hne). destruct (Hstate r c Hr Hc) as [Hvis Hnot]. split.
    + intros [?|[-> ->]]; [auto|done].
    + intros Hn. apply Hnot. intros ?. apply Hn. by left.
Qed.

Lemma pad_state_iff g x_size y_size (vis1 vis2 : nat -> nat -> Prop) padded :
  (forall r c, (c < x_size)%nat -> vis1 r c <-> vis2 r c) ->
  pad_state g x_size y_size vis1 padded -> pad_state g x_size y_size vis2 padded.
Proof.
  intros Hiff Hstate r c Hr Hc. destruct (Hstate r c Hr Hc) as [Hvis Hnot].
  split; intros ?; [apply Hvis|apply Hnot]; by rewrite Hiff.
Qed.

(** One visit of the padder at a cell of its output that is still void. *)
Lemma pad_pixel_cell g x_size y_size row col padded w :
  store w = g -> in_shape x_size y_size g -> in_shape x_size y_size padded ->
  (row < y_size)%nat -> (col < x_size)%nat ->
  grid_get padded row col = Ok VOID_PIXEL_ID ->
  wp (pad_pixel x_size y_size row padded col)
     (fun r w' =>
        store w' = g /\ stdout w' = stdout w /\
        (pixel_at g row col ≠ VOID_PIXEL_ID \/
         live_neighbours_of g (get_neighbours col row x_size y_size) = [] ->
         rng w' = rng w) /\
        exists padded' v, r = Ok padded' /\ in_shape x_size y_size padded' /\
          only_at row col padded padded' /\
          grid_get padded' row col = Ok v /\
          padded_cell g x_size y_size row col v) w.
Proof.
  intros <- Hs Hp Hrow Hcol Hvoid. unfold pad_pixel.
  pose proof (in_shape_get _ _ _ _ _ Hs Hrow Hcol) as Hload.
  wp_auto.
  - destruct (in_shape_set _ _ _ row col (pixel_at (store w) row col) Hp Hrow Hcol)
      as (padded' & Hset & Hs').
    rewrite Hset. do 3 (split; [done|]). exists padded', (pixel_at (store w) row col).
    split; [done|]. split; [done|]. split; [by eapply only_at_set|].
    split; [rewrite (grid_get_set _ _ _ _ _ _ _ Hset); by rewrite decide_True|].
    unfold padded_cell. by rewrite decide_True.
  - eapply (wp_filterM_pure _
      (fun n => bool_decide (pixel_at (store w) n.2 n.1 ≠ VOID_PIXEL_ID))).
    { intros n Hn. unfold bind.
      by rewrite (load_neighbour x_size y_size (store w) w col row n). }
    fold (live_neighbours_of (store w) (get_neighbours col row x_size y_size)).
    set (live := live_neighbours_of _ _).
    assert (Hp0 : ~ pixel_at (store w) row col ≠ VOID_PIXEL_ID) by done.
    wp_auto.
    + apply wp_randint; [lia|]. intros _ k t Hk.
      destruct (getitem_int_drawn live k Hk) as (copy & Hcopy & Hin).
      assert (Hn : copy ∈ get_neighbours col row x_size y_size).
      { unfold live, live_neighbours_of in Hin.
        by apply list_elem_of_filter in Hin as [_ ?]. }
      apply get_neighbours_bounded in Hn as [? ?].
      assert (Hcp : grid_get (store w) copy.2 copy.1
                    = Ok (pixel_at (store w) copy.2 copy.1))
        by by apply (in_shape_get x_size y_size).
      wp_auto.
      destruct (in_shape_set _ _ _ row col (pixel_at (store w) copy.2 copy.1)
                  Hp Hrow Hcol) as (padded' & Hset & Hs').
      rewrite Hset. do 2 (split; [done|]). split.
      { intros [?|Hnil]; [done|]. rewrite Hnil in Hin. by apply elem_of_nil in Hin. }
      exists padded', (pixel_at (store w) copy.2 copy.1).
      split; [done|]. split; [done|]. split; [by eapply only_at_set|].
      split; [rewrite (grid_get_set _ _ _ _ _ _ _ Hset); by rewrite decide_True|].
      unfold padded_cell. rewrite decide_False by done. fold live.
      destruct live as [|n live']; [by apply elem_of_nil in Hin|]. eauto.
    + do 3 (split; [done|]). exists padded, VOID_PIXEL_ID.
      split; [done|]. split; [done|]. split; [apply only_at_refl|].
      split; [done|].
      unfold padded_cell. rewrite decide_False by done. fold live.
      destruct live as [|n live']; [done|]. simpl in *. lia.
Qed.

(** The padder on a rectangular grid: every cell of its output is
    padded, and the generator is only used at a void cell that has a
    live neighbour. *)
Lemma pad_edges_cells w row0 :
  rectangular (store w) -> store w !! 0%nat = Some row0 ->
  wp pad_edges
     (fun r w' =>
        store w' = store w /\ stdout w' = stdout w /\
        (nothing_to_pad (store w) (length row0) (length (store w)) ->
         rng w' = rng w) /\
        exists padded, r = Ok padded /\
          in_shape (length row0) (length (store w)) padded /\
          pad_state (store w) (length row0) (length (store w))
                    (fun _ _ => True) padded) w.
Proof.
  intros Hrect H0. unfold pad_edges.
  pose proof (rectangular_in_shape _ _ Hrect H0) as Hs.
  set (g := store w) in *. set (x_size := length row0) in *.
  set (y_size := length g) in *.
  apply wp_bind, wp_len_row0. fold g. rewrite (proj2 (getitem_Ok g 0%nat row0) H0).
  fold x_size. cbn [and_then]. apply wp_bind, wp_len_grid. cbn [and_then].
  fold g y_size.
  apply wp_for_acc with (I := fun done padded w' =>
    store w' = g /\ stdout w' = stdout w /\
    (nothing_to_pad g x_size y_size -> rng w' = rng w) /\
    in_shape x_size y_size padded /\
    pad_state g x_size y_size (fun r c => r ∈ done) padded).
  - do 3 (split; [done|]). split; [apply shape_void_grid|].
    intros r c Hr Hc. split; [by intros ?%elem_of_nil|]. intros _.
    apply grid_get_Ok. unfold get_void_pixel_grid.
    exists (replicate x_size VOID_PIXEL_ID). by rewrite !lookup_replicate.
  - intros rows row todo padded w1 Hrows (Hg1 & Ho1 & Hr1 & Hs1 & Hc1).
    pose proof (range_split_bound _ _ _ _ Hrows) as Hrow.
    pose proof (range_split_notin _ _ _ _ Hrows) as Hfresh.
    apply wp_for_acc with (I := fun done padded w' =>
      store w' = g /\ stdout w' = stdout w /\
      (nothing_to_pad g x_size y_size -> rng w' = rng w) /\
      in_shape x_size y_size padded /\
      pad_state g x_size y_size
        (fun r c => r ∈ rows \/ (r = row /\ c ∈ done)) padded).
    + do 4 (split; [done|]). eapply pad_state_iff; [|done].
      intros r c _. split; [by left|]. intros [?|[_ ?%elem_of_nil]]; done.
    + intros cols col todo' padded' w2 Hcols (Hg2 & Ho2 & Hr2 & Hs2 & Hc2).
      pose proof (range_split_bound _ _ _ _ Hcols) as Hcol.
      pose proof (range_split_notin _ _ _ _ Hcols) as Hfresh'.
      assert (Hvoid : grid_get padded' row col = Ok VOID_PIXEL_ID).
      { apply (Hc2 row col Hrow Hcol). intros [?|[_ ?]]; done. }
      eapply wp_mono;
        [|by eapply (pad_pixel_cell g x_size y_size row col padded')].
      intros r w3 (Hg3 & Ho3 & Hr3 & padded3 & v & -> & Hs3 & Honly & Hv & Hcell).
      split; [done|]. split; [congruence|]. split.
      { intros Hcalm. rewrite Hr3; [by apply Hr2|].
        destruct (decide (pixel_at g row col = VOID_PIXEL_ID)); [right|by left].
        by apply Hcalm. }
      split; [done|].
      eapply pad_state_iff; [|by eapply pad_state_step]. simpl.
      intros r c _. rewrite elem_of_app, list_elem_of_singleton. tauto.
    + intros padded' w2 (Hg2 & Ho2 & Hr2 & Hs2 & Hc2). do 4 (split; [done|]).
      eapply pad_state_iff; [|done]. simpl.
      intros r c Hc. rewrite elem_of_app, list_elem_of_singleton, elem_of_range.
      tauto.
  - intros padded w1 (Hg1 & Ho1 & Hr1 & Hs1 & Hc1). do 3 (split; [done|]).
    exists padded. do 2 (split; [done|]).
    intros r c Hr Hc. destruct (Hc1 r c Hr Hc) as [Hvis _].
    split; [|done]. intros _. apply Hvis. by apply elem_of_range.
Qed.

(** X15.  The output of [pad_edges] on a rectangular grid, cell by
    cell: a live pixel of the input is copied; a void pixel without a
    live neighbour in the input stays void; a void pixel with a live
    neighbour takes the value of one of its live neighbours in the
    input, and so is live. *)
Theorem pad_edges_cell (w : world) (row0 : list Z) :
  rectangular (store w) -> store w !! 0%nat = Some row0 ->
  let g := store w in
  let x_size := length row0 in
  let y_size := length g in
  exists padded, (pad_edges w).1 = Ok padded /\
    forall r c, (r < y_size)%nat -> (c < x_size)%nat ->
      let live := live_neighbours_of g (get_neighbours c r x_size y_size) in
      (pixel_at g r c ≠ VOID_PIXEL_ID ->
       grid_get padded r c = Ok (pixel_at g r c)) /\
      (pixel_at g r c = VOID_PIXEL_ID -> live = [] ->
       grid_get padded r c = Ok VOID_PIXEL_ID) /\
      (pixel_at g r c = VOID_PIXEL_ID -> live ≠ [] ->
       exists n, n ∈ get_neighbours c r x_size y_size /\
         pixel_at g n.2 n.1 ≠ VOID_PIXEL_ID /\
         grid_get padded r c = Ok (pixel_at g n.2 n.1)).
Proof.
  intros Hrect H0 g x_size y_size.
  pose proof (pad_edges_cells w row0 Hrect H0) as (_ & _ & _ & padded & Hpad & _ & Hstate).
  exists padded. split; [done|]. intros r c Hr Hc live.
  destruct (Hstate r c Hr Hc) as [Hvis _].
  destruct (Hvis I) as (v & Hv & Hcell). unfold padded_cell in Hcell.
  fold g x_size y_size live in Hcell.
  split; [|split].
  - intros Hlive. rewrite decide_True in Hcell by done. by rewrite Hv, Hcell.
  - intros Hvoid Hnil. rewrite decide_False, Hnil in Hcell by (by intros ?).
    by rewrite Hv, Hcell.
  - intros Hvoid Hsome. rewrite decide_False in Hcell by (by intros ?).
    destruct live as [|n0 live'] eqn:Hl; [done|].
    destruct Hcell as (n & Hn & ->). exists n.
    rewrite <- Hl in Hn. unfold live, live_neighbours_of in Hn.
    apply list_elem_of_filter in Hn as [Hnv%bool_decide_unpack Hn]. done.
Qed.

(** X16.  The fixed points of the padder: on a rectangular grid where
    no void pixel has a live neighbour (a grid without void, or all
    void), [pad_edges] returns a grid equal to its input, draws no
    number and changes nothing. *)
Theorem pad_edges_fixed_point (w : world) (row0 : list Z) :
  rectangular (store w) -> store w !! 0%nat = Some row0 ->
  nothing_to_pad (store w) (length row0) (length (store w)) ->
  pad_edges w = (Ok (store w), w).
Proof.
  intros Hrect H0 Hcalm.
  pose proof (rectangular_in_shape _ _ Hrect H0) as Hs.
  pose proof (pad_edges_cells w row0 Hrect H0) as Hrun. unfold wp in Hrun.
  destruct (pad_edges w) as [r w']. cbn [fst snd] in Hrun.
  destruct Hrun as (Hstore & Hout & Hrng & padded & -> & Hshape & Hstate).
  f_equal; [|apply world_eq; auto]. f_equal. symmetry.
  apply grid_ext; [by rewrite Hs, Hshape|].
  intros r c v Hv.
  destruct (in_shape_bounds _ _ _ _ _ _ Hs Hv) as [Hr Hc].
  destruct (Hstate r c Hr Hc) as [Hvis _].
  destruct (Hvis I) as (v' & Hv' & Hcell). rewrite Hv'. f_equal.
  assert (Hp : pixel_at (store w) r c = v) by (unfold pixel_at; by rewrite Hv).
  unfold padded_cell in Hcell. rewrite Hp in Hcell.
  destruct (decide (v ≠ VOID_PIXEL_ID)) as [?|Hvoid]; [done|].
  assert (v = VOID_PIXEL_ID) as -> by (by destruct (decide (v = VOID_PIXEL_ID))).
  by rewrite (Hcalm r c Hr Hc Hp) in Hcell.
Qed.

(** *** Rows shorter than the first *)

Lemma clean_pixel_reads x_size y_size row col w w' :
  clean_pixel x_size y_size row col w = (Ok tt, w') ->
  exists v, grid_get (store w) row col = Ok v.
Proof.
  unfold clean_pixel, bind at 1, load at 1. cbn [fst snd].
  destruct (grid_get (store w) row col) as [v|e]; [eauto|done].
Qed.

Lemma smoothen_pixel_reads x_size y_size row col w w' :
  smoothen_pixel x_size y_size row col w = (Ok tt, w') ->
  exists v, grid_get (store w) row col = Ok v.
Proof.
  unfold smoothen_pixel, bind at 1, load at 1. cbn [fst snd].
  destruct (grid_get (store w) row col) as [v|e]; [eauto|done].
Qed.

Lemma pad_pixel_reads x_size y_size row col padded w padded' w' :
  pad_pixel x_size y_size row padded col w = (Ok padded', w') ->
  exists v, grid_get (store w) row col = Ok v.
Proof.
  unfold pad_pixel, bind at 1, load at 1. cbn [fst snd].
  destruct (grid_get (store w) row col) as [v|e]; [eauto|done].
Qed.

(** A scan that returns has read every cell of the scanned rectangle. *)
Lemma scan_reads (visit : nat -> nat -> nat -> nat -> M unit) w :
  (forall x_size y_size row col w w',
     visit x_size y_size row col w = (Ok tt, w') ->
     exists v, grid_get (store w) row col = Ok v) ->
  (forall s g0 x_size y_size row col w,
     tame s g0 (store w) ->
     wp (visit x_size y_size row col) (fun _ w' => tame s g0 (store w')) w) ->
  wp (x_size <- len_row0 ;;
      y_size <- len_grid ;;
      for_each (range y_size) (fun row =>
        for_each (range x_size) (fun col => visit x_size y_size row col)) ;;;
      the_grid)
     (fun r _ => forall g', r = Ok g' ->
        forall row0 row col, store w !! 0%nat = Some row0 ->
          (row < length (store w))%nat -> (col < length row0)%nat ->
          exists n, shape (store w) !! row = Some n /\ (col < n)%nat) w.
Proof.
  intros Hreads Htame.
  apply wp_bind, wp_len_row0.
  destruct (getitem (store w) 0) as [row0|e] eqn:H0; cbn [and_then]; [|done].
  apply getitem_Ok in H0.
  wp_auto.
  set (s := shape (store w)).
  apply wp_for_each_prefix with (I := fun done w' =>
    tame s (store w) (store w') /\
    forall row col, row ∈ done -> (col < length row0)%nat ->
      exists n, s !! row = Some n /\ (col < n)%nat).
  - split; [apply tame_refl|]. by intros row col ?%elem_of_nil.
  - intros rows row todo w1 _ [Ht1 Hdone].
    apply wp_for_each_prefix with (I := fun done w' =>
      tame s (store w) (store w') /\
      forall col, col ∈ done -> exists n, s !! row = Some n /\ (col < n)%nat).
    + split; [done|]. by intros col ?%elem_of_nil.
    + intros cols col todo' w2 _ [Ht2 Hcols].
      pose proof (Htame s (store w) (length row0) (length (store w)) row col w2 Ht2)
        as Hstep.
      unfold wp in *.
      destruct (visit _ _ row col w2) as [[[]|e] w3] eqn:Hvisit;
        cbn [fst snd] in *; [|done].
      split; [done|]. intros c [?|Hlast%list_elem_of_singleton]%elem_of_app; [auto|subst c].
      apply Hreads in Hvisit. apply grid_get_shape in Hvisit.
      destruct Ht2 as [Hs2 _]. rewrite Hs2 in Hvisit. exact Hvisit.
    + intros w2 [Ht2 Hcols]. split; [done|].
      intros r c [?|Hlast%list_elem_of_singleton]%elem_of_app Hc; [auto|subst r].
      apply Hcols. by apply elem_of_range.
  - intros w1 [_ Hall]. wp_auto. intros g' _ row0' row col H0' Hrow Hcol.
    assert (row0' = row0) as -> by congruence.
    apply Hall; [by apply elem_of_range|done].
Qed.

Lemma pad_edges_reads w :
  wp pad_edges
     (fun r _ => forall g', r = Ok g' ->
        forall row0 row col, store w !! 0%nat = Some row0 ->
          (row < length (store w))%nat -> (col < length row0)%nat ->
          exists n, shape (store w) !! row = Some n /\ (col < n)%nat) w.
Proof.
  unfold pad_edges.
  apply wp_bind, wp_len_row0.
  destruct (getitem (store w) 0) as [row0|e] eqn:H0; cbn [and_then]; [|done].
  apply getitem_Ok in H0.
  wp_auto.
  set (s := replicate (length (store w)) (length row0)).
  apply wp_for_acc with (I := fun done padded w' =>
    store w' = store w /\ tame s (store w) padded /\
    forall row col, row ∈ done -> (col < length row0)%nat ->
      exists n, shape (store w) !! row = Some n /\ (col < n)%nat).
  - split; [done|]. split.
    + split; [apply shape_void_grid|]. intros v Hv Hne. by apply void_grid_values in Hv.
    + by intros row col ?%elem_of_nil.
  - intros rows row todo padded w1 _ (Hs1 & Ht1 & Hdone).
    apply wp_for_acc with (I := fun done padded w' =>
      store w' = store w /\ tame s (store w) padded /\
      forall col, col ∈ done ->
        exists n, shape (store w) !! row = Some n /\ (col < n)%nat).
    + do 2 (split; [done|]). by intros col ?%elem_of_nil.
    + intros cols col todo' padded' w2 _ (Hs2 & Ht2 & Hcols).
      pose proof (pad_pixel_tame s (store w) (length row0) (length (store w))
                    row col padded' w2 Hs2 Ht2) as Hstep.
      unfold wp in *.
      destruct (pad_pixel _ _ row padded' col w2) as [[p|e] w3] eqn:Hvisit;
        cbn [fst snd] in *; [|done].
      destruct Hstep as (Hs3 & _ & Ht3). split; [done|]. split; [by apply Ht3|].
      intros c [?|Hlast%list_elem_of_singleton]%elem_of_app; [auto|subst c].
      apply pad_pixel_reads in Hvisit. apply grid_get_shape in Hvisit.
      by rewrite <- Hs2.
    + intros padded' w2 (Hs2 & Ht2 & Hcols). do 2 (split; [done|]).
      intros r c [?|Hlast%list_elem_of_singleton]%elem_of_app Hc; [auto|subst r].
      apply Hcols. by apply elem_of_range.
  - intros padded w1 (_ & _ & Hall) g' _ row0' row col H0' Hrow Hcol.
    assert (row0' = row0) as -> by congruence.
    apply Hall; [by apply elem_of_range|done].
Qed.

Lemma short_row_unread (g : grid) row0 r row :
  g !! 0%nat = Some row0 -> g !! r = Some row -> (length row < length row0)%nat ->
  ~ (forall row0' r' c, g !! 0%nat = Some row0' ->
       (r' < length g)%nat -> (c < length row0')%nat ->
       exists n, shape g !! r' = Some n /\ (c < n)%nat).
Proof.
  intros H0 Hr Hshort Hall.
  destruct (Hall row0 r (length row) H0) as (n & Hn & Hlt); [|done|].
  { by eapply lookup_lt_Some. }
  unfold shape in Hn. rewrite list_lookup_fmap, Hr in Hn. injection Hn as <-. lia.
Qed.

(** X17.  A grid with a row shorter than its first row is not scanned
    to the end: [clean_pixel_grid], [smoothen_edges] and [pad_edges]
    all raise on it (the scans read [pixel_grid[row][col]] for every
    column of the first row). *)
Theorem short_row_raises (w : world) (row0 : list Z) (r : nat) (row : list Z) :
  store w !! 0%nat = Some row0 -> store w !! r = Some row ->
  (length row < length row0)%nat ->
  (exists e, (clean_pixel_grid w).1 = Raise e) /\
  (exists e, (smoothen_edges w).1 = Raise e) /\
  (exists e, (pad_edges w).1 = Raise e).
Proof.
  intros H0 Hr Hshort.
  pose proof (short_row_unread _ _ _ _ H0 Hr Hshort) as Hunread.
  pose proof (scan_reads clean_pixel w clean_pixel_reads
                (fun s g0 x y row col w => clean_pixel_tame s g0 x y row col w)) as Hc.
  pose proof (scan_reads smoothen_pixel w smoothen_pixel_reads
                (fun s g0 x y row col w => smoothen_pixel_tame s g0 x y row col w)) as Hs.
  pose proof (pad_edges_reads w) as Hp.
  fold clean_pixel_grid in Hc. fold smoothen_edges in Hs. unfold wp in Hc, Hs, Hp.
  split; [|split].
  - destruct (clean_pixel_grid w).1 as [g'|e]; [|eauto].
    exfalso. apply Hunread. by apply (Hc g').
  - destruct (smoothen_edges w).1 as [g'|e]; [|eauto].
    exfalso. apply Hunread. by apply (Hs g').
  - destruct (pad_edges w).1 as [g'|e]; [|eauto].
    exfalso. apply Hunread. by apply (Hp g').
Qed.

(** *** The merger *)

Section Merger.
Context {T : Type} `{N : PyNum T}.

Lemma orientation_error_raises (o1 o2 : list T) e :
  orientation_error o1 o2 = Raise e -> e = IndexError.
Proof.
  unfold orientation_error.
  destruct (abs_differences o1 o2 (range 3)) as [ds|e'] eqn:Hds; [done|].
  intros [= <-]. revert Hds. generalize (range 3). intros ks. revert e'.
  induction ks as [|k ks IH]; intros e'; simpl; [done|].
  destruct (getitem o1 k) eqn:E1.
  - destruct (getitem o2 k) eqn:E2.
    + destruct (abs_differences o1 o2 ks); [done|]. intros [= <-]. by apply IH.
    + intros [= <-]. by eapply getitem_raises.
  - intros [= <-]. by eapply getitem_raises.
Qed.

Lemma dict_get_raises (d : list (Z * list Z)) k e :
  dict_get d k = Raise e -> e = KeyError.
Proof.
  induction d as [|[k' v] d IH]; simpl; [by intros [= <-]|].
  by destruct (decide _).
Qed.

Lemma record_merge_raises (d : list (Z * list Z)) i j e :
  record_merge d i j = Raise e -> e = KeyError.
Proof.
  unfold record_merge. destruct (dict_has d i); [|done].
  destruct (dict_get d i) eqn:E; [done|]. intros [= <-]. by eapply dict_get_raises.
Qed.

Lemma orientation_of_raises (gm : Z -> option (list T)) id e :
  orientation_of gm id = Raise e -> e = KeyError.
Proof. unfold orientation_of. destruct (gm id); [done|]. by intros [= <-]. Qed.

Lemma identify_merges_raises (gm : Z -> option (list T)) thr ids w e :
  (identify_merges gm thr ids w).1 = Raise e -> e = KeyError \/ e = IndexError.
Proof.
  enough (Hwp : wp (identify_merges gm thr ids)
    (fun r _ => forall e, r = Raise e -> e = KeyError \/ e = IndexError) w)
    by (intros Hr; exact (Hwp e Hr)).
  unfold identify_merges.
  apply wp_for_acc with (I := fun _ (_ : list (Z * list Z)) _ => True);
    [done| |done].
  intros done i todo mm1 w1 _ _.
  wp_auto;
    try (intros ? [= <-];
         eauto using getitem_raises, orientation_of_raises,
           orientation_error_raises, record_merge_raises).
  apply wp_for_acc with (I := fun _ (_ : list (Z * list Z)) _ => True);
    [done| |done].
  intros done' j todo' mm2 w2 _ _.
  wp_auto;
    try (intros ? [= <-];
         eauto using getitem_raises, orientation_of_raises,
           orientation_error_raises, record_merge_raises).
  - destruct (record_merge _ _ _) eqn:E5; [done|].
    intros ? [= <-]. eauto using record_merge_raises.
  - done.
Qed.

(** X18.  [merge_grains] looks up the orientation of every id of the
    grid: when the grain map has no entry for some value of the grid
    other than void, the call raises [KeyError] (or [IndexError], when
    an orientation read before has fewer than three components), prints
    nothing and changes nothing. *)
Theorem merge_grains_missing_orientation (gm : Z -> option (list T)) (thr : T)
    (w : world) (id : Z) :
  id ∈ concat (store w) -> id ≠ VOID_PIXEL_ID -> gm id = None ->
  exists e, merge_grains gm thr w = (Raise e, w) /\
            (e = KeyError \/ e = IndexError).
Proof.
  intros Hin Hlive Hmissing.
  assert (Hid : id ∈ (get_sorted_grain_id_list (store w)).1)
    by by apply id_list_elem.
  rewrite merge_grains_run. cbv zeta.
  destruct (identify_merges _ _ _ w).1 as [mm|e] eqn:Hmm.
  - destruct (identify_merges_looks_up _ _ _ _ _ _ Hmm Hid) as [o Ho]. congruence.
  - exists e. split; [done|]. by eapply identify_merges_raises.
Qed.



(** Every entry of the merge map of a strictly ascending list holds ids
    of the list greater than its key. *)
Lemma merge_map_of_greater gm thr ids k bucket m :
  StronglySorted Z.lt ids ->
  (k, bucket) ∈ merge_map_of gm thr ids -> m ∈ bucket ->
  k ∈ ids /\ m ∈ ids /\ k < m.
Proof.
  induction 1 as [|a rest Hrest IH Ha]; simpl; [by intros ?%elem_of_nil|].
  intros Hin Hm.
  assert (Hcase : (k = a /\ bucket = filter (fun id_j => within gm thr a id_j) rest)
                  \/ (k, bucket) ∈ merge_map_of gm thr rest).
  { destruct (filter _ rest) as [|b l] eqn:Hb; [by right|].
    apply elem_of_cons in Hin as [[= -> ->]|?]; [left|right]; done. }
  destruct Hcase as [[-> ->]|Hin'].
  - apply list_elem_of_filter in Hm as [_ Hm]. split; [by left|]. split; [by right|].
    rewrite Forall_forall in Ha. by apply Ha.
  - destruct (IH Hin' Hm) as (? & ? & ?). split; [by right|]. split; [by right|done].
Qed.

Lemma merged_pointwise (mm : list (Z * list Z)) (g : grid) (ids : list Z) r c v :
  (forall k bucket m, (k, bucket) ∈ mm -> m ∈ bucket -> k ∈ ids /\ m ∈ ids /\ k < m) ->
  grid_get g r c = Ok v ->
  exists v', grid_get (merged mm g) r c = Ok v' /\ v' <= v /\
             (v' = v \/ (v ∈ ids /\ v' ∈ ids)).
Proof.
  revert g v. induction mm as [|[k bucket] mm IH]; intros g v Hmm Hv; simpl.
  - exists v. split; [done|]. split; [lia|by left].
  - pose proof (grid_get_fold_into k bucket _ _ _ _ Hv) as Hstep.
    destruct (IH _ _ (fun k' b' m' Hin => Hmm k' b' m' (list_elem_of_further _ _ _ Hin)) Hstep)
      as (v' & Hv' & Hle & Hor).
    exists v'. split; [done|]. unfold py_in in *.
    case_bool_decide as Hmem.
    + destruct (Hmm k bucket v) as (Hk & Hvin & Hlt); [by left|done|].
      split; [lia|]. right. split; [done|]. destruct Hor as [->|[_ ?]]; done.
    + done.
Qed.

Lemma merge_grains_pure (gm : Z -> option (list T)) (thr : T) (w : world) :
  rectangular (store w) ->
  oriented gm (get_sorted_grain_id_list (store w)).1 ->
  (merge_grains gm thr w).1
  = Ok (merged (merge_map_of gm thr (get_sorted_grain_id_list (store w)).1)
               (store w)).
Proof.
  intros Hrect Hor. rewrite merge_grains_run. cbv zeta.
  rewrite identify_merges_pure by (done || apply id_list_NoDup). cbn [fst].
  destruct (store w !! 0%nat) as [row0|] eqn:H0.
  - rewrite (apply_merges_pure _ _ row0); [done|done| |].
    + by apply rectangular_in_shape.
    + apply merge_map_of_NoDup, id_list_NoDup.
  - destruct (store w) as [|row g] eqn:Hg; [|done].
    rewrite id_list_nil. done.
Qed.

(** X20.  [merge_grains] relabels a pixel only with a smaller id: on a
    rectangular grid whose ids all have an orientation, the call
    returns, every pixel of the result holds a value less than or equal
    to its value in the input, a void pixel stays void and a live pixel
    stays live. *)
Theorem merge_grains_never_raises_an_id (gm : Z -> option (list T)) (thr : T)
    (w : world) (r c : nat) (v : Z) :
  rectangular (store w) ->
  oriented gm (get_sorted_grain_id_list (store w)).1 ->
  grid_get (store w) r c = Ok v ->
  exists g' v',
    (merge_grains gm thr w).1 = Ok g' /\ grid_get g' r c = Ok v' /\
    v' <= v /\
    (v = VOID_PIXEL_ID -> v' = VOID_PIXEL_ID) /\
    (v ≠ VOID_PIXEL_ID -> v' ≠ VOID_PIXEL_ID).
Proof.
  intros Hrect Hor Hv.
  pose proof (id_list_strictly_sorted (store w)) as Hsorted.
  destruct (merged_pointwise
              (merge_map_of gm thr (get_sorted_grain_id_list (store w)).1)
              (store w) (get_sorted_grain_id_list (store w)).1 r c v)
    as (v' & Hv' & Hle & Hcase); [|done|].
  { intros k bucket m. by apply merge_map_of_greater. }
  eexists _, v'. split; [by apply merge_grains_pure|]. split; [done|].
  split; [done|]. split.
  - intros ->. destruct Hcase as [?|[[_ ?]%id_list_elem _]]; done.
  - intros Hlive. destruct Hcase as [->|[_ [_ ?]%id_list_elem]]; done.
Qed.

End Merger.
End Further.


(** ** Worked examples

    The claims at concrete worlds, with the reference collaborators. *)

Module Examples.
Import Reference ReferenceFacts.

(** C1 as stated fails for [remove_small_grains]: the single unoriented
    pixel of [corner_world] is a grain of one pixel, under the threshold
    2, and is absorbed by grain 5. *)
Lemma unoriented_pixel_absorbed :
  grid_get (store corner_world) 1 1 = Ok UNORIENTED_PIXEL_ID /\
  (remove_small_grains 2 corner_world).1 = Ok [[5; 5]; [5; 5]] /\
  grid_get [[5; 5]; [5; 5]] 1 1 ≠ Ok UNORIENTED_PIXEL_ID.
Proof. split; [|split]; [by vm_compute..|discriminate]. Qed.

(** C1 (as amended) on a grid with an unoriented pixel next to void. *)
Lemma unoriented_pixels_kept_witness :
  let w := World [[-1; 0]; [5; 0]] [3%nat; 1%nat] [] in
  rectangular (store w) /\
  grid_get (store w) 0 0 = Ok UNORIENTED_PIXEL_ID /\
  ((grid_get (store (clean_pixel_grid w).2) 0 0 = Ok UNORIENTED_PIXEL_ID /\
    forall g, (clean_pixel_grid w).1 = Ok g ->
              grid_get g 0 0 = Ok UNORIENTED_PIXEL_ID) /\
   (grid_get (store (smoothen_edges w).2) 0 0 = Ok UNORIENTED_PIXEL_ID /\
    forall g, (smoothen_edges w).1 = Ok g ->
              grid_get g 0 0 = Ok UNORIENTED_PIXEL_ID) /\
   (exists g, (pad_edges w).1 = Ok g /\
              grid_get g 0 0 = Ok UNORIENTED_PIXEL_ID)).
Proof.
  intros w.
  assert (Hrect : rectangular (store w)) by (repeat constructor).
  assert (Hu : grid_get (store w) 0 0 = Ok UNORIENTED_PIXEL_ID) by reflexivity.
  split; [exact Hrect|]. split; [exact Hu|].
  exact (unoriented_pixels_kept w 0 0 Hrect Hu).
Defined.

(** C2 as stated fails: a threshold of 0, a grid whose second row is
    longer than the first, and the empty grid given to [merge_grains]
    are all accepted, and the pass returns. *)
Lemma invalid_input_accepted :
  (remove_small_grains 0 (World [[5]] [] [])).1 = Ok [[5]] /\
  (clean_pixel_grid (World [[5]; [5; 5]] [] [])).1 = Ok [[5]; [5; 5]] /\
  (merge_grains line_map 10 (World [] [] [])).1 = Ok [].
Proof. by vm_compute. Qed.

(** C2 (as amended) with a negative threshold. *)
Lemma unvalidated_input_witness :
  let w := World [[5; 5]; [5; 7]] [] [] in
  rectangular (store w) /\ store w !! 0%nat = Some [5; 5] /\ -1 <= 0 /\
  remove_small_grains (-1) w = (Ok (store w), w).
Proof.
  intros w.
  assert (Hrect : rectangular (store w)) by (repeat constructor).
  assert (H0 : store w !! 0%nat = Some [5; 5]) by reflexivity.
  assert (Hthr : -1 <= 0) by lia.
  do 3 (split; [done|]).
  exact (proj2 (unvalidated_input (T := Z) w) (-1) [5; 5] Hrect H0 Hthr).
Defined.

(** C3 as stated fails on the tie-break: around the pixel of grain 5 of
    [tie_world] the halo is enumerated as 2 then 1, each once, so the
    first most frequent value met in the halo is 2; the pass takes the
    maximum over the set of the values, iterated as 1 then 2, and
    replaces the pixel by 1. *)
Lemma tie_broken_by_set_order :
  halo_ids (store tie_world) 5 5 1 = [2; 1] /\
  py_max [2; 1] (py_count [2; 1]) = Ok 2 /\
  set_iter [2; 1] = [1; 2] /\
  most_neighbouring_of [2; 1] = Ok 1 /\
  (remove_small_grains 2 tie_world).1 = Ok [[2; 2; 1; 1; 1]].
Proof. by vm_compute. Qed.

(** C3 (as amended) on [tie_world]: 1 is a mode of the halo and the
    first one of the set. *)
Lemma small_grain_replacement_witness :
  rectangular (store tie_world) /\
  store tie_world !! 0%nat = Some [2; 2; 5; 1; 1] /\
  Z.of_nat (py_count (concat (store tie_world)) 5) < 2 /\
  is_mode [2; 1] 1 /\ first_max (py_count [2; 1]) [1; 2] 1.
Proof.
  assert (Hrect : rectangular (store tie_world)) by (repeat constructor).
  assert (H0 : store tie_world !! 0%nat = Some [2; 2; 5; 1; 1]) by reflexivity.
  assert (Hsmall : Z.of_nat (py_count (concat (store tie_world)) 5) < 2)
    by (vm_compute; reflexivity).
  do 3 (split; [done|]).
  pose proof (proj2 (proj2 (small_grain_replacement 2 tie_world _ Hrect H0)
                      5 [] (store tie_world)) Hsmall) as Hstep.
  change (halo_ids (store tie_world) 5 (length [2; 2; 5; 1; 1])
            (length (store tie_world))) with [2; 1] in Hstep.
  change (most_neighbouring_of [2; 1]) with (Ok (A := Z) 1) in Hstep.
  change (set_iter [2; 1]) with [1; 2] in Hstep.
  destruct Hstep as (Hmode & Hfirst & _). split; [exact Hmode|exact Hfirst].
Defined.

(** C4 on [merge_world] with [spread_map] and the threshold 3: grain 4
    is at the distances 1 and 2 of the grains 1 and 2, which are at the
    distance 3 of each other, not below the threshold.  The merge map
    holds grain 4 under both keys; the key 1 is applied first and takes
    the pixel of grain 4, and the key 2 finds none left. *)
Lemma merge_grains_spec_witness :
  oriented spread_map (get_sorted_grain_id_list (store merge_world)).1 /\
  rectangular (store merge_world) /\
  spec_distance [0; 0; 0] [1; 1; 1] = Some 3 /\
  spec_distance [0; 0; 0] [0; 0; 1] = Some 1 /\
  spec_distance [1; 1; 1] [0; 0; 1] = Some 2 /\
  identify_merges spread_map 3 (get_sorted_grain_id_list (store merge_world)).1
    merge_world = (Ok [(1, [4]); (2, [4])], merge_world) /\
  apply_merges [(1, [4]); (2, [4])] (store merge_world) merge_world
  = (Ok [[1; 2]; [1; 7]], merge_world) /\
  (merge_grains spread_map 3 merge_world).1 = Ok [[1; 2]; [1; 7]].
Proof.
  assert (Hor : oriented spread_map (get_sorted_grain_id_list (store merge_world)).1).
  { intros id _. unfold spread_map.
    repeat case_decide; eexists; (split; [reflexivity|simpl; lia]). }
  assert (Hrect : rectangular (store merge_world)) by (repeat constructor).
  do 2 (split; [done|]). do 3 (split; [reflexivity|]).
  destruct (proj2 (proj2 (proj2 (merge_grains_spec spread_map 3 merge_world))) Hor)
    as (merge_map & Hid & _ & _ & _ & _ & Hrun).
  assert (Hmap : identify_merges spread_map 3
                   (get_sorted_grain_id_list (store merge_world)).1 merge_world
                 = (Ok [(1, [4]); (2, [4])], merge_world))
    by (vm_compute; reflexivity).
  rewrite Hmap in Hid. injection Hid as <-.
  split; [exact Hmap|]. exact (Hrun Hrect).
Defined.

(** C5 as stated fails: the value returned is the grid and nothing
    else, and the summary is on the console. *)
Lemma summary_printed_not_returned :
  merge_grains line_map 10 (World [[5]] [] [])
  = (Ok [[5]],
     World [[5]] []
       ["========================="; "Merged from 1 grains to 1 grains";
        "========================="]).
Proof. by vm_compute. Qed.

(** C6 as stated fails: when the scan reaches the void pixel in the
    middle of [pitted_world] the grid is still the input, one of its
    eight neighbours is void, and the draw lands on that one, which is
    not unoriented; the pixel is void in the result. *)
Lemma void_pixel_left_void :
  let g := store pitted_world in
  let neighbours := get_neighbours 1 1 3 3 in
  scan_before 3 3 1 1 pitted_world = (Ok tt, pitted_world) /\
  pixel_at g 1 1 = VOID_PIXEL_ID /\
  length neighbours = 8%nat /\
  length (void_neighbours_of g neighbours) = 1%nat /\
  (randint 0 7 pitted_world).1 = Ok 7 /\
  getitem_int neighbours 7 = Ok (2, 2)%nat /\
  pixel_at g 2 2 = VOID_PIXEL_ID /\
  pixel_at g 2 2 ≠ UNORIENTED_PIXEL_ID /\
  (clean_pixel_grid pitted_world).1 = Ok g /\
  grid_get g 1 1 = Ok VOID_PIXEL_ID.
Proof. by vm_compute. Qed.

(** The neighbours are counted in the grid as the scan left it, not in
    the input: the last pixel of [[0, 0], [5, 5]] has two void
    neighbours out of three in the input, both are filled before the
    scan reaches it, and it stays live. *)
Lemma live_pixel_not_voided :
  let w := World [[0; 0]; [5; 5]] [1%nat] [] in
  length (get_neighbours 1 1 2 2) = 3%nat /\
  length (void_neighbours_of (store w) (get_neighbours 1 1 2 2)) = 2%nat /\
  (clean_pixel_grid w).1 = Ok [[5; 5]; [5; 5]].
Proof. by vm_compute. Qed.

(** C6 (as amended) on the scenario of the specification: a void pixel
    in a gridful of grain 5. *)
Lemma clean_pixel_grid_cell_witness :
  let w := World [[5; 5; 5]; [5; 0; 5]; [5; 5; 5]] [2%nat] [] in
  let g' := [[5; 5; 5]; [5; 5; 5]; [5; 5; 5]] in
  rectangular (store w) /\ store w !! 0%nat = Some [5; 5; 5] /\
  (clean_pixel_grid w).1 = Ok g' /\
  (1 < length (store w))%nat /\ (1 < length [5; 5; 5])%nat /\
  grid_get g' 1 1 ≠ Ok VOID_PIXEL_ID.
Proof.
  intros w g'.
  assert (Hrect : rectangular (store w)) by (repeat constructor).
  assert (H0 : store w !! 0%nat = Some [5; 5; 5]) by reflexivity.
  assert (Hrun : (clean_pixel_grid w).1 = Ok g') by (vm_compute; reflexivity).
  assert (Hrow : (1 < length (store w))%nat) by (simpl; lia).
  assert (Hcol : (1 < length [5; 5; 5])%nat) by (simpl; lia).
  do 5 (split; [done|]).
  destruct (clean_pixel_grid_cell w _ _ 1%nat 1%nat Hrect H0 Hrun Hrow Hcol)
    as (w1 & Hbefore & _ & _ & Hfill).
  assert (Hw1 : scan_before 3 3 1 1 w = (Ok tt, w)) by (vm_compute; reflexivity).
  change (length [5; 5; 5]) with 3%nat in *.
  change (length (store w)) with 3%nat in *.
  rewrite Hw1 in Hbefore. injection Hbefore as <-.
  destruct Hfill as (k & n & Hk & Hn & _ & Hlive);
    [vm_compute; reflexivity|vm_compute; lia|].
  vm_compute in Hk. injection Hk as <-.
  vm_compute in Hn. injection Hn as <-.
  apply Hlive; vm_compute; discriminate.
Defined.

(** C7 as stated fails: the void pixel next to an unoriented pixel is
    filled with the unoriented value, and the grid has two unoriented
    pixels where it had one. *)
Lemma padding_spreads_unoriented :
  let w := World [[-1; 0]] [] [] in
  (pad_edges w).1 = Ok [[-1; -1]] /\
  count_unoriented (store w) = 1%nat /\
  count_unoriented [[-1; -1]] = 2%nat.
Proof. by vm_compute. Qed.

(** C7 (as amended) on the padder scenario of the specification. *)
Lemma pad_edges_counts_witness :
  let w := World [[0; 0]; [7; 0]] [] [] in
  rectangular (store w) /\ store w !! 0%nat = Some [0; 0] /\
  exists padded,
    (pad_edges w).1 = Ok padded /\
    store (pad_edges w).2 = store w /\
    shape padded = shape (store w) /\
    (forall r c v, grid_get (store w) r c = Ok v -> v ≠ VOID_PIXEL_ID ->
                   grid_get padded r c = Ok v) /\
    (count_live (store w) <= count_live padded)%nat /\
    (count_unoriented (store w) <= count_unoriented padded)%nat.
Proof.
  intros w.
  assert (Hrect : rectangular (store w)) by (repeat constructor).
  assert (H0 : store w !! 0%nat = Some [0; 0]) by reflexivity.
  do 2 (split; [done|]).
  exact (pad_edges_counts w [0; 0] Hrect H0).
Defined.

(** C8 on a grid where grain 7 has one pixel. *)
Lemma small_grains_removed_witness :
  let w := World [[5; 5]; [5; 7]] [] [] in
  rectangular (store w) /\
  (remove_small_grains 2 w).1 = Ok [[5; 5]; [5; 5]] /\
  5 ∈ concat [[5; 5]; [5; 5]] /\ 5 ≠ VOID_PIXEL_ID /\
  5 ∈ concat (store w) /\
  2 <= Z.of_nat (py_count (concat (store w)) 5).
Proof.
  intros w.
  assert (Hrect : rectangular (store w)) by (repeat constructor).
  assert (Hrun : (remove_small_grains 2 w).1 = Ok [[5; 5]; [5; 5]])
    by (vm_compute; reflexivity).
  assert (Hin : 5 ∈ concat [[5; 5]; [5; 5]]) by (simpl; left).
  assert (Hlive : 5 ≠ VOID_PIXEL_ID) by discriminate.
  do 4 (split; [done|]).
  exact (small_grains_removed 2 w _ 5 Hrect Hrun Hin Hlive).
Defined.

(** C9 on [merge_world]: four grains before, three after. *)
Lemma merge_grains_count_witness :
  (merge_grains line_map 2 merge_world).1 = Ok [[1; 1]; [4; 7]] /\
  (length (get_sorted_grain_id_list [[1; 1]; [4; 7]]%Z).1
   <= length (get_sorted_grain_id_list (store merge_world)).1)%nat.
Proof.
  assert (Hrun : (merge_grains line_map 2 merge_world).1 = Ok [[1; 1]; [4; 7]])
    by (vm_compute; reflexivity).
  split; [done|].
  exact (merge_grains_count line_map 2 merge_world _ Hrun).
Defined.

(** C10 on [corner_world]: with the threshold 1 the one unoriented
    pixel is kept; with the threshold 2 it is a grain under the
    threshold and is given to grain 5; with a grain map that has no
    entry for the unoriented sentinel the merger raises. *)
Lemma unoriented_is_a_grain_witness :
  UNORIENTED_PIXEL_ID ∈ concat (store corner_world) /\
  UNORIENTED_PIXEL_ID ∈ (get_sorted_grain_id_list (store corner_world)).1 /\
  grid_get (store (remove_small_grains 1 corner_world).2) 1 1
  = Ok UNORIENTED_PIXEL_ID /\
  remove_small_grains 2 corner_world
  = (Ok [[5; 5]; [5; 5]], World [[5; 5]; [5; 5]] [] []) /\
  exists e, merge_grains (fun id => if decide (id = -1) then None else line_map id)
                         10 corner_world = (Raise e, corner_world).
Proof.
  assert (Hu : UNORIENTED_PIXEL_ID ∈ concat (store corner_world))
    by (simpl; do 3 right; left).
  assert (Hrect : rectangular (store corner_world)) by (repeat constructor).
  split; [done|].
  destruct (proj2 (unoriented_is_a_grain
              (fun id => if decide (id = -1) then None else line_map id)
              10 1 corner_world) Hu) as (Hid & Hkept & _ & _ & Hmerge).
  destruct (proj2 (unoriented_is_a_grain line_map 10 2 corner_world) Hu)
    as (_ & _ & Hgone & _ & _).
  split; [exact Hid|]. split; [|split].
  - apply (Hkept Hrect); [by vm_compute|reflexivity].
  - assert (H0 : store corner_world !! 0%nat = Some [5; 5]) by reflexivity.
    assert (Hsmall : Z.of_nat (py_count (concat (store corner_world))
                                 UNORIENTED_PIXEL_ID) < 2)
      by (vm_compute; reflexivity).
    assert (Hmode : most_neighbouring_of
                      (halo_ids (store corner_world) UNORIENTED_PIXEL_ID
                         (length [5; 5]) (length (store corner_world))) = Ok 5)
      by (vm_compute; reflexivity).
    refine (proj2 (Hgone [5; 5] 5 Hrect H0 Hsmall _ Hmode)).
    intros id Hin Hlive Hnu.
    change (concat (store corner_world)) with [5; 5; 5; -1] in *.
    rewrite !elem_of_cons, elem_of_nil in Hin.
    destruct Hin as [->|[->|[->|[->|[]]]]]; try done; by vm_compute.
  - apply Hmerge. reflexivity.
Defined.

(** The two scenarios of the specification. *)
Lemma denoiser_scenario :
  (clean_pixel_grid (World [[5; 5; 5]; [5; 0; 5]; [5; 5; 5]] [4%nat] [])).1
  = Ok [[5; 5; 5]; [5; 5; 5]; [5; 5; 5]].
Proof. by vm_compute. Qed.

Lemma padder_scenario :
  (pad_edges (World [[0; 0]; [7; 0]] [] [])).1 = Ok [[7; 7]; [7; 7]].
Proof. by vm_compute. Qed.

End Examples.


(** ** Further worked examples

    The further properties at concrete worlds, with the reference
    collaborators. *)

Module FurtherExamples.
Import Reference ReferenceFacts.

(** X1: two grids with the grains 5 and 7, one of them with a void
    pixel. *)
Lemma grain_id_list_canonical_witness :
  let g := [[5; 7]; [0; 5]] in
  let g' := [[7; 5]] in
  StronglySorted Z.lt (get_sorted_grain_id_list g).1 /\
  (get_sorted_grain_id_list g).1 = (get_sorted_grain_id_list g').1.
Proof.
  intros g g'. destruct (grain_id_list_canonical g g') as [Hsorted Hsame].
  split; [exact Hsorted|]. apply Hsame. intros v Hv.
  change (concat g) with [5; 7; 0; 5]. change (concat g') with [7; 5].
  change VOID_PIXEL_ID with 0 in Hv.
  rewrite !elem_of_cons, !elem_of_nil. lia.
Defined.

(** X2: two grains of two pixels, threshold 2. *)
Lemma remove_small_grains_fixed_point_witness :
  let w := World [[5; 5]; [7; 7]] [] [] in
  rectangular (store w) /\ store w !! 0%nat = Some [5; 5] /\
  remove_small_grains 2 w = (Ok (store w), w).
Proof.
  intros w.
  assert (Hrect : rectangular (store w)) by (repeat constructor).
  assert (H0 : store w !! 0%nat = Some [5; 5]) by reflexivity.
  do 2 (split; [done|]).
  apply (remove_small_grains_fixed_point 2 w [5; 5] Hrect H0).
  intros v Hv _. change (concat (store w)) with [5; 5; 7; 7] in *.
  rewrite !elem_of_cons, elem_of_nil in Hv.
  destruct Hv as [->|[->|[->|[->|[]]]]]; by vm_compute.
Defined.

(** X3: grain 7 is removed, the pixels of grain 5 are not written. *)
Lemma remove_small_grains_frame_witness :
  let w := World [[5; 5]; [5; 7]] [] [] in
  rectangular (store w) /\ grid_get (store w) 0 0 = Ok 5 /\
  2 <= Z.of_nat (py_count (concat (store w)) 5) /\
  grid_get (store (remove_small_grains 2 w).2) 0 0 = Ok 5.
Proof.
  intros w.
  assert (Hrect : rectangular (store w)) by (repeat constructor).
  assert (Hv : grid_get (store w) 0 0 = Ok 5) by reflexivity.
  assert (Hbig : 2 <= Z.of_nat (py_count (concat (store w)) 5)) by by vm_compute.
  do 3 (split; [done|]).
  exact (proj1 (remove_small_grains_frame 2 w 0 0 5 Hrect Hv (or_intror Hbig))).
Defined.

(** X4: a row of two pixels of grain 5, threshold 3. *)
Lemma remove_small_grains_lone_grain_witness :
  let w := World [[5; 5]] [] [] in
  rectangular (store w) /\ store w !! 0%nat = Some [5; 5] /\
  Z.of_nat (length (concat (store w))) < 3 /\
  remove_small_grains 3 w = (Raise ValueError, w).
Proof.
  intros w.
  assert (Hrect : rectangular (store w)) by (repeat constructor).
  assert (H0 : store w !! 0%nat = Some [5; 5]) by reflexivity.
  assert (Hsmall : Z.of_nat (length (concat (store w))) < 3) by by vm_compute.
  do 3 (split; [done|]).
  apply (remove_small_grains_lone_grain 3 w [5; 5] 5 Hrect H0);
    [discriminate| |discriminate|exact Hsmall].
  intros u Hu. change (concat (store w)) with [5; 5] in Hu.
  rewrite !elem_of_cons, elem_of_nil in Hu. by destruct Hu as [->|[->|[]]].
Defined.

(** X5 on [merge_world]. *)
Lemma passes_keep_the_shape_witness :
  shape (store (clean_pixel_grid merge_world).2) = [2; 2]%nat /\
  shape (store (smoothen_edges merge_world).2) = [2; 2]%nat /\
  shape (store (remove_small_grains 2 merge_world).2) = [2; 2]%nat /\
  (merge_grains line_map 2 merge_world).1 = Ok [[1; 1]; [4; 7]] /\
  shape [[1; 1]; [4; 7]]%Z = [2; 2]%nat.
Proof.
  destruct (passes_keep_the_shape 2 line_map 2 merge_world)
    as ([Hc _] & [Hs _] & [Hr _] & Hm).
  assert (Hrun : (merge_grains line_map 2 merge_world).1 = Ok [[1; 1]; [4; 7]])
    by (vm_compute; reflexivity).
  split; [exact Hc|]. split; [exact Hs|]. split; [exact Hr|].
  split; [exact Hrun|exact (Hm _ Hrun)].
Defined.

(** X6 on [merge_world]. *)
Lemma passes_introduce_no_id_witness :
  drawn_from (store merge_world) (store (clean_pixel_grid merge_world).2) /\
  drawn_from (store merge_world) (store (smoothen_edges merge_world).2) /\
  drawn_from (store merge_world) (store (remove_small_grains 2 merge_world).2) /\
  (merge_grains line_map 2 merge_world).1 = Ok [[1; 1]; [4; 7]] /\
  drawn_from (store merge_world) [[1; 1]; [4; 7]].
Proof.
  destruct (passes_introduce_no_id 2 line_map 2 merge_world)
    as (Hc & Hs & Hr & Hm).
  assert (Hrun : (merge_grains line_map 2 merge_world).1 = Ok [[1; 1]; [4; 7]])
    by (vm_compute; reflexivity).
  split; [exact Hc|]. split; [exact Hs|]. split; [exact Hr|].
  split; [exact Hrun|exact (Hm _ Hrun)].
Defined.

(** X7 on a grid whose second row is longer than the first. *)
Lemma pad_edges_output_witness :
  let w := World [[0; 7]; [7; 0; 5]] [] [] in
  store (pad_edges w).2 = store w /\
  (pad_edges w).1 = Ok [[7; 7]; [7; 7]] /\
  in_shape 2 2 [[7; 7]; [7; 7]]%Z.
Proof.
  intros w. destruct (pad_edges_output w) as (Hstore & _ & Hout).
  split; [exact Hstore|].
  assert (Hrun : (pad_edges w).1 = Ok [[7; 7]; [7; 7]]) by (vm_compute; reflexivity).
  split; [exact Hrun|].
  destruct (Hout _ Hrun) as (row0 & H0 & Hshape & _).
  injection H0 as <-. exact Hshape.
Defined.

(** X8 on a grid with an unoriented pixel next to void: the one
    unoriented pixel of the result was unoriented in the input. *)
Lemma unoriented_never_spreads_witness :
  let w := World [[-1; 0]; [5; 0]] [3%nat; 1%nat] [] in
  grid_get (store (clean_pixel_grid w).2) 0 0 = Ok UNORIENTED_PIXEL_ID /\
  grid_get (store w) 0 0 = Ok UNORIENTED_PIXEL_ID.
Proof.
  intros w.
  assert (Hafter : grid_get (store (clean_pixel_grid w).2) 0 0
                   = Ok UNORIENTED_PIXEL_ID) by (vm_compute; reflexivity).
  split; [exact Hafter|].
  exact (proj1 (unoriented_never_spreads w 0 0) Hafter).
Defined.

(** X9: a gridful of grain 5. *)
Lemma clean_pixel_grid_fixed_point_witness :
  let w := World [[5; 5]; [5; 5]] [4%nat] [] in
  rectangular (store w) /\ store w !! 0%nat = Some [5; 5] /\
  clean_pixel_grid w = (Ok (store w), w).
Proof.
  intros w.
  assert (Hrect : rectangular (store w)) by (repeat constructor).
  assert (H0 : store w !! 0%nat = Some [5; 5]) by reflexivity.
  do 2 (split; [done|]).
  apply (clean_pixel_grid_fixed_point w [5; 5] Hrect H0).
  intros [|[|row]] [|[|col]] Hrow Hcol; try (simpl in Hrow, Hcol; lia);
    right; right; (split; [discriminate|vm_compute; lia]).
Defined.

(** X10: two grains side by side; no pixel has more than two foreign
    neighbours. *)
Lemma smoothen_edges_fixed_point_witness :
  let w := World [[5; 7]; [5; 7]] [4%nat] [] in
  rectangular (store w) /\ store w !! 0%nat = Some [5; 7] /\
  smoothen_edges w = (Ok (store w), w).
Proof.
  intros w.
  assert (Hrect : rectangular (store w)) by (repeat constructor).
  assert (H0 : store w !! 0%nat = Some [5; 7]) by reflexivity.
  do 2 (split; [done|]).
  apply (smoothen_edges_fixed_point w [5; 7] Hrect H0).
  intros [|[|row]] [|[|col]] Hrow Hcol; try (simpl in Hrow, Hcol; lia);
    right; vm_compute; lia.
Defined.

(** X11: a pixel of grain 5 among three pixels of other grains. *)
Lemma smoothen_edges_returns_witness :
  let w := World [[5; 7]; [8; 9]] [0%nat] [] in
  rectangular (store w) /\ store w !! 0%nat = Some [5; 7] /\
  (smoothen_edges w).1 = Ok (store (smoothen_edges w).2) /\
  stdout (smoothen_edges w).2 = stdout w.
Proof.
  intros w.
  assert (Hrect : rectangular (store w)) by (repeat constructor).
  assert (H0 : store w !! 0%nat = Some [5; 7]) by reflexivity.
  do 2 (split; [done|]).
  exact (smoothen_edges_returns w [5; 7] Hrect H0).
Defined.

(** X12: the first pixel has three foreign neighbours; the draw is 1,
    the second of them, a pixel of grain 8. *)
Lemma smoothen_edges_cell_witness :
  let w := World [[5; 7]; [8; 9]] [1%nat; 2%nat; 0%nat] [] in
  let g' := [[8; 9]; [8; 9]] in
  rectangular (store w) /\ store w !! 0%nat = Some [5; 7] /\
  (smoothen_edges w).1 = Ok g' /\
  (0 < length (store w))%nat /\ (0 < length [5; 7])%nat /\
  grid_get g' 0 0 = Ok 8.
Proof.
  intros w g'.
  assert (Hrect : rectangular (store w)) by (repeat constructor).
  assert (H0 : store w !! 0%nat = Some [5; 7]) by reflexivity.
  assert (Hrun : (smoothen_edges w).1 = Ok g') by (vm_compute; reflexivity).
  assert (Hrow : (0 < length (store w))%nat) by (simpl; lia).
  assert (Hcol : (0 < length [5; 7])%nat) by (simpl; lia).
  do 5 (split; [done|]).
  destruct (smoothen_edges_cell w _ _ 0%nat 0%nat Hrect H0 Hrun Hrow Hcol)
    as (w1 & Hbefore & _ & _ & Hfill).
  assert (Hw1 : scan_up_to smoothen_pixel 2 2 0 0 w = (Ok tt, w))
    by (vm_compute; reflexivity).
  change (length [5; 7]) with 2%nat in *.
  change (length (store w)) with 2%nat in *.
  rewrite Hw1 in Hbefore. injection Hbefore as <-.
  destruct Hfill as (k & n & Hk & Hn & _ & _ & Hv);
    [vm_compute; discriminate|vm_compute; lia|].
  vm_compute in Hk. injection Hk as <-.
  vm_compute in Hn. injection Hn as <-.
  rewrite Hv. vm_compute. reflexivity.
Defined.

(** X13: in a grid of two rows and two columns every cell has three
    neighbours, and the denoiser returns. *)
Lemma clean_pixel_grid_failure_witness :
  let w := World [[5; 0]; [0; 0]] [2%nat] [] in
  rectangular (store w) /\ store w !! 0%nat = Some [5; 0] /\
  (clean_pixel_grid w).1 = Ok (store (clean_pixel_grid w).2).
Proof.
  intros w.
  assert (Hrect : rectangular (store w)) by (repeat constructor).
  assert (H0 : store w !! 0%nat = Some [5; 0]) by reflexivity.
  do 2 (split; [done|]).
  apply (proj2 (clean_pixel_grid_failure w [5; 0] Hrect H0)).
  intros [|[|row]] [|[|col]] Hrow Hcol; try (simpl in Hrow, Hcol; lia);
    discriminate.
Defined.

(** X14: the grid of a single void pixel. *)
Lemma clean_pixel_grid_isolated_void_witness :
  let w := World [[0]] [] [] in
  store w !! 0%nat = Some [0] /\
  get_neighbours 0 0 1 1 = [] /\
  clean_pixel_grid w = (Raise ValueError, w).
Proof.
  intros w.
  assert (H0 : store w !! 0%nat = Some [0]) by reflexivity.
  assert (Hcell : [0] !! 0%nat = Some VOID_PIXEL_ID) by reflexivity.
  assert (Hnil : get_neighbours 0 0 (length [0]) (length (store w)) = [])
    by reflexivity.
  do 2 (split; [done|]).
  exact (clean_pixel_grid_isolated_void w [0] H0 Hcell Hnil).
Defined.

(** X15 on the padder scenario of the specification: the void pixel in
    the corner opposite to grain 7 takes the value of a live neighbour. *)
Lemma pad_edges_cell_witness :
  let w := World [[0; 0]; [7; 0]] [] [] in
  rectangular (store w) /\ store w !! 0%nat = Some [0; 0] /\
  exists padded, (pad_edges w).1 = Ok padded /\
    grid_get padded 1 0 = Ok 7 /\
    exists n, n ∈ get_neighbours 1 0 2 2 /\
      grid_get padded 0 1 = Ok (pixel_at (store w) n.2 n.1).
Proof.
  intros w.
  assert (Hrect : rectangular (store w)) by (repeat constructor).
  assert (H0 : store w !! 0%nat = Some [0; 0]) by reflexivity.
  do 2 (split; [done|]).
  destruct (pad_edges_cell w [0; 0] Hrect H0) as (padded & Hrun & Hcells).
  exists padded. split; [exact Hrun|]. split.
  - apply (Hcells 1%nat 0%nat); [simpl; lia..|discriminate].
  - destruct (Hcells 0%nat 1%nat) as (_ & _ & Hfill); [simpl; lia..|].
    destruct Hfill as (n & Hn & _ & Hv); [reflexivity|discriminate|].
    exists n. split; [exact Hn|exact Hv].
Defined.

(** X16: a grid that is all void. *)
Lemma pad_edges_fixed_point_witness :
  let w := World [[0; 0]; [0; 0]] [4%nat] [] in
  rectangular (store w) /\ store w !! 0%nat = Some [0; 0] /\
  pad_edges w = (Ok (store w), w).
Proof.
  intros w.
  assert (Hrect : rectangular (store w)) by (repeat constructor).
  assert (H0 : store w !! 0%nat = Some [0; 0]) by reflexivity.
  do 2 (split; [done|]).
  apply (pad_edges_fixed_point w [0; 0] Hrect H0).
  intros [|[|row]] [|[|col]] Hrow Hcol _; try (simpl in Hrow, Hcol; lia);
    reflexivity.
Defined.

(** X17: the second row has one pixel, the first has two. *)
Lemma short_row_raises_witness :
  let w := World [[5; 5]; [5]] [] [] in
  store w !! 0%nat = Some [5; 5] /\ store w !! 1%nat = Some [5] /\
  (length [5] < length [5; 5])%nat /\
  (exists e, (clean_pixel_grid w).1 = Raise e) /\
  (exists e, (smoothen_edges w).1 = Raise e) /\
  (exists e, (pad_edges w).1 = Raise e).
Proof.
  intros w.
  assert (H0 : store w !! 0%nat = Some [5; 5]) by reflexivity.
  assert (H1 : store w !! 1%nat = Some [5]) by reflexivity.
  assert (Hshort : (length [5] < length [5; 5])%nat) by (simpl; lia).
  do 3 (split; [done|]).
  exact (short_row_raises w [5; 5] 1 [5] H0 H1 Hshort).
Defined.

(** X18: a grain map without an entry for grain 7. *)
Lemma merge_grains_missing_orientation_witness :
  let w := World [[5; 7]] [] [] in
  let gm := fun id => if decide (id = 7) then None else line_map id in
  7 ∈ concat (store w) /\
  exists e, merge_grains gm 10 w = (Raise e, w) /\
            (e = KeyError \/ e = IndexError).
Proof.
  intros w gm.
  assert (Hin : 7 ∈ concat (store w)) by (simpl; right; left).
  split; [exact Hin|].
  apply (merge_grains_missing_orientation gm 10 w 7 Hin); [discriminate|reflexivity].
Defined.


(** X20 on [merge_world] with the threshold 2: grain 2 is merged into
    grain 1. *)
Lemma merge_grains_never_raises_an_id_witness :
  rectangular (store merge_world) /\
  oriented line_map (get_sorted_grain_id_list (store merge_world)).1 /\
  grid_get (store merge_world) 0 1 = Ok 2 /\
  exists g' v',
    (merge_grains line_map 2 merge_world).1 = Ok g' /\
    grid_get g' 0 1 = Ok v' /\ v' <= 2.
Proof.
  assert (Hrect : rectangular (store merge_world)) by (repeat constructor).
  assert (Hor : oriented line_map (get_sorted_grain_id_list (store merge_world)).1).
  { intros id _. exists [id; 0; 0]. split; [reflexivity|simpl; lia]. }
  assert (Hv : grid_get (store merge_world) 0 1 = Ok 2) by reflexivity.
  do 3 (split; [done|]).
  destruct (merge_grains_never_raises_an_id line_map 2 merge_world 0 1 2 Hrect Hor Hv)
    as (g' & v' & Hrun & Hv' & Hle & _).
  exists g', v'. split; [exact Hrun|]. split; [exact Hv'|exact Hle].
Defined.

End FurtherExamples.
